(** * hex-palette: the colour pipeline of [assets/js/app.js]

    A shallow embedding of the colour utilities of the palette generator
    ([hexToRgb], [getLuminance], [getContrastRatio], [hslToHex], [hexToHsl],
    [clamp], [randomInRange], [generateVariantFromHex], [applyMood],
    [generatePalette], [updateUI]) and the properties they satisfy.

    JavaScript numbers are IEEE 754 binary64 values; they are modelled by
    Rocq's primitive [float], whose [+], [-], [*] and [/] are the same
    round-to-nearest-even operations.  Integers produced by the bitwise
    operators are modelled by [Z], strings by [string], a sequence of code
    units below 256. *)

From Stdlib Require Import Uint63 ZArith List String Ascii Bool Lia Floats.
From Stdlib Require Import Reals Lra Psatz.
Import ListNotations.

Set Warnings "-inexact-float".

Local Open Scope Z_scope.

(** ** JavaScript numbers *)

Module JS.

(** An integer below [2^63] in absolute value as a Number (exact below [2^53]). *)
Definition of_Z (z : Z) : float :=
  match z with
  | Z0 => PrimFloat.zero
  | Zpos _ => PrimFloat.of_uint63 (Uint63.of_Z z)
  | Zneg p => PrimFloat.opp (PrimFloat.of_uint63 (Uint63.of_Z (Zpos p)))
  end.

(** The signed mantissa of a finite non-zero number. *)
Definition signed (s : bool) (m : positive) : Z := cond_Zopp s (Zpos m).

(** [Math.floor]: NaN, the infinities and the zeros are returned as they are;
    [m * 2^e] is an integer already when [0 <= e]. *)
Definition Math_floor (x : float) : float :=
  match Prim2SF x with
  | S754_finite s m e =>
      if 0 <=? e then x
      else of_Z (Z.shiftr (signed s m) (- e))
  | _ => x
  end.

(** [Math.round]: the integer closest to [x], ties towards [+Infinity]; a
    result of zero keeps the sign of [x]. *)
Definition Math_round (x : float) : float :=
  match Prim2SF x with
  | S754_finite s m e =>
      if 0 <=? e then x
      else
        let n := Z.shiftr (2 * signed s m + 2 ^ (- e)) (- e + 1) in
        if n =? 0 then (if s then PrimFloat.neg_zero else PrimFloat.zero)
        else of_Z n
  | _ => x
  end.

Definition is_neg_zero (x : float) : bool :=
  match PrimFloat.classify x with NZero => true | _ => false end.

Definition is_pos_zero (x : float) : bool :=
  match PrimFloat.classify x with PZero => true | _ => false end.

(** [Math.max] and [Math.min] on a list of arguments: NaN if any argument is
    NaN, and [+0] counts as larger than [-0]. *)
Definition max_step (highest x : float) : float :=
  if is_pos_zero x && is_neg_zero highest then x
  else if PrimFloat.ltb highest x then x else highest.

Definition min_step (lowest x : float) : float :=
  if is_neg_zero x && is_pos_zero lowest then x
  else if PrimFloat.ltb x lowest then x else lowest.

Definition Math_max (xs : list float) : float :=
  if existsb PrimFloat.is_nan xs then PrimFloat.nan
  else fold_left max_step xs PrimFloat.neg_infinity.

Definition Math_min (xs : list float) : float :=
  if existsb PrimFloat.is_nan xs then PrimFloat.nan
  else fold_left min_step xs PrimFloat.infinity.

(** The remainder operator [x % y] on numbers: the exact value of
    [x - trunc(x / y) * y], with the sign of the dividend. *)
Definition rem (x y : float) : float :=
  match Prim2SF x, Prim2SF y with
  | S754_nan, _ | _, S754_nan => PrimFloat.nan
  | S754_infinity _, _ => PrimFloat.nan
  | _, S754_zero _ => PrimFloat.nan
  | _, S754_infinity _ => x
  | S754_zero _, _ => x
  | S754_finite sx mx ex, S754_finite _ my ey =>
      let e := Z.min ex ey in
      let r := Z.modulo (Zpos mx * 2 ^ (ex - e)) (Zpos my * 2 ^ (ey - e)) in
      match r with
      | Zpos p => SF2Prim (binary_normalize prec emax (signed sx p) e false)
      | _ => if sx then PrimFloat.neg_zero else PrimFloat.zero
      end
  end.

(** The Number nearest to an integer (ties to even, an infinity past the
    largest Number). *)
Definition Number (n : Z) : float := SF2Prim (binary_normalize prec emax n 0 false).

(** The integer part of a Number; 0 for NaN and the infinities. *)
Definition truncate (x : float) : Z :=
  match Prim2SF x with
  | S754_finite s m e =>
      if 0 <=? e then cond_Zopp s (Zpos m * 2 ^ e)
      else cond_Zopp s (Zpos m / 2 ^ (- e))
  | _ => 0
  end.

(** [ToInt32], the conversion the bitwise operators apply, on the integer
    part of their operand. *)
Definition ToInt32 (n : Z) : Z := (n + 2 ^ 31) mod 2 ^ 32 - 2 ^ 31.

(** [a >> k] and [a & b] on integers. *)
Definition sar (a k : Z) : Z := Z.shiftr (ToInt32 a) (k mod 32).
Definition band (a b : Z) : Z := Z.land (ToInt32 a) (ToInt32 b).

(** Digits of a radix-16 numeral, lowercase. *)
Definition hex_digit (d : Z) : ascii :=
  match d with
  | 0 => "0" | 1 => "1" | 2 => "2" | 3 => "3" | 4 => "4" | 5 => "5"
  | 6 => "6" | 7 => "7" | 8 => "8" | 9 => "9" | 10 => "a" | 11 => "b"
  | 12 => "c" | 13 => "d" | 14 => "e" | _ => "f"
  end%char.

Fixpoint hex_of_pos (fuel : nat) (p : Z) (acc : string) : string :=
  match fuel with
  | O => acc
  | S fuel' =>
      if p =? 0 then acc
      else hex_of_pos fuel' (p / 16) (String (hex_digit (p mod 16)) acc)
  end.

(** [n.toString(16)] for a non-negative integer [n]. *)
Definition hex_of_nonneg (n : Z) : string :=
  if n =? 0 then "0"%string
  else hex_of_pos (S (Z.to_nat (Z.log2 n))) n EmptyString.

(** [x.toString(16)] where [x] is the result of [Math.round]: an integer,
    NaN or an infinity (the fraction digits of other numbers are not needed
    by the program and are left out). *)
Definition toString16 (x : float) : string :=
  match Prim2SF x with
  | S754_nan => "NaN"
  | S754_infinity s => if s then "-Infinity" else "Infinity"
  | S754_zero _ => "0"
  | S754_finite s m e =>
      let n := Z.shiftl (Zpos m) e in
      if s then String "-" (hex_of_nonneg n) else hex_of_nonneg n
  end%string.

Fixpoint repeat_char (c : ascii) (n : nat) : string :=
  match n with O => EmptyString | S n' => String c (repeat_char c n') end.

(** [s.padStart(n, c)] for a one-character filler. *)
Definition padStart (s : string) (n : nat) (c : ascii) : string :=
  (repeat_char c (n - String.length s) ++ s)%string.

(** [s.slice(1)]. *)
Definition slice1 (s : string) : string :=
  match s with EmptyString => EmptyString | String _ t => t end.

Definition hex_value (c : ascii) : option Z :=
  let n := Z.of_nat (nat_of_ascii c) in
  if (48 <=? n) && (n <=? 57) then Some (n - 48)
  else if (97 <=? n) && (n <=? 102) then Some (n - 87)
  else if (65 <=? n) && (n <=? 70) then Some (n - 55)
  else None.

Fixpoint parse_hex_digits (s : string) (acc : Z) : Z :=
  match s with
  | EmptyString => acc
  | String c t =>
      match hex_value c with
      | Some d => parse_hex_digits t (16 * acc + d)
      | None => acc
      end
  end.

(** White space, among the code units below 256. *)
Definition is_space (c : ascii) : bool :=
  let n := nat_of_ascii c in
  ((9 <=? n) && (n <=? 13) || (n =? 32) || (n =? 160))%nat.

Fixpoint trim_start (s : string) : string :=
  match s with
  | String c t => if is_space c then trim_start t else s
  | EmptyString => s
  end.

(** A leading sign, and the rest of the string. *)
Definition strip_sign (s : string) : bool * string :=
  match s with
  | String "-" t => (true, t)
  | String "+" t => (false, t)
  | _ => (false, s)
  end.

(** A leading [0x] or [0X] is dropped. *)
Definition strip_prefix (s : string) : string :=
  match s with
  | String "0" (String "x" t) => t
  | String "0" (String "X" t) => t
  | _ => s
  end.

(** [parseInt(s, 16)]: white space, a sign and a prefix [0x] are skipped;
    the value is that of the longest run of hexadecimal digits that follows,
    NaN when there is none. *)
Definition parseInt16 (s : string) : float :=
  let '(negative, s1) := strip_sign (trim_start s) in
  let s2 := strip_prefix s1 in
  match s2 with
  | EmptyString => PrimFloat.nan
  | String c _ =>
      match hex_value c with
      | Some _ =>
          let n := parse_hex_digits s2 0 in
          if n =? 0 then (if negative then PrimFloat.neg_zero else PrimFloat.zero)
          else Number (if negative then - n else n)
      | None => PrimFloat.nan
      end
  end.

(** The lowercase of a code unit below 256: the letters A to Z, and the
    accented capitals from 192 to 222 but for the sign at 215. *)
Definition lower_char (c : ascii) : ascii :=
  let n := nat_of_ascii c in
  if ((65 <=? n) && (n <=? 90) || (192 <=? n) && (n <=? 222) && negb (n =? 215))%nat
  then ascii_of_nat (n + 32) else c.

(** [s.toLowerCase()]. *)
Fixpoint toLowerCase (s : string) : string :=
  match s with
  | EmptyString => EmptyString
  | String c t => String (lower_char c) (toLowerCase t)
  end.

End JS.

(** ** Colour utilities *)

Local Open Scope float_scope.

Record rgb := { r : Z; g : Z; b : Z }.

Record hsl := { h : float; s : float; l : float }.

(** [hexToRgb]: [bigint >> 16 & 255] and its siblings, on the integer part
    of [bigint] (0 for NaN). *)
Definition hexToRgb (hex : string) : rgb :=
  let bigint := JS.truncate (JS.parseInt16 (JS.slice1 hex)) in
  {| r := JS.band (JS.sar bigint 16) 255;
     g := JS.band (JS.sar bigint 8) 255;
     b := JS.band bigint 255 |}.

(** The values of [h], [s] and [l] that [hexToHsl] holds when it reaches its
    [return], for the channels [hexToRgb] gave. *)
Definition unrounded (c : rgb) : float * float * float :=
  let rr := JS.of_Z c.(r) / 255 in
  let gg := JS.of_Z c.(g) / 255 in
  let bb := JS.of_Z c.(b) / 255 in
  let max := JS.Math_max [rr; gg; bb] in
  let min := JS.Math_min [rr; gg; bb] in
  let l0 := (max + min) / 2 in
  if max =? min then (0, 0, l0)
  else
    let d := max - min in
    let s0 := if 0.5 <? l0 then d / (2 - max - min) else d / (max + min) in
    let h0 :=
      if max =? rr then (gg - bb) / d + (if gg <? bb then 6 else 0)
      else if max =? gg then (bb - rr) / d + 2
      else (rr - gg) / d + 4 in
    (h0 / 6, s0, l0).

(** The [return] of [hexToHsl]. *)
Definition rgbToHsl (c : rgb) : hsl :=
  let '(h0, s0, l0) := unrounded c in
  {| h := JS.Math_round (h0 * 360);
     s := JS.Math_round (s0 * 100);
     l := JS.Math_round (l0 * 100) |}.

Definition hexToHsl (hex : string) : hsl := rgbToHsl (hexToRgb hex).

(** The number [Math.round(255 * color)] that [f(n)] renders in [hslToHex]. *)
Definition hslChannel (h s l : float) (n : float) : float :=
  let l := l / 100 in
  let a := (s * JS.Math_min [l; 1 - l]) / 100 in
  let k := JS.rem (n + h / 30) 12 in
  let color := l - a * JS.Math_max [JS.Math_min [k - 3; 9 - k; 1]; -1] in
  JS.Math_round (255 * color).

Definition hslToHex (h s l : float) : string :=
  let f n := JS.padStart (JS.toString16 (hslChannel h s l n)) 2 "0" in
  (String "#" (f 0 ++ f 8 ++ f 4))%string.

Definition clamp (value min max : float) : float :=
  JS.Math_min [JS.Math_max [value; min]; max].

(** [randomInRange(min, max)], given the number [u] that [Math.random()]
    returns. *)
Definition randomInRange (min max : float) (u : float) : float :=
  JS.Math_floor (u * (max - min + 1)) + min.

(** [generateVariantFromHex]; [u1], [u2], [u3] and [u4] are the results of its
    four calls of [Math.random()], in the order they are made: each
    conditional draws once for its test and once in the branch it takes. *)
Definition lightShift (u1 u2 : float) : float :=
  if 0.5 <? u1 then randomInRange 12 20 u2 else randomInRange (-20) (-12) u2.

Definition saturationShift (shift u3 u4 : float) : float :=
  if 0.5 <? u3 then randomInRange (-8) 8 u4
  else randomInRange 6 14 u4 * (if 0 <? shift then -1 else 1).

Definition newLightness (base : hsl) (u1 u2 : float) : float :=
  clamp (base.(l) + lightShift u1 u2) 5 95.

Definition newSaturation (base : hsl) (u1 u2 u3 u4 : float) : float :=
  clamp (base.(s) + saturationShift (lightShift u1 u2) u3 u4) 10 95.

Definition generateVariantFromHex (hex : string) (u1 u2 u3 u4 : float) : string :=
  let base := hexToHsl hex in
  hslToHex base.(h) (newSaturation base u1 u2 u3 u4) (newLightness base u1 u2).

(** The shape test [/^#[0-9a-f]{6}$/]. *)
Definition is_lower_hex (c : ascii) : bool :=
  let n := nat_of_ascii c in
  ((48 <=? n) && (n <=? 57) || (97 <=? n) && (n <=? 102))%nat.

Definition test_hex (s : string) : bool :=
  match s with
  | String "#" (String c1 (String c2 (String c3 (String c4 (String c5
      (String c6 EmptyString)))))) =>
      forallb is_lower_hex [c1; c2; c3; c4; c5; c6]
  | _ => false
  end.


(** ** Contrast *)

Section Contrast.

(** [Math.pow]: ECMAScript leaves its result implementation-approximated, so
    the function is a parameter of the model. *)
Variable Math_pow : float -> float -> float.

(** The callback of [map] in [getLuminance], applied to one channel. *)
Definition linear (v : Z) : float :=
  let v := JS.of_Z v / 255 in
  if v <=? 0.03928 then v / 12.92 else Math_pow ((v + 0.055) / 1.055) 2.4.

Definition getLuminance (c : rgb) : float :=
  let a := map linear [c.(r); c.(g); c.(b)] in
  0.2126 * nth 0 a PrimFloat.nan + 0.7152 * nth 1 a PrimFloat.nan
  + 0.0722 * nth 2 a PrimFloat.nan.

Definition getContrastRatio (hex1 hex2 : string) : float :=
  let l1 := getLuminance (hexToRgb hex1) in
  let l2 := getLuminance (hexToRgb hex2) in
  let ratio := (JS.Math_max [l1; l2] + 0.05) / (JS.Math_min [l1; l2] + 0.05) in
  JS.Math_round (ratio * 10) / 10.

End Contrast.

(** ** Moods *)

Record mood := { label : string; emoji : string; primary : string; secondary : string }.

Definition bytes (l : list nat) : string :=
  fold_right (fun n acc => String (ascii_of_nat n) acc) EmptyString l.

Definition DEFAULT_MOOD : string := "calm".

(** The own properties of the object literal [moodPalettes], in order. *)
Definition moodPalettes : list (string * mood) :=
  [ ("calm", {| label := "Calm Drift";
                emoji := bytes [195; 163; 226; 130; 172; 194; 176; 195; 175; 194; 184; 194; 143]%nat;
                primary := "#5468ff"; secondary := "#bfe0ff" |});
    ("noir", {| label := "Night Grid";
                emoji := bytes [195; 162; 226; 128; 148; 194; 188; 195; 175; 194; 184; 194; 143]%nat;
                primary := "#0b1116"; secondary := "#f5eddc" |});
    ("bloom", {| label := "Bloom Pop";
                 emoji := bytes [195; 162; 197; 147; 194; 191]%nat;
                 primary := "#f2547d"; secondary := "#ffd9e8" |});
    ("solar", {| label := "Solar Flash";
                 emoji := bytes [195; 162; 197; 161; 194; 161]%nat;
                 primary := "#ff6b00"; secondary := "#ffe4a0" |});
    ("fresh", {| label := "Fresh Cut";
                 emoji := bytes [195; 162; 197; 147; 194; 179; 195; 175; 194; 184; 194; 143]%nat;
                 primary := "#1fbf8f"; secondary := "#d9ffe5" |}) ]%string.

(** [moodPalettes] is an object literal, so its prototype is
    [Object.prototype]: these property names are found on it by [obj[key]]
    and by [key in obj] although the literal does not list them. *)
Definition Object_prototype : list string :=
  [ "constructor"; "__defineGetter__"; "__defineSetter__"; "hasOwnProperty";
    "__lookupGetter__"; "__lookupSetter__"; "isPrototypeOf";
    "propertyIsEnumerable"; "toString"; "valueOf"; "__proto__";
    "toLocaleString" ]%string.

(** What [moodPalettes[key]] evaluates to: a preset, a member inherited from
    [Object.prototype] (a function, or the prototype itself for
    [__proto__]), or [undefined]. *)
Inductive value :=
  | Undefined
  | Preset (m : mood)
  | Inherited (name : string).

Fixpoint assoc (key : string) (o : list (string * mood)) : option mood :=
  match o with
  | [] => None
  | (k, m) :: o' => if String.eqb k key then Some m else assoc key o'
  end.

Definition mem (key : string) (l : list string) : bool :=
  existsb (String.eqb key) l.

(** [moodPalettes[key]]. *)
Definition get (key : string) : value :=
  match assoc key moodPalettes with
  | Some m => Preset m
  | None => if mem key Object_prototype then Inherited key else Undefined
  end.

(** [key in moodPalettes]. *)
Definition has (key : string) : bool :=
  match assoc key moodPalettes with
  | Some _ => true
  | None => mem key Object_prototype
  end.

(** Truthiness, for [a || b]: objects and functions are truthy. *)
Definition truthy (v : value) : bool :=
  match v with Undefined => false | _ => true end.

Definition or_else (a b : value) : value := if truthy a then a else b.

(** [v.primary] and its siblings, [None] for [undefined]: the members of
    [Object.prototype] have no such property. *)
Definition field (f : mood -> string) (v : value) : option string :=
  match v with Preset m => Some (f m) | _ => None end.

(** The string a property holds once [undefined] went through [ToString]
    (an assignment to [input.value], a template literal). *)
Definition ToString (o : option string) : string :=
  match o with Some s => s | None => "undefined" end.

(** The first two statements of [applyMood]. *)
Definition resolveMood (moodKey : string) : value :=
  or_else (get moodKey) (get DEFAULT_MOOD).

Definition resolveKey (moodKey : string) : string :=
  if has moodKey then moodKey else DEFAULT_MOOD.

(** ** Palette *)

Record entry := { name : string; hex : string; desc : string }.

Definition generatePalette (primaryHex secondaryHex : string) : list entry :=
  let p := hexToHsl primaryHex in
  let s' := hexToHsl secondaryHex in
  let primaryLighter := hslToHex p.(h) p.(s) (JS.Math_min [100; p.(l) + 15]) in
  let primaryDarker := hslToHex p.(h) p.(s) (JS.Math_max [10; p.(l) - 20]) in
  let secondaryLighter := hslToHex s'.(h) s'.(s) (JS.Math_min [100; s'.(l) + 15]) in
  let secondaryDarker := hslToHex s'.(h) s'.(s) (JS.Math_max [10; s'.(l) - 20]) in
  let neutralH := JS.rem (JS.Math_round ((p.(h) + s'.(h)) / 2)) 360 in
  let neutral := hslToHex neutralH 5 95 in
  [ {| name := "Primary"; hex := primaryHex; desc := "Base Color" |};
    {| name := "Primary-L"; hex := primaryLighter; desc := "Light Tint" |};
    {| name := "Primary-D"; hex := primaryDarker; desc := "Dark Shade" |};
    {| name := "Secondary"; hex := secondaryHex; desc := "Accent Color" |};
    {| name := "Secondary-L"; hex := secondaryLighter; desc := "Light Accent Tint" |};
    {| name := "Neutral"; hex := neutral; desc := "Background/Base" |} ]%string.

(** ** The page *)

(** The text of [contrastResult]: ['Waiting for valid hex.'], or the line
    [Ratio ${ratio}:1 / ${PASS AA|FAIL AA} / primary on neutral], kept as the
    two values it is built from. *)
Inductive contrast_line :=
  | Waiting
  | RatioLine (ratio : float) (isPassing : bool).

(** One cell of [paletteDisplay.innerHTML]: the fixed markup of a swatch
    around these five values. *)
Record swatch :=
  { background : string; textColor : string;
    swatch_name : string; swatch_hex : string; swatch_desc : string }.

(** The elements the functions read and write. *)
Record page :=
  { primaryHexInput : string;      (* primaryHexInput.value *)
    secondaryHexInput : string;    (* secondaryHexInput.value *)
    primaryColorInput : string;    (* primaryColorInput.value *)
    secondaryColorInput : string;  (* secondaryColorInput.value *)
    contrastResult : contrast_line;
    paletteDisplay : list swatch;  (* [] is the empty innerHTML *)
    css : option string;           (* copyCssBtn.dataset.css *)
    currentMood : string;
    pressed : string;              (* the mood button with aria-pressed true *)
    moodIndicator : string;
    toast : option string }.

Definition nl : string := String (ascii_of_nat 10) EmptyString.

(** [s.replace('-', '_')]: the first hyphen only. *)
Fixpoint replace_hyphen (s : string) : string :=
  match s with
  | EmptyString => EmptyString
  | String c t => if Ascii.eqb c "-" then String "_" t else String c (replace_hyphen t)
  end.

Definition css_line (p : entry) : string :=
  ("  --color-" ++ replace_hyphen (JS.toLowerCase p.(name)) ++ ": " ++ p.(hex) ++ ";" ++ nl)%string.

Definition cell (p : entry) : swatch :=
  let isDark := (hexToHsl p.(hex)).(l) <? 50 in
  {| background := p.(hex);
     textColor := if isDark then "#ffffff" else "#000000";
     swatch_name := p.(name); swatch_hex := p.(hex); swatch_desc := p.(desc) |}%string.

(** [palette.find(p => p.name === n).hex]; [None] when no entry has the name
    and the property access throws. *)
Definition find_hex (n : string) (palette : list entry) : option string :=
  option_map hex (find (fun p => String.eqb p.(name) n) palette).

Definition syncColorInputs (type hex : string) (st : page) : page :=
  if String.eqb type "primary" then
    {| primaryHexInput := hex; secondaryHexInput := st.(secondaryHexInput);
       primaryColorInput := hex; secondaryColorInput := st.(secondaryColorInput);
       contrastResult := st.(contrastResult); paletteDisplay := st.(paletteDisplay);
       css := st.(css); currentMood := st.(currentMood); pressed := st.(pressed);
       moodIndicator := st.(moodIndicator); toast := st.(toast) |}
  else
    {| primaryHexInput := st.(primaryHexInput); secondaryHexInput := hex;
       primaryColorInput := st.(primaryColorInput); secondaryColorInput := hex;
       contrastResult := st.(contrastResult); paletteDisplay := st.(paletteDisplay);
       css := st.(css); currentMood := st.(currentMood); pressed := st.(pressed);
       moodIndicator := st.(moodIndicator); toast := st.(toast) |}.

Definition showToast (message : string) (st : page) : page :=
  {| primaryHexInput := st.(primaryHexInput); secondaryHexInput := st.(secondaryHexInput);
     primaryColorInput := st.(primaryColorInput);
     secondaryColorInput := st.(secondaryColorInput);
     contrastResult := st.(contrastResult); paletteDisplay := st.(paletteDisplay);
     css := st.(css); currentMood := st.(currentMood); pressed := st.(pressed);
     moodIndicator := st.(moodIndicator); toast := Some message |}.

Definition set_currentMood (key : string) (st : page) : page :=
  {| primaryHexInput := st.(primaryHexInput); secondaryHexInput := st.(secondaryHexInput);
     primaryColorInput := st.(primaryColorInput);
     secondaryColorInput := st.(secondaryColorInput);
     contrastResult := st.(contrastResult); paletteDisplay := st.(paletteDisplay);
     css := st.(css); currentMood := key; pressed := st.(pressed);
     moodIndicator := st.(moodIndicator); toast := st.(toast) |}.

(** [setActiveMoodButton]: the button whose key is [activeKey], if any, is
    the pressed one. *)
Definition setActiveMoodButton (activeKey : string) (st : page) : page :=
  {| primaryHexInput := st.(primaryHexInput); secondaryHexInput := st.(secondaryHexInput);
     primaryColorInput := st.(primaryColorInput);
     secondaryColorInput := st.(secondaryColorInput);
     contrastResult := st.(contrastResult); paletteDisplay := st.(paletteDisplay);
     css := st.(css); currentMood := st.(currentMood); pressed := activeKey;
     moodIndicator := st.(moodIndicator); toast := st.(toast) |}.

Definition set_moodIndicator (text : string) (st : page) : page :=
  {| primaryHexInput := st.(primaryHexInput); secondaryHexInput := st.(secondaryHexInput);
     primaryColorInput := st.(primaryColorInput);
     secondaryColorInput := st.(secondaryColorInput);
     contrastResult := st.(contrastResult); paletteDisplay := st.(paletteDisplay);
     css := st.(css); currentMood := st.(currentMood); pressed := st.(pressed);
     moodIndicator := text; toast := st.(toast) |}.

Section Page.

Variable Math_pow : float -> float -> float.

(** What one run of [updateUI] writes: the contrast line, the swatches and,
    when the palette is recomputed, the CSS text. *)
Definition render (line : contrast_line) (cells : list swatch)
    (cssText : option string) (st : page) : page :=
  {| primaryHexInput := st.(primaryHexInput); secondaryHexInput := st.(secondaryHexInput);
     primaryColorInput := st.(primaryColorInput);
     secondaryColorInput := st.(secondaryColorInput);
     contrastResult := line; paletteDisplay := cells;
     css := match cssText with Some c => Some c | None => st.(css) end;
     currentMood := st.(currentMood); pressed := st.(pressed);
     moodIndicator := st.(moodIndicator); toast := st.(toast) |}.

(** [updateUI]; [None] is the TypeError of [palette.find(...).hex] on a
    palette without the entry. *)
Definition updateUI (st : page) : option page :=
  let primaryHex := JS.toLowerCase st.(primaryHexInput) in
  let secondaryHex := JS.toLowerCase st.(secondaryHexInput) in
  if negb (test_hex primaryHex) || negb (test_hex secondaryHex) then
    Some (render Waiting [] None st)
  else
    let palette := generatePalette primaryHex secondaryHex in
    let html := map cell palette in
    let cssVariables :=
      (":root {" ++ nl ++ String.concat "" (map css_line palette) ++ "}")%string in
    match find_hex "Primary" palette, find_hex "Neutral" palette with
    | Some primaryText, Some neutralBg =>
        let ratio := getContrastRatio Math_pow primaryText neutralBg in
        let isPassing := 4.5 <=? ratio in
        Some (render (RatioLine ratio isPassing) html (Some cssVariables) st)
    | _, _ => None
    end.

(** [applyMood(moodKey, announce)]. *)
Definition applyMood (moodKey : string) (announce : bool) (st : page) : option page :=
  let mood := resolveMood moodKey in
  let st := set_currentMood (resolveKey moodKey) st in
  let st := syncColorInputs "primary" (ToString (field primary mood)) st in
  let st := syncColorInputs "secondary" (ToString (field secondary mood)) st in
  match updateUI st with
  | None => None
  | Some st =>
      let st := setActiveMoodButton st.(currentMood) st in
      let st :=
        set_moodIndicator
          (ToString (field emoji mood) ++ " " ++ ToString (field label mood))%string st in
      Some (if announce
            then showToast (ToString (field label mood) ++ " mood applied")%string st
            else st)
  end.

End Page.

(** ** The listeners *)

(** The four inputs the listeners are attached to. *)
Inductive input := primaryColor | secondaryColor | primaryHex | secondaryHex.

(** [e.target.id]: the ids the elements were looked up by. *)
Definition id (e : input) : string :=
  match e with
  | primaryColor => "primary-color"
  | secondaryColor => "secondary-color"
  | primaryHex => "primary-hex"
  | secondaryHex => "secondary-hex"
  end.

(** [e.value]. *)
Definition value_of (e : input) (st : page) : string :=
  match e with
  | primaryColor => st.(primaryColorInput)
  | secondaryColor => st.(secondaryColorInput)
  | primaryHex => st.(primaryHexInput)
  | secondaryHex => st.(secondaryHexInput)
  end.

(** [e.value = v]. *)
Definition set_value (e : input) (v : string) (st : page) : page :=
  {| primaryHexInput := match e with primaryHex => v | _ => st.(primaryHexInput) end;
     secondaryHexInput := match e with secondaryHex => v | _ => st.(secondaryHexInput) end;
     primaryColorInput := match e with primaryColor => v | _ => st.(primaryColorInput) end;
     secondaryColorInput :=
       match e with secondaryColor => v | _ => st.(secondaryColorInput) end;
     contrastResult := st.(contrastResult); paletteDisplay := st.(paletteDisplay);
     css := st.(css); currentMood := st.(currentMood); pressed := st.(pressed);
     moodIndicator := st.(moodIndicator); toast := st.(toast) |}.

(** [s.includes(sub)]. *)
Fixpoint includes (s sub : string) : bool :=
  String.prefix sub s ||
  match s with
  | EmptyString => false
  | String _ t => includes t sub
  end.

(** [navigator.clipboard]: missing, without [writeText], or with a
    [writeText] whose promise is fulfilled ([true]) or rejected for the text
    it is given. *)
Inductive clipboard :=
  | NoClipboard
  | NoWriteText
  | WriteText (fulfilled : string -> bool).

Section Listeners.

Variable Math_pow : float -> float -> float.

(** The [input] listener of the two colour pickers, run on the picker
    [target]. *)
Definition onColorInput (target : input) (st : page) : option page :=
  let targetHexInput := if includes (id target) "primary" then primaryHex else secondaryHex in
  let st := set_value targetHexInput (value_of target st) st in
  updateUI Math_pow st.

(** The [input] listener of the two hex fields, run on the field [target]. *)
Definition onHexInput (target : input) (st : page) : option page :=
  let targetColorInput :=
    if includes (id target) "primary" then primaryColor else secondaryColor in
  if test_hex (JS.toLowerCase (value_of target st)) then
    let st := set_value targetColorInput (value_of target st) st in
    updateUI Math_pow st
  else Some st.

(** The [click] listener of a button whose [data-randomize] is [target];
    [u1] to [u4] are the results of the four calls of [Math.random]. *)
Definition onRandomize (target : string) (u1 u2 u3 u4 : float) (st : page) : option page :=
  let referenceHex :=
    if String.eqb target "primary" then st.(secondaryHexInput) else st.(primaryHexInput) in
  let validRef := test_hex (JS.toLowerCase referenceHex) in
  let paletteFallback := or_else (get st.(currentMood)) (get DEFAULT_MOOD) in
  let fallbackHex :=
    field (if String.eqb target "primary" then primary else secondary) paletteFallback in
  let nextHex :=
    if validRef then generateVariantFromHex (JS.toLowerCase referenceHex) u1 u2 u3 u4
    else ToString fallbackHex in
  let st := syncColorInputs target nextHex st in
  match updateUI Math_pow st with
  | None => None
  | Some st => Some (showToast ("Linked " ++ target ++ " hue")%string st)
  end.

(** The [click] listener of a button whose [data-mood] is [data_mood]; the
    empty string is falsy. *)
Definition onMood (data_mood : string) (st : page) : option page :=
  let moodKey := if String.eqb data_mood "" then DEFAULT_MOOD else data_mood in
  applyMood Math_pow moodKey true st.

(** The [click] listener of [copyCssBtn], with the page after the promise
    settled and the text [writeText] was called with, if it was called. *)
Definition onCopy (nav : clipboard) (st : page) : page * option string :=
  match st.(css), nav with
  | Some c, WriteText fulfilled =>
      if String.eqb c "" then (showToast "Clipboard unavailable." st, None)
      else if fulfilled c then (showToast "CSS variables copied to clipboard!" st, Some c)
      else (showToast "Failed to copy." st, Some c)
  | _, _ => (showToast "Clipboard unavailable." st, None)
  end%string.

(** The last statement of the script: [applyMood(DEFAULT_MOOD, false)]. *)
Definition init (st : page) : option page := applyMood Math_pow DEFAULT_MOOD false st.

End Listeners.

(** What happens on the page: the user edits one of the four inputs, which
    sets its value and runs its listener, or clicks one of the buttons. *)
Inductive event :=
  | Pick (target : input) (v : string)
  | Randomize (target : string) (u1 u2 u3 u4 : float)
  | Mood (data_mood : string)
  | Copy (nav : clipboard).

Definition is_color (e : input) : bool :=
  match e with primaryColor | secondaryColor => true | _ => false end.

Definition handle (Math_pow : float -> float -> float) (ev : event) (st : page) : option page :=
  match ev with
  | Pick target v =>
      let st := set_value target v st in
      if is_color target then onColorInput Math_pow target st
      else onHexInput Math_pow target st
  | Randomize target u1 u2 u3 u4 => onRandomize Math_pow target u1 u2 u3 u4 st
  | Mood data_mood => onMood Math_pow data_mood st
  | Copy nav => Some (fst (onCopy nav st))
  end.

(** The page after a sequence of events, from the state the script leaves. *)
Fixpoint run (Math_pow : float -> float -> float) (evs : list event) (st : page) : option page :=
  match evs with
  | [] => Some st
  | ev :: evs' =>
      match handle Math_pow ev st with
      | None => None
      | Some st' => run Math_pow evs' st'
      end
  end.


(** * Vocabulary of the properties *)

Local Close Scope string_scope.
Local Close Scope R_scope.
Local Close Scope float_scope.
Local Close Scope Z_scope.
Local Open Scope R_scope.

Definition bpow (e : Z) : R := powerRZ 2 e.

(** Position of a real [x] with respect to an integer [m]. *)
Definition loc_ok (m : Z) (l : location) (x : R) : Prop :=
  match l with
  | loc_Exact => x = IZR m
  | loc_Inexact Lt => IZR m < x < IZR m + / 2
  | loc_Inexact Eq => x = IZR m + / 2
  | loc_Inexact Gt => IZR m + / 2 < x < IZR m + 1
  end.

Definition rec_ok (mrs : shr_record) (x : R) : Prop :=
  (0 <= shr_m mrs)%Z /\ loc_ok (shr_m mrs) (loc_of_shr_record mrs) x.

(** [m] is [x] rounded to the nearest integer, ties to even. *)
Definition rne_ok (x : R) (m : Z) : Prop :=
  IZR m - / 2 <= x <= IZR m + / 2 /\
  (x = IZR m - / 2 \/ x = IZR m + / 2 -> Z.even m = true).

Definition fexp64 (k : Z) : Z := fexp prec emax k.

Inductive rounded (s : bool) (M E : Z) : spec_float -> Prop :=
  | rounded_zero : M = 0%Z -> rounded s M E (S754_zero s)
  | rounded_finite m e :
      (0 < M)%Z -> valid_binary (S754_finite s m e) = true ->
      IZR (Zpos m) * bpow e = IZR M * bpow E ->
      rounded s M E (S754_finite s m e)
  | rounded_inf :
      (0 < M)%Z -> bpow 1024 <= IZR M * bpow E -> rounded s M E (S754_infinity s).

Definition huge : R := bpow 1024.

(** [E] is the exponent of the grid on which the positive real [v] is
    rounded: the subnormal grid, or the one of the binade of [v]. *)
Definition grid_ok (v : R) (E : Z) : Prop :=
  (E = (-1074)%Z /\ v < bpow (-1021)) \/
  ((-1074 < E)%Z /\ bpow (E + 52) <= v < bpow (E + 53)).

(** [r] is the value to which the positive real [v] rounds: the nearest
    multiple of [2^E], ties to even, or [huge] on overflow. *)
Definition RNDpos (v r : R) : Prop :=
  exists E M, grid_ok v E /\ rne_ok (v / bpow E) M /\
              r = Rmin (IZR M * bpow E) huge.

(** Rounding of a real of either sign. *)
Definition RND (v r : R) : Prop :=
  (v = 0 /\ r = 0) \/ (0 < v /\ RNDpos v r) \/ (v < 0 /\ RNDpos (- v) (- r)).

Definition sgn (s : bool) (r : R) : R := if s then - r else r.

(** The value of a number, with [huge] standing for the infinities. *)
Definition SFX (x : spec_float) : R :=
  match x with
  | S754_finite s m e => sgn s (IZR (Zpos m) * bpow e)
  | S754_infinity s => sgn s huge
  | _ => 0
  end.

Definition SFnan (x : spec_float) : bool :=
  match x with S754_nan => true | _ => false end.

Definition SFfin (x : spec_float) : bool :=
  match x with S754_zero _ | S754_finite _ _ _ => true | _ => false end.

Definition cmp_ok (c : comparison) (a b : R) : Prop :=
  match c with Lt => a < b | Eq => a = b | Gt => b < a end.

(** The value of a number as a real ([huge] for the infinities). *)
Definition FX (x : float) : R := SFX (Prim2SF x).
Definition fin (x : float) : bool := SFfin (Prim2SF x).
Definition nan (x : float) : bool := SFnan (Prim2SF x).

(** [x] lies between the finite numbers [lo] and [hi]. *)
Definition within (lo hi x : float) : Prop :=
  fin lo = true /\ fin hi = true /\
  (lo <=? x)%float = true /\ (x <=? hi)%float = true.

(** The largest finite number. *)
Definition max_value : float := 0x1.fffffffffffffp+1023%float.

Local Close Scope string_scope.
Local Close Scope R_scope.
Local Close Scope float_scope.
Local Close Scope Z_scope.
Local Open Scope float_scope.

(** [n] consecutive integers from [lo]. *)
Definition zrange (lo : Z) (n : nat) : list Z :=
  map (fun i => (lo + Z.of_nat i)%Z) (seq 0 n).

(** A channel byte as [hexToHsl] scales it: [r / 255]. *)
Definition unit (c : Z) : float := JS.of_Z c / 255.

(** What [hexToHsl] relies on for two channel bytes: their scaled values
    compare as the bytes do, and a step of [Math.max] or [Math.min] picks the
    scaled value of the larger or smaller byte. *)
Definition unit_pair_ok (i j : Z) : bool :=
  PrimFloat.Leibniz.eqb (JS.max_step (unit i) (unit j)) (unit (Z.max i j)) &&
  PrimFloat.Leibniz.eqb (JS.min_step (unit i) (unit j)) (unit (Z.min i j)) &&
  Bool.eqb (unit i <? unit j) (i <? j)%Z &&
  Bool.eqb (unit i =? unit j) (i =? j)%Z &&
  Bool.eqb (unit i <=? unit j) (i <=? j)%Z &&
  (0 <=? unit i) && (unit i <=? 1).

Definition byte (c : Z) : Prop := (0 <= c <= 255)%Z.

(** What [hexToHsl] relies on for the largest byte [M] and the smallest byte
    [m] of a colour that is not a grey: the spread [d] is positive, the
    quotients by [d] stay between -1 and 1, and the saturation lies between 0
    and 1. *)
Definition between (lo hi x : float) : bool := (lo <=? x) && (x <=? hi).

Definition spread_ok (M m : Z) : bool :=
  if (m <? M)%Z then
    let d := unit M - unit m in
    let l0 := (unit M + unit m) / 2 in
    let s0 := if 0.5 <? l0 then d / (2 - unit M - unit m) else d / (unit M + unit m) in
    (0 <? d) && between 0 1 d && between (-1) 0 (unit m - unit M) &&
    between (-1) 0 ((unit m - unit M) / d) && between 0 1 (d / d) &&
    between 0 0 (0 / d) && between 0 1 s0
  else true.

(** [n] is the integer nearest to the value of [y], the upper one of two
    equally near. *)
Definition nearest (n : Z) (y : float) : Prop :=
  (IZR n <= FX y + / 2 < IZR n + 1)%R.

(** [Math.round(y)] is an integer between [lo] and [hi], the one nearest to [y]. *)
Definition rounds_to (y : float) (lo hi : Z) : Prop :=
  exists n, (lo <= n <= hi)%Z /\ (JS.Math_round y =? JS.of_Z n) = true /\ nearest n y.

Ltac fin_closed := vm_compute; reflexivity.

(** Cuts of the unit interval into a thousand cells. *)
Definition cut (i : Z) : float := JS.of_Z i / 1000.

(** What [hslToHex] relies on for a lightness [l / 100] in the cell from
    [cut i] to [cut (i + 1)]: the amplitude [a] is at most [ahi], and 255
    times the colour stays between -0.5 and 255.375, whatever the saturation
    and the position on the wheel. *)
Definition cell_ok (i : Z) : bool :=
  let lo := cut i in
  let hi := cut (i + 1) in
  let mhi := if hi <? 1 - lo then hi else 1 - lo in
  let ahi := 100 * mhi / 100 in
  between 0 1 lo && between 0 1 hi && between 0 1 (1 - hi) && between 0 1 (1 - lo) &&
  between 0 1 mhi && between 0 100 (100 * mhi) && between 0 1 ahi &&
  between (-1) 2 (lo - ahi) && between (-1) 2 (hi - - ahi) &&
  between (-0.5) 255.375 (255 * (lo - ahi)) &&
  between (-0.5) 255.375 (255 * (hi - - ahi)).

(** Two lowercase hexadecimal digits for a byte. *)
Definition hex2 (n : Z) : string :=
  String (JS.hex_digit (n / 16)) (String (JS.hex_digit (n mod 16)) EmptyString).

Definition byte_hex_ok (n : Z) : bool :=
  String.eqb (JS.padStart (JS.toString16 (JS.of_Z n)) 2 "0") (hex2 n).

(** The largest number below 1. *)
Definition below_1 : float := 0x1.fffffffffffffp-1.

(** A result of [Math.random()]: at least 0, below 1. *)
Definition draw (u : float) : Prop := (0 <=? u) = true /\ (u <? 1) = true.

(** [x] is the integer [n]. *)
Definition integer (x : float) (n : Z) : Prop := FX x = IZR n /\ fin x = true.

(** The checks behind [randomInRange(min, max)] returning an integer between
    [lo] and [hi]: the width [max - min + 1] and the products of its ends
    with the width are small, and the floors of the two ends, moved by [min],
    stay between [lo] and [hi]. *)
Definition range_ok (min max : float) (lo hi : Z) : bool :=
  let w := max - min + 1 in
  between 0 (JS.of_Z 1000) w &&
  between 0 (JS.of_Z 1000) (0 * w) && between 0 (JS.of_Z 1000) (below_1 * w) &&
  between 0 (JS.of_Z 1000) (JS.Math_floor (0 * w)) &&
  between 0 (JS.of_Z 1000) (JS.Math_floor (below_1 * w)) &&
  between (JS.of_Z lo) (JS.of_Z hi) (JS.Math_floor (0 * w) + min) &&
  between (JS.of_Z lo) (JS.of_Z hi) (JS.Math_floor (below_1 * w) + min).

(** [f] maps the numbers from 0 to 1 to numbers from 0 to 1. *)
Definition unit_range (f : float -> float) : Prop :=
  forall x, (0 <=? x) = true -> (x <=? 1) = true ->
            (0 <=? f x) = true /\ (f x <=? 1) = true.

(** The quotient of [getContrastRatio], before rounding. *)
Definition quotient (l1 l2 : float) : float :=
  (JS.Math_max [l1; l2] + 0.05) / (JS.Math_min [l1; l2] + 0.05).

(** [hslToHex] applied to the three components of [hexToHsl(H)]. *)
Definition roundTrip (H : string) : string :=
  let c := hexToHsl H in hslToHex c.(h) c.(s) c.(l).

(** The components of [hexToHsl] for a colour that is not a grey, from its
    largest byte [M], its smallest byte [m] and the two bytes [p] and [q]
    and the offset [c] of its sextant. *)
Definition lightness_of (M m : Z) : float :=
  JS.Math_round ((unit M + unit m) / 2 * 100).

Definition saturation_of (M m : Z) : float :=
  JS.Math_round
    ((if 0.5 <? (unit M + unit m) / 2
      then (unit M - unit m) / (2 - unit M - unit m)
      else (unit M - unit m) / (unit M + unit m)) * 100).

Definition raw_hue (p q : Z) (c : float) (M m : Z) : float :=
  ((unit p - unit q) / (unit M - unit m) + c) / 6 * 360.

(** The sextant of a colour: the two bytes whose difference gives the hue,
    and the offset, as integers. *)
Definition sextant (cr cg cb : Z) : Z * Z * Z :=
  let M := Z.max (Z.max cr cg) cb in
  if (M =? cr)%Z then (cg, cb, if (cg <? cb)%Z then 6 else 0)%Z
  else if (M =? cg)%Z then (cb, cr, 2%Z)
  else (cr, cg, 4%Z).

Local Close Scope string_scope.
Local Close Scope R_scope.
Local Close Scope float_scope.
Local Close Scope Z_scope.
Local Open Scope float_scope.
Local Open Scope R_scope.
Local Open Scope Z_scope.

(** Thirty times the factor [Math.max(Math.min(k - 3, 9 - k, 1), -1)] of
    [hslToHex] for an integer hue [H] and the offset [n] of a channel. *)
Definition tau (H n : Z) : Z :=
  let K := (30 * n + H) mod 360 in
  Z.max (Z.min (Z.min (K - 90) (270 - K)) 30) (-30).

Local Close Scope string_scope.
Local Close Scope R_scope.
Local Close Scope float_scope.
Local Close Scope Z_scope.
Local Open Scope float_scope.

(** The factor [Math.max(Math.min(k - 3, 9 - k, 1), -1)] of a channel in
    [hslToHex]. *)
Definition factor (h n : float) : float :=
  let k := JS.rem (n + h / 30) 12 in
  JS.Math_max [JS.Math_min [k - 3; 9 - k; 1]; -1].

(** The factor of an integer hue [h], for the three channels, is a thirtieth
    of [tau] up to [2^-40]. *)
Definition factor_near (h : float) (H n : Z) : bool :=
  let c := JS.of_Z (tau H n) / 30 in
  between (c - 0x1p-40) (c + 0x1p-40) (factor h (JS.of_Z n)).

Definition factor_ok (H : Z) : bool :=
  factor_near (JS.of_Z H) H 0 && factor_near (JS.of_Z H) H 8 &&
  factor_near (JS.of_Z H) H 4.

(** 255 times the colour of a channel, from the lightness [l], the amplitude
    [a] and the factor [T]. *)
Definition corner (l a T : float) : float := 255 * (l - a * T).

(** A bound on the error of the factor that comes from rounding the hue. *)
Definition rho : float := 0x1.2p-6.

(** What the round trip relies on for the largest byte [M] and the smallest
    byte [m] of a colour that is not a grey: with the factor moved by [rho]
    around 1 and around -1, the channel stays within 5.25 of [m] and of [M]. *)
Definition pair_ok (M m : Z) : bool :=
  if (m <? M)%Z then
    let l := lightness_of M m / 100 in
    let a := saturation_of M m * JS.Math_min [l; 1 - l] / 100 in
    between 0 1 l && between 0 1 a &&
    (JS.of_Z m - 5.25 <=? corner l a (1 + rho)) &&
    (corner l a (1 - rho) <=? JS.of_Z m + 5.25) &&
    (JS.of_Z M - 5.25 <=? corner l a (-1 + rho)) &&
    (corner l a (-1 - rho) <=? JS.of_Z M + 5.25)
  else true.

(** The round trip of a grey moves its byte by at most 1. *)
Definition grey_near (v : Z) : bool :=
  let t := rgbToHsl {| r := v; g := v; b := v |} in
  forallb
    (fun n => existsb (fun w => hslChannel t.(h) t.(s) t.(l) (JS.of_Z n) =? JS.of_Z w)
                [v - 1; v; v + 1]%Z)
    [0; 8; 4]%Z.

(** 255 times the colour of a channel of [hslToHex] whose factor is [t]. *)
Definition extreme (s l t : float) : float :=
  255 * (l / 100 - s * JS.Math_min [l / 100; 1 - l / 100] / 100 * t).

(** The bytes of the channels of factor -1 and of factor 1 for the integer
    saturation and lightness [S0] and [L]. *)
Definition top (S0 L : Z) : Z :=
  JS.truncate (JS.Math_round (extreme (JS.of_Z S0) (JS.of_Z L) (-1))).

Definition bottom (S0 L : Z) : Z :=
  JS.truncate (JS.Math_round (extreme (JS.of_Z S0) (JS.of_Z L) 1)).

(** What decoding relies on for the integer saturation [S0] and lightness
    [L] that are encoded: [top] and [bottom] are the two bytes, the lightness
    they decode to is [L], and for the saturations and lightnesses that
    [generateVariantFromHex] encodes the saturation they decode to is within
    3 of [S0], between 9 and 96. *)
Definition encoded_ok (S0 L : Z) : bool :=
  let s := JS.of_Z S0 in
  let l := JS.of_Z L in
  let a := s * JS.Math_min [l / 100; 1 - l / 100] / 100 in
  let hi := JS.Math_round (extreme s l (-1)) in
  let lo := JS.Math_round (extreme s l 1) in
  let M := JS.truncate hi in
  let m := JS.truncate lo in
  between 0 1 (l / 100) && between 0 1 a &&
  between (-1) 1 (a * 1) && between (-1) 1 (a * -1) &&
  between (-1) 2 (l / 100 - a * 1) && between (-1) 2 (l / 100 - a * -1) &&
  between (-255) 510 (extreme s l 1) && between (-255) 510 (extreme s l (-1)) &&
  (hi =? JS.of_Z M) && (lo =? JS.of_Z m) &&
  (0 <=? m)%Z && (m <=? M)%Z && (M <=? 255)%Z &&
  (lightness_of M m =? JS.of_Z L) &&
  (if (10 <=? S0)%Z && (S0 <=? 95)%Z && (5 <=? L)%Z && (L <=? 95)%Z then
     (m <? M)%Z &&
     between (JS.of_Z (Z.max 9 (S0 - 3))) (JS.of_Z (Z.min 96 (S0 + 3))) (saturation_of M m)
   else true).

(** Of the three channels of a hue, one has the factor 1 and one the factor
    -1. *)
Definition hue_ok (h : float) : bool :=
  let f0 := factor h 0 in
  let f8 := factor h 8 in
  let f4 := factor h 4 in
  ((f0 =? 1) || (f8 =? 1) || (f4 =? 1)) && ((f0 =? -1) || (f8 =? -1) || (f4 =? -1)).

Local Close Scope string_scope.
Local Close Scope R_scope.
Local Close Scope float_scope.
Local Close Scope Z_scope.
Local Open Scope string_scope.

Definition calm : mood :=
  {| label := "Calm Drift";
     emoji := bytes [195; 163; 226; 130; 172; 194; 176; 195; 175; 194; 184; 194; 143]%nat;
     primary := "#5468ff"; secondary := "#bfe0ff" |}.

(** A page whose two hex fields hold the given texts. *)
Definition page_of (primaryText secondaryText : string) : page :=
  {| primaryHexInput := primaryText; secondaryHexInput := secondaryText;
     primaryColorInput := "#000000"; secondaryColorInput := "#000000";
     contrastResult := Waiting; paletteDisplay := []; css := None;
     currentMood := DEFAULT_MOOD; pressed := DEFAULT_MOOD;
     moodIndicator := ""; toast := None |}.

(** The hex of the Neutral entry of [generatePalette P S]. *)
Definition neutral_of (P S : string) : string :=
  hslToHex
    (JS.rem (JS.Math_round (((hexToHsl P).(h) + (hexToHsl S).(h)) / 2)) 360) 5 95.

(** The text [updateUI] stores in [copyCssBtn.dataset.css]. *)
Definition css_of (palette : list entry) : string :=
  ":root {" ++ nl ++ String.concat "" (map css_line palette) ++ "}".

(** A hexadecimal digit in either case. *)
Definition is_hex_digit (c : ascii) : bool :=
  let n := nat_of_ascii c in
  ((48 <=? n) && (n <=? 57) || (97 <=? n) && (n <=? 102)
   || (65 <=? n) && (n <=? 70))%nat.

(** The shape [#] and six hexadecimal digits, in either case. *)
Definition hex_shape (s : string) : bool :=
  match s with
  | String c0 (String c1 (String c2 (String c3 (String c4 (String c5
      (String c6 EmptyString)))))) =>
      Ascii.eqb c0 "#" && forallb is_hex_digit [c1; c2; c3; c4; c5; c6]
  | _ => false
  end.

(** The page after the script ran on [st0] and the events [evs] happened. *)
Definition session (Math_pow : float -> float -> float) (evs : list event) (st0 : page) :
    option page :=
  match init Math_pow st0 with
  | None => None
  | Some st => run Math_pow evs st
  end.

(** A hex field that holds a colour agrees with the picker beside it. *)
Definition linked (st : page) : bool :=
  implb (hex_shape st.(primaryHexInput))
        (String.eqb st.(primaryColorInput) st.(primaryHexInput)) &&
  implb (hex_shape st.(secondaryHexInput))
        (String.eqb st.(secondaryColorInput) st.(secondaryHexInput)).

(** What [updateUI] last wrote for the colours [P] and [S]. *)
Definition rendered (Math_pow : float -> float -> float) (P S : string) (st : page) : Prop :=
  st.(paletteDisplay) = map cell (generatePalette P S) /\
  st.(contrastResult) =
    (let ratio := getContrastRatio Math_pow P (neutral_of P S) in
     RatioLine ratio (PrimFloat.leb 4.5 ratio)).

(** The stored CSS is that of a palette of two colours, and the swatches on
    display, if any, are those of the same palette. *)
Definition shown (Math_pow : float -> float -> float) (st : page) : Prop :=
  exists P S,
    test_hex P = true /\ test_hex S = true /\
    st.(css) = Some (css_of (generatePalette P S)) /\
    ((st.(paletteDisplay) = [] /\ st.(contrastResult) = Waiting) \/
     rendered Math_pow P S st).

(** The display is the one [updateUI] computes from the fields. *)
Definition fresh (Math_pow : float -> float -> float) (st : page) : Prop :=
  updateUI Math_pow st = Some st.


(** * Properties *)

(** ** Powers of two, locations and rounding to nearest even *)

Local Close Scope string_scope.
Local Close Scope R_scope.
Local Close Scope float_scope.
Local Close Scope Z_scope.
Local Open Scope R_scope.

Lemma bpow_gt_0 e : 0 < bpow e.
Proof. apply powerRZ_lt; lra. Qed.

Lemma bpow_add a b : bpow (a + b) = bpow a * bpow b.
Proof. apply powerRZ_add; lra. Qed.

Lemma bpow_0 : bpow 0 = 1.
Proof. reflexivity. Qed.

Lemma bpow_1 : bpow 1 = 2.
Proof. unfold bpow; simpl; lra. Qed.

Lemma bpow_opp e : bpow (- e) = / bpow e.
Proof.
  assert (H := bpow_add e (- e)). rewrite Z.add_opp_diag_r, bpow_0 in H.
  assert (H0 := bpow_gt_0 e). apply Rmult_eq_reg_l with (bpow e); [|lra].
  rewrite Rinv_r by lra. lra.
Qed.

Lemma bpow_succ e : bpow (e + 1) = 2 * bpow e.
Proof. rewrite bpow_add, bpow_1; lra. Qed.

Lemma bpow_IZR n : (0 <= n)%Z -> bpow n = IZR (2 ^ n).
Proof.
  intros H. unfold bpow. destruct n as [|p|p]; [reflexivity| |lia].
  change (powerRZ 2 (Z.pos p)) with (2 ^ Pos.to_nat p).
  rewrite <- (positive_nat_Z p), <- pow_IZR. reflexivity.
Qed.

Lemma bpow_ge_1 n : (0 <= n)%Z -> 1 <= bpow n.
Proof.
  intros H. rewrite bpow_IZR by assumption. apply IZR_le.
  assert (0 < 2 ^ n)%Z by (apply Z.pow_pos_nonneg; lia). lia.
Qed.

Lemma bpow_le a b : (a <= b)%Z -> bpow a <= bpow b.
Proof.
  intros H. replace b with (a + (b - a))%Z by lia. rewrite bpow_add.
  assert (H1 := bpow_ge_1 (b - a) ltac:(lia)). assert (H0 := bpow_gt_0 a). nra.
Qed.

Lemma bpow_lt a b : (a < b)%Z -> bpow a < bpow b.
Proof.
  intros H. replace b with ((b - 1) + 1)%Z by lia. rewrite bpow_succ.
  assert (bpow a <= bpow (b - 1)) by (apply bpow_le; lia).
  assert (0 < bpow (b - 1)) by apply bpow_gt_0. lra.
Qed.

(** Digits *)
Lemma digits2_pos_bounds p :
  (2 ^ (Zpos (digits2_pos p) - 1) <= Zpos p < 2 ^ Zpos (digits2_pos p))%Z.
Proof.
  induction p as [p IH|p IH|]; simpl digits2_pos.
  - rewrite Pos2Z.inj_succ. replace (Z.succ (Z.pos (digits2_pos p)) - 1)%Z
      with (Z.succ (Z.pos (digits2_pos p) - 1)) by lia.
    rewrite !Z.pow_succ_r by lia. lia.
  - rewrite Pos2Z.inj_succ. replace (Z.succ (Z.pos (digits2_pos p)) - 1)%Z
      with (Z.succ (Z.pos (digits2_pos p) - 1)) by lia.
    rewrite !Z.pow_succ_r by lia. lia.
  - simpl. lia.
Qed.

Lemma digits2_bpow p :
  bpow (Zpos (digits2_pos p) - 1) <= IZR (Zpos p) < bpow (Zpos (digits2_pos p)).
Proof.
  destruct (digits2_pos_bounds p) as [H1 H2].
  rewrite !bpow_IZR by lia. split; [apply IZR_le|apply IZR_lt]; assumption.
Qed.

Lemma rec_ok_of_loc m l x :
  (0 <= m)%Z -> loc_ok m l x -> rec_ok (shr_record_of_loc m l) x.
Proof.
  intros Hm H. split; destruct l as [|[| |]]; simpl; auto.
Qed.

Lemma loc_of_record_of_loc m l :
  loc_of_shr_record (shr_record_of_loc m l) = l /\ shr_m (shr_record_of_loc m l) = m.
Proof. destruct l as [|[| |]]; simpl; auto. Qed.

Lemma shr_1_ok mrs x : rec_ok mrs x -> rec_ok (shr_1 mrs) (x / 2).
Proof.
  destruct mrs as [m r s]. unfold rec_ok. simpl shr_m. intros [Hm H].
  destruct m as [|p|p]; [| |lia].
  - destruct r, s; simpl in *; split; try lia; lra.
  - destruct p as [p|p|]; simpl shr_1.
    + assert (E : IZR (Z.pos p~1) = 2 * IZR (Z.pos p) + 1)
        by (rewrite Pos2Z.inj_xI, plus_IZR, mult_IZR; reflexivity).
      destruct r, s; simpl in *; rewrite E in H; split; try lia; lra.
    + assert (E : IZR (Z.pos p~0) = 2 * IZR (Z.pos p))
        by (rewrite Pos2Z.inj_xO, mult_IZR; reflexivity).
      destruct r, s; simpl in *; rewrite E in H; split; try lia; lra.
    + destruct r, s; simpl in *; split; try lia; lra.
Qed.

Lemma iter_shr_ok p : forall mrs x,
  rec_ok mrs x -> rec_ok (SpecFloat.iter_pos shr_1 p mrs) (x / bpow (Zpos p)).
Proof.
  induction p as [p IH|p IH|]; intros mrs x H; simpl SpecFloat.iter_pos.
  - replace (x / bpow (Z.pos p~1)) with (x / 2 / bpow (Z.pos p) / bpow (Z.pos p)).
    + apply IH, IH, shr_1_ok, H.
    + rewrite Pos2Z.inj_xI. replace (2 * Z.pos p + 1)%Z with (Z.pos p + Z.pos p + 1)%Z by lia.
      rewrite !bpow_add, bpow_1. assert (H0 := bpow_gt_0 (Z.pos p)). field. lra.
  - replace (x / bpow (Z.pos p~0)) with (x / bpow (Z.pos p) / bpow (Z.pos p)).
    + apply IH, IH, H.
    + rewrite Pos2Z.inj_xO. replace (2 * Z.pos p)%Z with (Z.pos p + Z.pos p)%Z by lia.
      rewrite !bpow_add. assert (H0 := bpow_gt_0 (Z.pos p)). field. lra.
  - rewrite bpow_1. apply shr_1_ok, H.
Qed.

Lemma rne_of_loc m l x :
  loc_ok m l x -> rne_ok x (round_nearest_even m l).
Proof.
  intros H. unfold rne_ok. destruct l as [|[| |]]; simpl in *.
  - subst. split; [lra|]. intros [E|E]; lra.
  - destruct (Z.even m) eqn:Ev.
    + split; [lra|]. intros _; assumption.
    + rewrite plus_IZR. split; [lra|]. intros _.
      rewrite Z.even_add, Ev. reflexivity.
  - split; [lra|]. intros [E|E]; lra.
  - rewrite plus_IZR. split; [lra|]. intros [E|E]; lra.
Qed.

Lemma rne_mono x1 x2 m1 m2 :
  rne_ok x1 m1 -> rne_ok x2 m2 -> x1 <= x2 -> (m1 <= m2)%Z.
Proof.
  intros [B1 T1] [B2 T2] H.
  destruct (Z_le_gt_dec m1 m2) as [|G]; [assumption|exfalso].
  assert (G' : IZR m2 + 1 <= IZR m1) by (rewrite <- plus_IZR; apply IZR_le; lia).
  assert (E1 : x1 = IZR m1 - / 2) by lra.
  assert (E2 : x2 = IZR m2 + / 2) by lra.
  assert (m1 = m2 + 1)%Z.
  { apply eq_IZR. rewrite plus_IZR. lra. }
  specialize (T1 (or_introl E1)). specialize (T2 (or_intror E2)).
  subst m1. rewrite Z.even_add, T2 in T1. discriminate.
Qed.

Lemma rne_IZR k m : rne_ok (IZR k) m -> m = k.
Proof.
  intros [[B1 B2] _].
  assert (IZR m - 1 < IZR k) by lra. assert (IZR k < IZR m + 1) by lra.
  rewrite <- minus_IZR in H. rewrite <- plus_IZR in H0.
  apply lt_IZR in H, H0. lia.
Qed.

Lemma rne_nonneg x m : 0 <= x -> rne_ok x m -> (0 <= m)%Z.
Proof.
  intros Hx [[B1 B2] _]. assert (IZR (-1) < IZR m) by (simpl; lra).
  apply lt_IZR in H. lia.
Qed.

Lemma rne_le_IZR x m k : x <= IZR k -> rne_ok x m -> (m <= k)%Z.
Proof.
  intros Hx [[B1 B2] _]. assert (IZR m < IZR (k + 1)) by (rewrite plus_IZR; lra).
  apply lt_IZR in H. lia.
Qed.

Lemma rne_ge_IZR x m k : IZR k <= x -> rne_ok x m -> (k <= m)%Z.
Proof.
  intros Hx [[B1 B2] _]. assert (IZR (k - 1) < IZR m) by (rewrite minus_IZR; lra).
  apply lt_IZR in H. lia.
Qed.

Lemma fexp64_eq k : fexp64 k = Z.max (k - 53) (-1074).
Proof. reflexivity. Qed.

Lemma shr_ok mrs e n x :
  rec_ok mrs x -> (0 <= n)%Z ->
  snd (shr mrs e n) = (e + n)%Z /\ rec_ok (fst (shr mrs e n)) (x / bpow n).
Proof.
  intros H Hn. destruct n as [|p|p]; [| |lia]; cbn [shr fst snd].
  - split; [lia|]. rewrite bpow_0. replace (x / 1) with x by field. assumption.
  - split; [reflexivity|]. apply iter_shr_ok, H.
Qed.

Lemma Zdigits2_bounds m :
  (0 < m)%Z -> (2 ^ (Zdigits2 m - 1) <= m < 2 ^ Zdigits2 m)%Z.
Proof.
  destruct m as [|p|p]; try lia. intros _. apply digits2_pos_bounds.
Qed.

Lemma Zdigits2_pos m : (0 < m)%Z -> (0 < Zdigits2 m)%Z.
Proof. destruct m; simpl; lia. Qed.

Lemma Zdigits2_unique m d :
  (2 ^ (d - 1) <= m < 2 ^ d)%Z -> (0 < d)%Z -> Zdigits2 m = d.
Proof.
  intros [H1 H2] Hd.
  assert (Hm : (0 < m)%Z).
  { assert (0 < 2 ^ (d - 1))%Z by (apply Z.pow_pos_nonneg; lia). lia. }
  destruct (Zdigits2_bounds m Hm) as [B1 B2]. assert (P := Zdigits2_pos m Hm).
  destruct (Z.lt_trichotomy (Zdigits2 m) d) as [L|[L|L]]; [exfalso| assumption |exfalso].
  - assert (2 ^ Zdigits2 m <= 2 ^ (d - 1))%Z by (apply Z.pow_le_mono_r; lia). lia.
  - assert (2 ^ d <= 2 ^ (Zdigits2 m - 1))%Z by (apply Z.pow_le_mono_r; lia). lia.
Qed.

(** ** The rounding step of the binary64 operations *)

Lemma loc_ok_bounds m l x : loc_ok m l x -> IZR m <= x < IZR m + 1.
Proof. destruct l as [|[| |]]; simpl; intros; lra. Qed.

Lemma fexp64_ge k : (-1074 <= fexp64 k)%Z.
Proof. rewrite fexp64_eq. lia. Qed.

Lemma valid_finite s m e :
  valid_binary (S754_finite s m e) = true <->
  (fexp64 (Zpos (digits2_pos m) + e) = e /\ e <= 971)%Z.
Proof.
  cbv [SpecFloat.valid_binary SpecFloat.bounded SpecFloat.canonical_mantissa].
  change (fexp prec emax (Z.pos (digits2_pos m) + e)) with (fexp64 (Z.pos (digits2_pos m) + e)).
  change (Z.sub emax prec) with 971%Z.
  rewrite andb_true_iff, Z.eqb_eq, Z.leb_le. reflexivity.
Qed.

Lemma round_aux_pos s m e l x :
  (0 <= m)%Z -> loc_ok m l x -> 0 < x ->
  (e <= fexp64 (Zdigits2 m + e))%Z ->
  (m = 0%Z -> fexp64 (Zdigits2 m + e) = (-1074)%Z) ->
  exists M,
    rne_ok (x * bpow e / bpow (fexp64 (Zdigits2 m + e))) M /\
    rounded s M (fexp64 (Zdigits2 m + e)) (binary_round_aux prec emax s m e l).
Proof.
  intros Hm0 Hloc Hxpos Hn Hlow.
  set (d := Zdigits2 m) in *.
  set (E := fexp64 (d + e)) in *.
  assert (HE : E = Z.max (d + e - 53) (-1074)) by apply fexp64_eq.
  destruct (loc_ok_bounds _ _ _ Hloc) as [Hx1 Hx2].
  assert (Hd0 : (0 <= d)%Z) by (unfold d; destruct m; simpl; lia).
  assert (Hp1 : (0 < m)%Z -> bpow (d - 1) <= IZR m).
  { intros Hp. destruct (Zdigits2_bounds m Hp) as [B _]. fold d in B.
    assert (0 < d)%Z by (apply Zdigits2_pos; assumption).
    rewrite bpow_IZR by lia. apply IZR_le. lia. }
  assert (Hp3 : IZR m + 1 <= bpow d).
  { rewrite bpow_IZR by lia. rewrite <- plus_IZR. apply IZR_le.
    destruct (Z.eq_dec m 0) as [->|NZ]; [simpl; lia|].
    destruct (Zdigits2_bounds m ltac:(lia)) as [_ B]. fold d in B. lia. }
  unfold binary_round_aux, shr_fexp.
  fold d. change (fexp prec emax (d + e)) with (fexp64 (d + e)). fold E.
  destruct (shr_ok (shr_record_of_loc m l) e (E - e) x) as [He' Hrec].
  { apply rec_ok_of_loc; [lia|assumption]. }
  { lia. }
  destruct (shr (shr_record_of_loc m l) e (E - e)) as [mrs' e'].
  cbn [fst snd] in He', Hrec. replace (e + (E - e))%Z with E in He' by lia. subst e'.
  destruct Hrec as [Hm' Hloc'].
  set (M := round_nearest_even (shr_m mrs') (loc_of_shr_record mrs')).
  assert (HM : rne_ok (x / bpow (E - e)) M) by (apply rne_of_loc, Hloc').
  assert (Hxe : x / bpow (E - e) = x * bpow e / bpow E).
  { replace E with (e + (E - e))%Z at 2 by lia. rewrite bpow_add.
    assert (H1 := bpow_gt_0 e). assert (H2 := bpow_gt_0 (E - e)). field. lra. }
  exists M. split; [rewrite <- Hxe; exact HM|].
  assert (HM0 : (0 <= M)%Z).
  { apply rne_nonneg with (x / bpow (E - e)); [|exact HM].
    assert (H2 := bpow_gt_0 (E - e)). apply Rmult_le_pos; [|left; apply Rinv_0_lt_compat; lra].
    lra. }
  assert (HM53 : (M <= 2 ^ 53)%Z).
  { apply rne_le_IZR with (x / bpow (E - e)); [|exact HM].
    rewrite <- bpow_IZR by lia.
    apply Rle_trans with (bpow d / bpow (E - e)).
    - assert (H2 := bpow_gt_0 (E - e)). apply Rmult_le_compat_r; [left; apply Rinv_0_lt_compat; lra|lra].
    - replace (bpow d / bpow (E - e)) with (bpow (d - (E - e))).
      + apply bpow_le. lia.
      + unfold Zminus at 1. rewrite bpow_add, bpow_opp. reflexivity. }
  assert (HM52 : (-1074 < E)%Z -> (2 ^ 52 <= M)%Z).
  { intros HE1. assert (Hp : (0 < m)%Z).
    { destruct (Z.eq_dec m 0) as [Z0|NZ]; [specialize (Hlow Z0); lia|lia]. }
    specialize (Hp1 Hp).
    apply rne_ge_IZR with (x / bpow (E - e)); [|exact HM].
    rewrite <- bpow_IZR by lia.
    apply Rle_trans with (bpow (d - 1) / bpow (E - e)).
    - replace (bpow (d - 1) / bpow (E - e)) with (bpow (d - 1 - (E - e))).
      + apply bpow_le. lia.
      + unfold Zminus at 1. rewrite bpow_add, bpow_opp. reflexivity.
    - assert (H2 := bpow_gt_0 (E - e)). apply Rmult_le_compat_r; [left; apply Rinv_0_lt_compat; lra|lra]. }
  clearbody M. clear Hloc' Hm' mrs' HM Hxe.
  destruct (Z.eq_dec M 0) as [M0|M0].
  { subst M. cbn [Zdigits2 Z.add].
    replace (fexp prec emax E - E)%Z with (fexp64 E - E)%Z by reflexivity.
    assert (fexp64 E - E <= 0)%Z by (rewrite fexp64_eq; lia).
    destruct (fexp64 E - E)%Z eqn:Hd; try lia; cbn; constructor; reflexivity. }
  assert (HMpos : (0 < M)%Z) by lia.
  destruct (Z.eq_dec M (2 ^ 53)) as [M53|M53].
  { subst M. change (Zdigits2 (2 ^ 53)) with 54%Z.
    replace (fexp prec emax (54 + E) - E)%Z with 1%Z
      by (change (fexp prec emax (54 + E)) with (fexp64 (54 + E)); rewrite fexp64_eq; lia).
    cbn -[Z.add Z.leb bpow]. change (Z.sub emax prec) with 971%Z.
    destruct (Z.leb_spec (E + 1) 971) as [Hle|Hgt].
    - constructor; [lia| |].
      + apply valid_finite. split; [|lia]. cbn [digits2_pos Pos.succ]. rewrite fexp64_eq. lia.
      + rewrite bpow_succ. change (IZR (2 ^ 53)) with (2 * IZR (Z.pos 4503599627370496)). lra.
    - constructor; [lia|].
      replace 1024%Z with (53 + 971)%Z by lia. rewrite bpow_add.
      rewrite (bpow_IZR 53) by lia.
      assert (bpow 971 <= bpow E) by (apply bpow_le; lia).
      assert (0 < IZR (2 ^ 53)) by (apply IZR_lt; lia). nra. }
  assert (Hd2 : (Zdigits2 M <= 53)%Z).
  { destruct (Zdigits2_bounds M HMpos) as [B1 B2].
    destruct (Z_le_gt_dec (Zdigits2 M) 53) as [|G]; [assumption|exfalso].
    assert (2 ^ 53 <= 2 ^ (Zdigits2 M - 1))%Z by (apply Z.pow_le_mono_r; lia). lia. }
  assert (Hd3 : (-1074 < E)%Z -> Zdigits2 M = 53%Z).
  { intros HE1. apply Zdigits2_unique; [|lia]. specialize (HM52 HE1). lia. }
  assert (Hcan : fexp64 (Zdigits2 M + E) = E).
  { rewrite fexp64_eq. destruct (Z.eq_dec E (-1074)) as [->|NE]; [lia|].
    rewrite Hd3 by lia. lia. }
  change (fexp prec emax (Zdigits2 M + E)) with (fexp64 (Zdigits2 M + E)).
  rewrite Hcan, Z.sub_diag. cbn [shr].
  destruct (loc_of_record_of_loc M loc_Exact) as [_ ->].
  destruct M as [|p|p]; try lia.
  change (Z.sub emax prec) with 971%Z.
  destruct (Z.leb_spec E 971) as [Hle|Hgt].
  - constructor; [lia| |reflexivity].
    apply valid_finite. split; [exact Hcan|lia].
  - constructor; [lia|].
    replace 1024%Z with (52 + 972)%Z by lia. rewrite bpow_add.
    rewrite (bpow_IZR 52) by lia.
    assert (bpow 972 <= bpow E) by (apply bpow_le; lia).
    assert (IZR (2 ^ 52) <= IZR (Z.pos p)) by (apply IZR_le, HM52; lia).
    assert (0 < IZR (2 ^ 52)) by (apply IZR_lt; lia).
    assert (0 < bpow 972) by apply bpow_gt_0. nra.
Qed.

(** ** The rounding relation on real numbers *)

Lemma bpow_lt_inv a b : bpow a < bpow b -> (a < b)%Z.
Proof.
  intros H. destruct (Z_lt_le_dec a b) as [|L]; [assumption|exfalso].
  apply bpow_le in L. lra.
Qed.

Lemma grid_ok_lt v E : grid_ok v E -> v < bpow (E + 53).
Proof. intros [[-> H]|[_ H]]; [exact H|lra]. Qed.

Lemma grid_ok_ge v E : grid_ok v E -> (-1074 <= E)%Z.
Proof. intros [[-> H]|[H _]]; lia. Qed.

Lemma grid_ok_le v1 v2 E1 E2 :
  grid_ok v1 E1 -> grid_ok v2 E2 -> v1 <= v2 -> (E1 <= E2)%Z.
Proof.
  intros [[-> H1]|[L1 H1]] [[-> H2]|[L2 H2]] H; try lia.
  - assert (L : bpow (E1 + 52) < bpow (-1021)) by lra. apply bpow_lt_inv in L. lia.
  - assert (L : bpow (E1 + 52) < bpow (E2 + 53)) by lra. apply bpow_lt_inv in L. lia.
Qed.

Lemma grid_ok_unique v E1 E2 : grid_ok v E1 -> grid_ok v E2 -> E1 = E2.
Proof.
  intros H1 H2.
  assert (E1 <= E2)%Z by (apply (grid_ok_le v v); auto; lra).
  assert (E2 <= E1)%Z by (apply (grid_ok_le v v); auto; lra). lia.
Qed.

Lemma RNDpos_nonneg v r : 0 < v -> RNDpos v r -> 0 <= r.
Proof.
  intros Hv (E & M & Hk & HM & ->).
  assert (0 <= M)%Z.
  { apply rne_nonneg with (2 := HM). assert (H := bpow_gt_0 E).
    apply Rmult_le_pos; [lra|left; apply Rinv_0_lt_compat; lra]. }
  assert (H0 := bpow_gt_0 E). assert (H1 := bpow_gt_0 1024).
  apply IZR_le in H. unfold huge. apply Rmin_glb; [nra|lra].
Qed.

Lemma bpow_sub a b : bpow (a - b) = bpow a / bpow b.
Proof. unfold Zminus. rewrite bpow_add, bpow_opp. reflexivity. Qed.

Lemma RNDpos_mono v1 v2 r1 r2 :
  RNDpos v1 r1 -> RNDpos v2 r2 -> v1 <= v2 -> r1 <= r2.
Proof.
  intros (e1 & M1 & Hk1 & HM1 & ->) (e2 & M2 & Hk2 & HM2 & ->) H.
  assert (K := grid_ok_le _ _ _ _ Hk1 Hk2 H).
  assert (P1 := bpow_gt_0 e1). assert (P2 := bpow_gt_0 e2).
  apply Rle_min_compat_r.
  destruct (Z.eq_dec e1 e2) as [Ee|Ne].
  - rewrite <- Ee in *.
    assert (M1 <= M2)%Z.
    { apply rne_mono with (1 := HM1) (2 := HM2).
      apply Rmult_le_compat_r; [left; apply Rinv_0_lt_compat; lra|lra]. }
    apply IZR_le in H0. nra.
  - assert (L : (e1 < e2)%Z) by lia.
    assert (G1 := grid_ok_ge _ _ Hk1). apply grid_ok_lt in Hk1.
    destruct Hk2 as [[-> _]|[_ [B1 B2]]]; [lia|].
    apply Rle_trans with (bpow (e2 + 52)).
    + assert (M1 <= 2 ^ 53)%Z.
      { apply rne_le_IZR with (2 := HM1). rewrite <- bpow_IZR by lia.
        replace 53%Z with (e1 + 53 - e1)%Z by lia.
        rewrite bpow_sub. apply Rmult_le_compat_r; [left; apply Rinv_0_lt_compat; lra|lra]. }
      apply IZR_le in H0. rewrite <- bpow_IZR in H0 by lia.
      apply Rle_trans with (bpow 53 * bpow e1); [nra|].
      rewrite <- bpow_add. apply bpow_le. lia.
    + assert (2 ^ 52 <= M2)%Z.
      { apply rne_ge_IZR with (2 := HM2). rewrite <- bpow_IZR by lia.
        replace 52%Z with (e2 + 52 - e2)%Z by lia.
        rewrite bpow_sub. apply Rmult_le_compat_r; [left; apply Rinv_0_lt_compat; lra|lra]. }
      apply IZR_le in H0. rewrite <- bpow_IZR in H0 by lia.
      replace (e2 + 52)%Z with (52 + e2)%Z by lia. rewrite bpow_add.
      assert (0 < bpow 52) by apply bpow_gt_0. nra.
Qed.

(** A value on its grid rounds to itself. *)
Lemma RNDpos_exact v r E j :
  RNDpos v r -> grid_ok v E -> v = IZR j * bpow E -> v < huge -> r = v.
Proof.
  intros (E' & M & Hk' & HM & ->) Hk Hv Hh.
  rewrite (grid_ok_unique _ _ _ Hk' Hk) in *.
  assert (P := bpow_gt_0 E).
  assert (Eq : v / bpow E = IZR j) by (rewrite Hv; field; lra).
  rewrite Eq in HM. apply rne_IZR in HM. subst M. rewrite <- Hv.
  apply Rmin_left. lra.
Qed.

Lemma RND_mono v1 v2 r1 r2 : RND v1 r1 -> RND v2 r2 -> v1 <= v2 -> r1 <= r2.
Proof.
  intros [[Z1 R1]|[[P1 R1]|[N1 R1]]] [[Z2 R2]|[[P2 R2]|[N2 R2]]] H; try lra.
  - apply RNDpos_nonneg in R2; lra.
  - apply (RNDpos_mono _ _ _ _ R1 R2 H).
  - apply RNDpos_nonneg in R1; lra.
  - apply RNDpos_nonneg in R1; [|lra]. apply RNDpos_nonneg in R2; lra.
  - assert (- r2 <= - r1) by (apply (RNDpos_mono _ _ _ _ R2 R1); lra). lra.
Qed.

Lemma RND_sign_pos v r : 0 <= v -> RND v r -> 0 <= r.
Proof.
  intros Hv [[Z1 R1]|[[P1 R1]|[N1 R1]]]; try lra. apply RNDpos_nonneg in R1; lra.
Qed.

Lemma RND_sign_neg v r : v <= 0 -> RND v r -> r <= 0.
Proof.
  intros Hv [[Z1 R1]|[[P1 R1]|[N1 R1]]]; try lra. apply RNDpos_nonneg in R1; lra.
Qed.

(** ** Values of floating-point data *)

Lemma valid_digits s m e :
  valid_binary (S754_finite s m e) = true -> (Zpos (digits2_pos m) <= 53)%Z.
Proof. intros H. apply valid_finite in H. destruct H as [H _]. rewrite fexp64_eq in H. lia. Qed.

Lemma valid_lt_huge s m e :
  valid_binary (S754_finite s m e) = true -> IZR (Zpos m) * bpow e < huge.
Proof.
  intros H. assert (D := valid_digits _ _ _ H). apply valid_finite in H. destruct H as [_ He].
  destruct (digits2_bpow m) as [_ B].
  assert (bpow (Zpos (digits2_pos m)) <= bpow 53) by (apply bpow_le; lia).
  assert (bpow e <= bpow 971) by (apply bpow_le; lia).
  unfold huge. replace 1024%Z with (53 + 971)%Z by lia. rewrite bpow_add.
  assert (0 < bpow e) by apply bpow_gt_0.
  assert (0 < IZR (Zpos m)) by (apply IZR_lt; lia).
  assert (0 < bpow 53) by apply bpow_gt_0. nra.
Qed.

Lemma rounded_SFX s M E z :
  rounded s M E z ->
  SFX z = sgn s (Rmin (IZR M * bpow E) huge) /\ SFnan z = false /\ valid_binary z = true.
Proof.
  intros [->|m e HM Hv Heq|HM Hh]; cbn [SFX SFnan].
  - repeat split. rewrite Rmult_0_l, Rmin_left by (left; apply bpow_gt_0).
    destruct s; simpl; lra.
  - repeat split; [|assumption]. rewrite <- Heq, Rmin_left; [reflexivity|].
    left. apply valid_lt_huge with s. assumption.
  - repeat split. rewrite Rmin_right by assumption. reflexivity.
Qed.

Lemma round_aux_RND s m e l x :
  (0 <= m)%Z -> loc_ok m l x -> 0 < x ->
  (e <= fexp64 (Zdigits2 m + e))%Z ->
  (m = 0%Z -> (e <= -1074)%Z) ->
  let z := binary_round_aux prec emax s m e l in
  exists r, RNDpos (x * bpow e) r /\ SFX z = sgn s r /\ SFnan z = false /\
            valid_binary z = true.
Proof.
  intros Hm Hloc Hx Hpre Hlow z.
  assert (Hlow' : m = 0%Z -> fexp64 (Zdigits2 m + e) = (-1074)%Z).
  { intros ->. specialize (Hlow eq_refl). rewrite fexp64_eq. simpl Zdigits2. lia. }
  destruct (round_aux_pos s m e l x Hm Hloc Hx Hpre Hlow') as (M & HM & Hr).
  apply rounded_SFX in Hr. destruct Hr as (Hxz & Hn & Hv).
  exists (Rmin (IZR M * bpow (fexp64 (Zdigits2 m + e))) huge).
  split; [|auto].
  exists (fexp64 (Zdigits2 m + e)), M. split; [|split; [assumption|reflexivity]].
  destruct (loc_ok_bounds _ _ _ Hloc) as [Hx1 Hx2].
  assert (P := bpow_gt_0 e).
  destruct (Z.eq_dec m 0) as [Z0|NZ].
  - left. split; [auto|]. subst m. specialize (Hlow eq_refl). simpl in Hx2.
    assert (bpow e <= bpow (-1074)) by (apply bpow_le; lia).
    assert (bpow (-1074) < bpow (-1021)) by (apply bpow_lt; lia). nra.
  - assert (Hp : (0 < m)%Z) by lia.
    destruct (Zdigits2_bounds m Hp) as [B1 B2]. assert (D := Zdigits2_pos m Hp).
    assert (Hp1 : bpow (Zdigits2 m - 1) <= IZR m) by (rewrite bpow_IZR by lia; apply IZR_le; lia).
    assert (Hp3 : IZR m + 1 <= bpow (Zdigits2 m)).
    { rewrite bpow_IZR by lia. rewrite <- plus_IZR. apply IZR_le. lia. }
    assert (V1 : bpow (Zdigits2 m + e - 1) <= x * bpow e).
    { replace (Zdigits2 m + e - 1)%Z with ((Zdigits2 m - 1) + e)%Z by lia. rewrite bpow_add. nra. }
    assert (V2 : x * bpow e < bpow (Zdigits2 m + e)).
    { rewrite bpow_add. nra. }
    assert (HE := fexp64_eq (Zdigits2 m + e)).
    destruct (Z.eq_dec (fexp64 (Zdigits2 m + e)) (-1074)) as [Em|Em].
    + left. split; [assumption|].
      apply Rlt_le_trans with (1 := V2). apply bpow_le. lia.
    + right. split; [lia|].
      replace (fexp64 (Zdigits2 m + e) + 52)%Z with (Zdigits2 m + e - 1)%Z by lia.
      replace (fexp64 (Zdigits2 m + e) + 53)%Z with (Zdigits2 m + e)%Z by lia.
      split; assumption.
Qed.

Lemma iter_xO m d : Zpos (Pos.iter xO m d) = (Zpos m * 2 ^ Zpos d)%Z.
Proof.
  induction d as [|d IH] using Pos.peano_ind.
  - simpl. lia.
  - rewrite Pos.iter_succ, Pos2Z.inj_xO, IH, Pos2Z.inj_succ, Z.pow_succ_r by lia. lia.
Qed.

Lemma shl_align_spec m e e' :
  (e' <= e)%Z ->
  let '(m', e'') := shl_align m e e' in
  e'' = e' /\ Zpos m' = (Zpos m * 2 ^ (e - e'))%Z.
Proof.
  intros H. unfold shl_align. destruct (e' - e)%Z as [|d|d] eqn:Hd; try lia.
  - split; [lia|]. replace (e - e')%Z with 0%Z by lia. lia.
  - split; [reflexivity|]. rewrite iter_xO. f_equal. f_equal. lia.
Qed.

Lemma IZR_bpow_shift m k e : (0 <= k)%Z ->
  IZR (m * 2 ^ k) * bpow (e - k) = IZR m * bpow e.
Proof.
  intros Hk. rewrite mult_IZR, <- bpow_IZR by assumption.
  rewrite bpow_sub. assert (P := bpow_gt_0 k). field. lra.
Qed.

Lemma binary_round_RND s m e :
  let z := binary_round prec emax s m e in
  exists r, RNDpos (IZR (Zpos m) * bpow e) r /\ SFX z = sgn s r /\ SFnan z = false /\
            valid_binary z = true.
Proof.
  intros z. unfold z, binary_round.
  change (fexp prec emax (Z.pos (digits2_pos m) + e)) with (fexp64 (Z.pos (digits2_pos m) + e)).
  set (E := fexp64 (Z.pos (digits2_pos m) + e)).
  unfold shl_align. destruct (E - e)%Z as [|d|d] eqn:Hd.
  - destruct (round_aux_RND s (Zpos m) e loc_Exact (IZR (Zpos m))) as (r & H);
      [lia|reflexivity|apply IZR_lt; lia|cbn [Zdigits2]; fold E; lia|discriminate|].
    exists r. exact H.
  - destruct (round_aux_RND s (Zpos m) e loc_Exact (IZR (Zpos m))) as (r & H);
      [lia|reflexivity|apply IZR_lt; lia|cbn [Zdigits2]; fold E; lia|discriminate|].
    exists r. exact H.
  - assert (Hm : Zpos (Pos.iter xO m d) = (Zpos m * 2 ^ Zpos d)%Z) by apply iter_xO.
    assert (Hdig : Zpos (digits2_pos (Pos.iter xO m d)) = (Zpos (digits2_pos m) + Zpos d)%Z).
    { apply (Zdigits2_unique (Zpos (Pos.iter xO m d))); [|lia].
      destruct (digits2_pos_bounds m) as [B1 B2]. rewrite Hm.
      replace (Z.pos (digits2_pos m) + Z.pos d - 1)%Z with ((Z.pos (digits2_pos m) - 1) + Z.pos d)%Z by lia.
      rewrite !Z.pow_add_r by lia.
      assert (0 < 2 ^ Z.pos d)%Z by (apply Z.pow_pos_nonneg; lia). nia. }
    destruct (round_aux_RND s (Zpos (Pos.iter xO m d)) E loc_Exact (IZR (Zpos (Pos.iter xO m d))))
      as (r & H); [lia|reflexivity|apply IZR_lt; lia| |discriminate|].
    + cbn [Zdigits2]. rewrite Hdig. replace (Z.pos (digits2_pos m) + Z.pos d + E)%Z
        with (Z.pos (digits2_pos m) + e)%Z by lia. fold E. lia.
    + exists r. rewrite Hm in H at 1.
      replace E with (e - Zpos d)%Z in H at 1 by lia.
      rewrite IZR_bpow_shift in H by lia. exact H.
Qed.

(** ** Multiplication, addition and subtraction *)

Lemma RND_sgn s v r : 0 < v -> RNDpos v r -> RND (sgn s v) (sgn s r).
Proof.
  intros Hv H. destruct s; simpl.
  - right; right. split; [lra|]. rewrite !Ropp_involutive. assumption.
  - right; left. split; assumption.
Qed.

Lemma valid_grid s m e :
  valid_binary (S754_finite s m e) = true -> grid_ok (IZR (Zpos m) * bpow e) e.
Proof.
  intros H. apply valid_finite in H. destruct H as [H _]. rewrite fexp64_eq in H.
  destruct (digits2_bpow m) as [B1 B2]. assert (P := bpow_gt_0 e).
  set (d := Z.pos (digits2_pos m)) in *.
  assert (V1 : bpow (d + e - 1) <= IZR (Zpos m) * bpow e).
  { replace (d + e - 1)%Z with ((d - 1) + e)%Z by lia. rewrite bpow_add. nra. }
  assert (V2 : IZR (Zpos m) * bpow e < bpow (d + e)) by (rewrite bpow_add; nra).
  destruct (Z.eq_dec e (-1074)) as [Em|Em].
  - left. split; [assumption|]. apply Rlt_le_trans with (1 := V2). apply bpow_le. lia.
  - right. split; [lia|].
    replace (e + 52)%Z with (d + e - 1)%Z by lia.
    replace (e + 53)%Z with (d + e)%Z by lia. split; assumption.
Qed.

Lemma RNDpos_valid s m e :
  valid_binary (S754_finite s m e) = true ->
  RNDpos (IZR (Zpos m) * bpow e) (IZR (Zpos m) * bpow e).
Proof.
  intros H. exists e, (Zpos m). split; [apply valid_grid with s; assumption|].
  assert (P := bpow_gt_0 e). split.
  - replace (IZR (Z.pos m) * bpow e / bpow e) with (IZR (Zpos m)) by (field; lra).
    split; [lra|]. intros [E|E]; lra.
  - rewrite Rmin_left; [reflexivity|]. left. apply valid_lt_huge with s. assumption.
Qed.

Lemma pos_value m e : 0 < IZR (Zpos m) * bpow e.
Proof.
  assert (P := bpow_gt_0 e). assert (0 < IZR (Zpos m)) by (apply IZR_lt; lia). nra.
Qed.

Lemma RND_valid x :
  valid_binary x = true -> SFfin x = true -> RND (SFX x) (SFX x).
Proof.
  intros Hv Hf. destruct x as [s|s| |s m e]; try discriminate; cbn [SFX].
  - left; auto.
  - apply RND_sgn; [apply pos_value|apply RNDpos_valid with s; assumption].
Qed.

Lemma sgn_mul s1 s2 a b : sgn s1 a * sgn s2 b = sgn (xorb s1 s2) (a * b).
Proof. destruct s1, s2; simpl; ring. Qed.

Lemma digits_mul a b :
  (Zpos (digits2_pos a) + Zpos (digits2_pos b) - 1 <= Zpos (digits2_pos (a * b)))%Z.
Proof.
  destruct (digits2_pos_bounds a) as [A1 A2].
  destruct (digits2_pos_bounds b) as [B1 B2].
  destruct (digits2_pos_bounds (a * b)) as [C1 C2].
  set (da := Zpos (digits2_pos a)) in *. set (db := Zpos (digits2_pos b)) in *.
  set (dc := Zpos (digits2_pos (a * b))) in *.
  destruct (Z_le_gt_dec (da + db - 1) dc) as [|G]; [assumption|exfalso].
  assert (2 ^ dc <= 2 ^ (da - 1 + (db - 1)))%Z by (apply Z.pow_le_mono_r; lia).
  rewrite Z.pow_add_r in H by lia. rewrite Pos2Z.inj_mul in C2.
  assert (0 < 2 ^ (da - 1))%Z by (apply Z.pow_pos_nonneg; lia).
  assert (0 < 2 ^ (db - 1))%Z by (apply Z.pow_pos_nonneg; lia). nia.
Qed.

Theorem SFmul_RND x y :
  valid_binary x = true -> valid_binary y = true ->
  SFfin x = true -> SFfin y = true ->
  let z := SFmul prec emax x y in
  RND (SFX x * SFX y) (SFX z) /\ SFnan z = false.
Proof.
  intros Vx Vy Fx Fy z.
  destruct x as [sx|sx| |sx mx ex]; try discriminate;
  destruct y as [sy|sy| |sy my ey]; try discriminate; unfold z; cbn [SFmul SFX SFnan].
  - split; [left; split; lra|reflexivity].
  - split; [left; split; lra|reflexivity].
  - split; [left; split; lra|reflexivity].
  - destruct (round_aux_RND (xorb sx sy) (Zpos (mx * my)) (ex + ey) loc_Exact
                (IZR (Zpos (mx * my)))) as (r & Hr & Hx & Hn & _).
    + lia.
    + reflexivity.
    + apply IZR_lt; lia.
    + cbn [Zdigits2]. assert (D := digits_mul mx my).
      apply valid_finite in Vx, Vy. destruct Vx as [Vx _]. destruct Vy as [Vy _].
      rewrite fexp64_eq in *.
      assert (0 < Zpos (digits2_pos mx))%Z by lia. assert (0 < Zpos (digits2_pos my))%Z by lia.
      lia.
    + discriminate.
    + split; [|assumption]. rewrite Hx, sgn_mul.
      replace (IZR (Z.pos mx) * bpow ex * (IZR (Z.pos my) * bpow ey))
        with (IZR (Z.pos (mx * my)) * bpow (ex + ey))
        by (rewrite Pos2Z.inj_mul, mult_IZR, bpow_add; ring).
      apply RND_sgn; [apply pos_value|assumption].
Qed.

Lemma binary_normalize_RND m e sz :
  let z := binary_normalize prec emax m e sz in
  RND (IZR m * bpow e) (SFX z) /\ SFnan z = false /\ valid_binary z = true.
Proof.
  intros z. unfold z, binary_normalize. destruct m as [|p|p].
  - split; [left; split; [lra|reflexivity]|split; reflexivity].
  - destruct (binary_round_RND false p e) as (r & Hr & Hx & Hn & Hv).
    split; [|split; assumption]. rewrite Hx.
    apply (RND_sgn false); [apply pos_value|assumption].
  - destruct (binary_round_RND true p e) as (r & Hr & Hx & Hn & Hv).
    split; [|split; assumption]. rewrite Hx.
    replace (IZR (Z.neg p) * bpow e) with (sgn true (IZR (Zpos p) * bpow e)).
    + apply (RND_sgn true); [apply pos_value|assumption].
    + simpl. change (Z.neg p) with (- Z.pos p)%Z. rewrite opp_IZR. ring.
Qed.

Lemma align_value s m e e' :
  (e' <= e)%Z ->
  IZR (cond_Zopp s (Zpos (fst (shl_align m e e')))) * bpow e' = sgn s (IZR (Zpos m) * bpow e).
Proof.
  intros H. assert (A := shl_align_spec m e e' H).
  destruct (shl_align m e e') as [m' e'']. destruct A as [_ A]. cbn [fst].
  assert (E : IZR (Zpos m') * bpow e' = IZR (Zpos m) * bpow e).
  { rewrite A. replace e' with (e - (e - e'))%Z at 2 by lia. apply IZR_bpow_shift. lia. }
  destruct s; cbn [cond_Zopp sgn]; [|assumption].
  rewrite opp_IZR. lra.
Qed.

Theorem SFadd_RND x y :
  valid_binary x = true -> valid_binary y = true ->
  SFfin x = true -> SFfin y = true ->
  let z := SFadd prec emax x y in
  RND (SFX x + SFX y) (SFX z) /\ SFnan z = false.
Proof.
  intros Vx Vy Fx Fy z.
  destruct x as [sx|sx| |sx mx ex]; try discriminate;
  destruct y as [sy|sy| |sy my ey]; try discriminate; unfold z; cbn [SFadd].
  - split; [|destruct sx, sy; reflexivity]. left. split; [simpl; lra|destruct sx, sy; reflexivity].
  - split; [|reflexivity]. rewrite Rplus_0_l. apply RND_valid; assumption.
  - split; [|reflexivity]. change (SFX (S754_zero sy)) with 0. rewrite Rplus_0_r.
    apply RND_valid; assumption.
  - destruct (binary_normalize_RND
       (cond_Zopp sx (Zpos (fst (shl_align mx ex (Z.min ex ey)))) +
        cond_Zopp sy (Zpos (fst (shl_align my ey (Z.min ex ey)))))%Z (Z.min ex ey) false)
      as (H1 & H2 & _).
    split; [|exact H2].
    rewrite plus_IZR, Rmult_plus_distr_r, !align_value in H1 by lia. exact H1.
Qed.

Theorem SFsub_RND x y :
  valid_binary x = true -> valid_binary y = true ->
  SFfin x = true -> SFfin y = true ->
  let z := SFsub prec emax x y in
  RND (SFX x - SFX y) (SFX z) /\ SFnan z = false.
Proof.
  intros Vx Vy Fx Fy z.
  destruct x as [sx|sx| |sx mx ex]; try discriminate;
  destruct y as [sy|sy| |sy my ey]; try discriminate; unfold z; cbn [SFsub].
  - split; [|destruct sx, sy; reflexivity]. left. split; [simpl; lra|destruct sx, sy; reflexivity].
  - split; [|reflexivity]. cbn [SFX]. rewrite Rminus_0_l.
    replace (- sgn sy (IZR (Z.pos my) * bpow ey)) with (sgn (negb sy) (IZR (Z.pos my) * bpow ey))
      by (destruct sy; simpl; ring).
    apply RND_sgn; [apply pos_value|apply RNDpos_valid with sy; assumption].
  - split; [|reflexivity]. change (SFX (S754_zero sy)) with 0. rewrite Rminus_0_r.
    apply RND_valid; assumption.
  - destruct (binary_normalize_RND
       (cond_Zopp sx (Zpos (fst (shl_align mx ex (Z.min ex ey)))) -
        cond_Zopp sy (Zpos (fst (shl_align my ey (Z.min ex ey)))))%Z (Z.min ex ey) false)
      as (H1 & H2 & _).
    split; [|exact H2].
    rewrite minus_IZR, Rmult_minus_distr_r, !align_value in H1 by lia. exact H1.
Qed.

(** ** Division *)

Lemma new_location_ok nb k q :
  (0 < nb)%Z -> (0 <= k < nb)%Z ->
  loc_ok q (new_location nb k) (IZR q + IZR k / IZR nb).
Proof.
  intros Hnb Hk.
  assert (Pn : 0 < IZR nb) by (apply IZR_lt; assumption).
  set (y := IZR k / IZR nb).
  assert (Hy : y * IZR nb = IZR k) by (unfold y; field; lra).
  assert (K0 : (k = 0)%Z -> y = 0) by (intros ->; unfold y, Rdiv; ring).
  assert (Kp : (0 < k)%Z -> 0 < y).
  { intros H. apply IZR_lt in H. unfold y. apply Rmult_lt_0_compat; [lra|].
    apply Rinv_0_lt_compat; lra. }
  assert (L : (2 * k < nb)%Z -> y < / 2).
  { intros H. apply IZR_lt in H. rewrite mult_IZR in H. nra. }
  assert (G : (nb < 2 * k)%Z -> / 2 < y).
  { intros H. apply IZR_lt in H. rewrite mult_IZR in H. nra. }
  assert (Q : (2 * k = nb)%Z -> y = / 2).
  { intros H. apply (f_equal IZR) in H. rewrite mult_IZR in H. nra. }
  assert (U : y < 1).
  { assert (H : (k < nb)%Z) by lia. apply IZR_lt in H. nra. }
  unfold new_location. destruct (Z.even nb) eqn:Ev.
  - unfold new_location_even. destruct (Z.eqb_spec k 0) as [E|N].
    + simpl. rewrite K0 by assumption. lra.
    + destruct (Z.compare_spec (2 * k) nb) as [C|C|C]; simpl.
      * rewrite Q by assumption. lra.
      * specialize (L C). specialize (Kp ltac:(lia)). lra.
      * specialize (G C). lra.
  - unfold new_location_odd. destruct (Z.eqb_spec k 0) as [E|N].
    + simpl. rewrite K0 by assumption. lra.
    + assert (Od : Z.odd nb = true) by (rewrite <- Z.negb_even, Ev; reflexivity).
      apply Z.odd_spec in Od. destruct Od as [j Hj].
      destruct (Z.compare_spec (2 * k + 1) nb) as [C|C|C]; simpl.
      * specialize (L ltac:(lia)). specialize (Kp ltac:(lia)). lra.
      * specialize (L ltac:(lia)). specialize (Kp ltac:(lia)). lra.
      * specialize (G ltac:(lia)). lra.
Qed.

Lemma SFdiv_core_ok sx mx ex sy my ey :
  valid_binary (S754_finite sx mx ex) = true ->
  valid_binary (S754_finite sy my ey) = true ->
  let '(q, e', l) := SFdiv_core_binary prec emax (Zpos mx) ex (Zpos my) ey in
  exists X, (0 <= q)%Z /\ loc_ok q l X /\ 0 < X /\
    X * bpow e' = (IZR (Zpos mx) * bpow ex) / (IZR (Zpos my) * bpow ey) /\
    (e' <= fexp64 (Zdigits2 q + e'))%Z /\ (q = 0%Z -> (e' <= -1074)%Z).
Proof.
  intros Vx Vy.
  assert (Dx := valid_digits _ _ _ Vx). assert (Dy := valid_digits _ _ _ Vy).
  unfold SFdiv_core_binary. cbn [Zdigits2].
  set (d1 := Zpos (digits2_pos mx)) in *. set (d2 := Zpos (digits2_pos my)) in *.
  change (fexp prec emax (d1 + ex - (d2 + ey))) with (fexp64 (d1 + ex - (d2 + ey))).
  assert (HF := fexp64_eq (d1 + ex - (d2 + ey))).
  set (F := fexp64 (d1 + ex - (d2 + ey))) in *.
  set (e' := Z.min F (ex - ey)).
  set (s := (ex - ey - e')%Z).
  assert (Hs : (0 <= s)%Z) by (unfold s, e'; lia).
  assert (Hm' : match s with
                | Zpos _ => Z.shiftl (Zpos mx) s | Z0 => Zpos mx | Zneg _ => 0%Z
                end = (Zpos mx * 2 ^ s)%Z).
  { destruct s as [|p|p] eqn:Es; [lia| |lia]. rewrite Z.shiftl_mul_pow2 by lia. reflexivity. }
  rewrite Hm'. clear Hm'.
  set (m' := (Zpos mx * 2 ^ s)%Z).
  assert (Hdiv := Z_div_mod m' (Zpos my) ltac:(lia)).
  destruct (Z.div_eucl m' (Zpos my)) as [q r]. destruct Hdiv as [Hqr Hr].
  assert (P2s : (0 < 2 ^ s)%Z) by (apply Z.pow_pos_nonneg; lia).
  assert (Hm'pos : (0 < m')%Z) by (unfold m'; nia).
  assert (Hq0 : (0 <= q)%Z) by nia.
  assert (Py : 0 < IZR (Zpos my)) by (apply IZR_lt; lia).
  exists (IZR q + IZR r / IZR (Zpos my)).
  split; [assumption|]. split; [apply new_location_ok; lia|].
  assert (HX : IZR q + IZR r / IZR (Zpos my) = IZR m' / IZR (Zpos my)).
  { rewrite Hqr, plus_IZR, mult_IZR. field. lra. }
  split.
  { rewrite HX. apply Rmult_lt_0_compat; [apply IZR_lt; assumption|].
    apply Rinv_0_lt_compat; assumption. }
  split.
  { rewrite HX. unfold m'. rewrite mult_IZR, <- bpow_IZR by assumption.
    assert (Eb : bpow ex = bpow s * bpow e' * bpow ey).
    { rewrite <- !bpow_add. f_equal. unfold s. lia. }
    rewrite Eb. assert (P1 := bpow_gt_0 ey). field. lra. }
  assert (Hbig : (-1074 < e')%Z -> (2 ^ 52 <= q)%Z).
  { intros He'.
    assert (Es : s = (d2 - d1 + 53)%Z) by (unfold s, e' in *; lia).
    destruct (digits2_pos_bounds mx) as [A1 A2]. destruct (digits2_pos_bounds my) as [B1 B2].
    fold d1 in A1, A2. fold d2 in B1, B2.
    assert (d1pos : (0 < d1)%Z) by (unfold d1; lia).
    assert (d2pos : (0 < d2)%Z) by (unfold d2; lia).
    assert (M1 : (2 ^ (d2 + 52) <= m')%Z).
    { unfold m'. replace (d2 + 52)%Z with ((d1 - 1) + s)%Z by lia.
      rewrite Z.pow_add_r by lia. nia. }
    destruct (Z_le_gt_dec (2 ^ 52) q) as [|G]; [assumption|exfalso].
    rewrite Z.pow_add_r in M1 by lia.
    assert (0 < 2 ^ d2)%Z by (apply Z.pow_pos_nonneg; lia).
    nia. }
  split.
  - destruct (Z_le_gt_dec e' (-1074)) as [L|G].
    + assert (H := fexp64_ge (Zdigits2 q + e')). lia.
    + specialize (Hbig ltac:(lia)).
      assert (53 <= Zdigits2 q)%Z.
      { destruct (Zdigits2_bounds q ltac:(lia)) as [_ B].
        destruct (Z_le_gt_dec 53 (Zdigits2 q)) as [|G']; [assumption|exfalso].
        assert (2 ^ Zdigits2 q <= 2 ^ 52)%Z.
        { apply Z.pow_le_mono_r; [lia|]. lia. }
        lia. }
      rewrite fexp64_eq. lia.
  - intros ->. destruct (Z_le_gt_dec e' (-1074)) as [L|G]; [assumption|].
    specialize (Hbig ltac:(lia)). lia.
Qed.

Theorem SFdiv_RND x y :
  valid_binary x = true -> valid_binary y = true ->
  SFfin x = true -> SFfin y = true -> SFX y <> 0 ->
  let z := SFdiv prec emax x y in
  RND (SFX x / SFX y) (SFX z) /\ SFnan z = false.
Proof.
  intros Vx Vy Fx Fy Ny z.
  destruct y as [sy|sy| |sy my ey]; try discriminate; [exfalso; apply Ny; reflexivity|].
  destruct x as [sx|sx| |sx mx ex]; try discriminate; unfold z; cbn [SFdiv].
  - split; [|reflexivity]. left. split; [|reflexivity]. cbn [SFX]. unfold Rdiv. ring.
  - assert (H := SFdiv_core_ok sx mx ex sy my ey Vx Vy).
    destruct (SFdiv_core_binary prec emax (Z.pos mx) ex (Z.pos my) ey) as [[q e'] l].
    destruct H as (X & Hq & Hloc & HX & Hval & Hpre & Hlow).
    destruct (round_aux_RND (xorb sx sy) q e' l X Hq Hloc HX Hpre Hlow)
      as (r & Hr & Hx & Hn & _).
    split; [|assumption]. rewrite Hx. cbn [SFX].
    assert (P1 := pos_value mx ex). assert (P2 := pos_value my ey).
    replace (sgn sx (IZR (Z.pos mx) * bpow ex) / sgn sy (IZR (Z.pos my) * bpow ey))
      with (sgn (xorb sx sy) (X * bpow e')).
    + apply RND_sgn; [|assumption]. apply Rmult_lt_0_compat; [assumption|apply bpow_gt_0].
    + rewrite Hval. set (a := IZR (Z.pos mx) * bpow ex) in *.
      set (b := IZR (Z.pos my) * bpow ey) in *. clearbody a b.
      destruct sx, sy; simpl; field; lra.
Qed.

(** ** Comparison *)

Lemma huge_pos : 0 < huge.
Proof. apply bpow_gt_0. Qed.

Lemma compare_cont_Eq m1 m2 : Pos.compare_cont Eq m1 m2 = Pos.compare m1 m2.
Proof. reflexivity. Qed.

Lemma pos_compare_ok s1 m1 e1 s2 m2 e2 :
  valid_binary (S754_finite s1 m1 e1) = true ->
  valid_binary (S754_finite s2 m2 e2) = true ->
  cmp_ok match Z.compare e1 e2 with
         | Lt => Lt | Gt => Gt | Eq => Pos.compare_cont Eq m1 m2
         end (IZR (Zpos m1) * bpow e1) (IZR (Zpos m2) * bpow e2).
Proof.
  intros V1 V2. assert (G1 := valid_grid _ _ _ V1). assert (G2 := valid_grid _ _ _ V2).
  assert (L1 := grid_ok_lt _ _ G1). assert (L2 := grid_ok_lt _ _ G2).
  assert (A1 := grid_ok_ge _ _ G1). assert (A2 := grid_ok_ge _ _ G2).
  destruct (Z.compare_spec e1 e2) as [E|L|G]; simpl.
  - subst e2. rewrite compare_cont_Eq. assert (P := bpow_gt_0 e1).
    destruct (Pos.compare_spec m1 m2) as [E|L|G]; simpl.
    + subst; reflexivity.
    + assert (IZR (Zpos m1) < IZR (Zpos m2)) by (apply IZR_lt; lia). nra.
    + assert (IZR (Zpos m2) < IZR (Zpos m1)) by (apply IZR_lt; lia). nra.
  - destruct G2 as [[-> _]|[_ [B _]]]; [lia|].
    assert (bpow (e1 + 53) <= bpow (e2 + 52)) by (apply bpow_le; lia). lra.
  - destruct G1 as [[-> _]|[_ [B _]]]; [lia|].
    assert (bpow (e2 + 53) <= bpow (e1 + 52)) by (apply bpow_le; lia). lra.
Qed.

Lemma cmp_ok_opp c a b : cmp_ok c a b -> cmp_ok (CompOpp c) (- a) (- b).
Proof. destruct c; simpl; lra. Qed.

Theorem SFcompare_ok x y :
  valid_binary x = true -> valid_binary y = true ->
  SFnan x = false -> SFnan y = false ->
  exists c, SFcompare x y = Some c /\ cmp_ok c (SFX x) (SFX y).
Proof.
  intros Vx Vy Nx Ny. assert (H := huge_pos).
  destruct x as [sx|sx| |sx mx ex]; try discriminate;
  destruct y as [sy|sy| |sy my ey]; try discriminate; cbn [SFcompare SFX].
  - exists Eq. split; reflexivity.
  - destruct sy; eexists; (split; [reflexivity|simpl; lra]).
  - assert (P := pos_value my ey). destruct sy; eexists; (split; [reflexivity|simpl; lra]).
  - destruct sx; eexists; (split; [reflexivity|simpl; lra]).
  - destruct sx, sy; eexists; (split; [reflexivity|simpl; lra]).
  - assert (P := pos_value my ey). assert (B := valid_lt_huge _ _ _ Vy).
    destruct sx, sy; eexists; (split; [reflexivity|simpl; lra]).
  - assert (P := pos_value mx ex). destruct sx; eexists; (split; [reflexivity|simpl; lra]).
  - assert (P := pos_value mx ex). assert (B := valid_lt_huge _ _ _ Vx).
    destruct sx, sy; eexists; (split; [reflexivity|simpl; lra]).
  - assert (Px := pos_value mx ex). assert (Py := pos_value my ey).
    destruct sx, sy; eexists; (split; [reflexivity|]); simpl sgn.
    + assert (C := pos_compare_ok true mx ex true my ey Vx Vy).
      destruct (Z.compare ex ey); [|simpl in *; lra|simpl in *; lra].
      apply cmp_ok_opp. assumption.
    + simpl; lra.
    + simpl; lra.
    + exact (pos_compare_ok false mx ex false my ey Vx Vy).
Qed.

Lemma SFleb_ok x y :
  valid_binary x = true -> valid_binary y = true ->
  SFnan x = false -> SFnan y = false ->
  (SFleb x y = true <-> SFX x <= SFX y).
Proof.
  intros Vx Vy Nx Ny. destruct (SFcompare_ok x y Vx Vy Nx Ny) as (c & Hc & H).
  unfold SFleb. rewrite Hc. destruct c; simpl in H; split; intros; try reflexivity; try discriminate; lra.
Qed.

Lemma SFltb_ok x y :
  valid_binary x = true -> valid_binary y = true ->
  SFnan x = false -> SFnan y = false ->
  (SFltb x y = true <-> SFX x < SFX y).
Proof.
  intros Vx Vy Nx Ny. destruct (SFcompare_ok x y Vx Vy Nx Ny) as (c & Hc & H).
  unfold SFltb. rewrite Hc. destruct c; simpl in H; split; intros; try reflexivity; try discriminate; lra.
Qed.

Lemma SFeqb_ok x y :
  valid_binary x = true -> valid_binary y = true ->
  SFnan x = false -> SFnan y = false ->
  (SFeqb x y = true <-> SFX x = SFX y).
Proof.
  intros Vx Vy Nx Ny. destruct (SFcompare_ok x y Vx Vy Nx Ny) as (c & Hc & H).
  unfold SFeqb. rewrite Hc. destruct c; simpl in H; split; intros; try reflexivity; try discriminate; lra.
Qed.

Lemma SFleb_nan x y : SFleb x y = true -> SFnan x = false /\ SFnan y = false.
Proof.
  unfold SFleb. destruct x as [sx|sx| |sx mx ex]; destruct y as [sy|sy| |sy my ey];
    simpl; intros H; try discriminate; auto.
Qed.

Lemma SFltb_nan x y : SFltb x y = true -> SFnan x = false /\ SFnan y = false.
Proof.
  unfold SFltb. destruct x as [sx|sx| |sx mx ex]; destruct y as [sy|sy| |sy my ey];
    simpl; intros H; try discriminate; auto.
Qed.

Lemma SFeqb_nan x y : SFeqb x y = true -> SFnan x = false /\ SFnan y = false.
Proof.
  unfold SFeqb. destruct x as [sx|sx| |sx mx ex]; destruct y as [sy|sy| |sy my ey];
    simpl; intros H; try discriminate; auto.
Qed.

(** Values: bounded by [huge], and finite when strictly inside. *)
Lemma SFX_bound x : valid_binary x = true -> - huge <= SFX x <= huge.
Proof.
  intros V. assert (H := huge_pos). destruct x as [s|s| |s m e]; cbn [SFX]; try lra.
  - destruct s; simpl; lra.
  - assert (B := valid_lt_huge _ _ _ V). assert (P := pos_value m e). destruct s; simpl; lra.
Qed.

Lemma SFfin_of_bound x :
  SFnan x = false -> - huge < SFX x < huge -> SFfin x = true.
Proof.
  destruct x as [s|s| |s m e]; cbn [SFX SFfin SFnan]; try reflexivity; try discriminate.
  destruct s; simpl; intros; lra.
Qed.

Lemma SFfin_bound x : valid_binary x = true -> SFfin x = true -> - huge < SFX x < huge.
Proof.
  intros V F. assert (H := huge_pos). destruct x as [s|s| |s m e]; cbn [SFX]; try discriminate; try lra.
  assert (B := valid_lt_huge _ _ _ V). assert (P := pos_value m e). destruct s; simpl; lra.
Qed.

Lemma SFfin_nan x : SFfin x = true -> SFnan x = false.
Proof. destruct x; simpl; auto; discriminate. Qed.

(** Equal non-zero values belong to equal numbers. *)
Lemma SFX_inj x y :
  valid_binary x = true -> valid_binary y = true ->
  SFnan x = false -> SFnan y = false ->
  SFX x = SFX y -> SFX x <> 0 -> x = y.
Proof.
  intros Vx Vy Nx Ny E NZ. assert (H := huge_pos).
  destruct (SFcompare_ok x y Vx Vy Nx Ny) as (c & Hc & Hok).
  destruct c; simpl in Hok; try lra. clear Hok.
  destruct x as [sx|sx| |sx mx ex]; try discriminate;
  destruct y as [sy|sy| |sy my ey]; try discriminate; cbn [SFcompare SFX] in *;
    try (exfalso; apply NZ; reflexivity);
    try (destruct sx; discriminate); try (destruct sy; discriminate).
  - destruct sx, sy; try reflexivity; discriminate.
  - assert (Px := pos_value mx ex). assert (Py := pos_value my ey).
    destruct sx, sy; simpl in E; try lra.
    + destruct (Z.compare_spec ex ey); try discriminate. subst.
      rewrite compare_cont_Eq in Hc. destruct (Pos.compare_spec mx my); try discriminate.
      subst; reflexivity.
    + destruct (Z.compare_spec ex ey); try discriminate. subst.
      rewrite compare_cont_Eq in Hc. destruct (Pos.compare_spec mx my); try discriminate.
      subst; reflexivity.
Qed.

(** ** Numbers *)

Lemma fin_nan x : fin x = true -> nan x = false.
Proof. apply SFfin_nan. Qed.

Lemma is_nan_spec x : PrimFloat.is_nan x = nan x.
Proof.
  unfold PrimFloat.is_nan, nan. rewrite eqb_spec.
  destruct (Prim2SF x) as [s|s| |s m e] eqn:E; try reflexivity.
  - destruct s; reflexivity.
  - assert (V := Prim2SF_valid x). rewrite E in V.
    assert (H : SFeqb (S754_finite s m e) (S754_finite s m e) = true).
    { apply SFeqb_ok; auto. }
    rewrite H. reflexivity.
Qed.

Lemma leb_FX x y :
  (x <=? y)%float = true <-> nan x = false /\ nan y = false /\ FX x <= FX y.
Proof.
  rewrite leb_spec. unfold nan, FX. split.
  - intros H. destruct (SFleb_nan _ _ H) as [Nx Ny]. repeat split; auto.
    apply SFleb_ok; auto using Prim2SF_valid.
  - intros (Nx & Ny & H). apply SFleb_ok; auto using Prim2SF_valid.
Qed.

Lemma ltb_FX x y :
  (x <? y)%float = true <-> nan x = false /\ nan y = false /\ FX x < FX y.
Proof.
  rewrite ltb_spec. unfold nan, FX. split.
  - intros H. destruct (SFltb_nan _ _ H) as [Nx Ny]. repeat split; auto.
    apply SFltb_ok; auto using Prim2SF_valid.
  - intros (Nx & Ny & H). apply SFltb_ok; auto using Prim2SF_valid.
Qed.

Lemma eqb_FX x y :
  (x =? y)%float = true <-> nan x = false /\ nan y = false /\ FX x = FX y.
Proof.
  rewrite eqb_spec. unfold nan, FX. split.
  - intros H. destruct (SFeqb_nan _ _ H) as [Nx Ny]. repeat split; auto.
    apply SFeqb_ok; auto using Prim2SF_valid.
  - intros (Nx & Ny & H). apply SFeqb_ok; auto using Prim2SF_valid.
Qed.

Lemma FX_bound x : - huge <= FX x <= huge.
Proof. apply SFX_bound, Prim2SF_valid. Qed.

Lemma fin_bound x : fin x = true -> - huge < FX x < huge.
Proof. apply SFfin_bound, Prim2SF_valid. Qed.

Lemma fin_of_bound x : nan x = false -> - huge < FX x < huge -> fin x = true.
Proof. apply SFfin_of_bound. Qed.

Theorem mul_RND x y :
  fin x = true -> fin y = true ->
  RND (FX x * FX y) (FX (x * y)) /\ nan (x * y) = false.
Proof.
  intros Fx Fy. unfold FX, nan. rewrite mul_spec.
  apply SFmul_RND; auto using Prim2SF_valid.
Qed.

Theorem add_RND x y :
  fin x = true -> fin y = true ->
  RND (FX x + FX y) (FX (x + y)) /\ nan (x + y) = false.
Proof.
  intros Fx Fy. unfold FX, nan. rewrite add_spec.
  apply SFadd_RND; auto using Prim2SF_valid.
Qed.

Theorem sub_RND x y :
  fin x = true -> fin y = true ->
  RND (FX x - FX y) (FX (x - y)) /\ nan (x - y) = false.
Proof.
  intros Fx Fy. unfold FX, nan. rewrite sub_spec.
  apply SFsub_RND; auto using Prim2SF_valid.
Qed.

Theorem div_RND x y :
  fin x = true -> fin y = true -> FX y <> 0 ->
  RND (FX x / FX y) (FX (x / y)) /\ nan (x / y) = false.
Proof.
  intros Fx Fy Ny. unfold FX, nan. rewrite div_spec.
  apply SFdiv_RND; auto using Prim2SF_valid.
Qed.

(** The value of a finite number rounds to itself. *)
Lemma RND_FX c r : fin c = true -> RND (FX c) r -> r = FX c.
Proof.
  unfold fin, FX. intros F H. assert (V := Prim2SF_valid c).
  destruct (Prim2SF c) as [s|s| |s m e]; try discriminate; cbn [SFX] in *.
  - destruct H as [[_ H]|[[H _]|[H _]]]; lra.
  - assert (P := pos_value m e). assert (G := valid_grid _ _ _ V).
    assert (B := valid_lt_huge _ _ _ V).
    destruct s; simpl in *; destruct H as [[H _]|[[H0 H]|[H0 H]]]; try lra.
    + rewrite Ropp_involutive in H.
      assert (E := RNDpos_exact _ _ e (Zpos m) H G eq_refl B). lra.
    + exact (RNDpos_exact _ _ e (Zpos m) H G eq_refl B).
Qed.

(** ** Integers as Numbers *)

Lemma RNDpos_int n r :
  (0 < n < 2 ^ 53)%Z -> RNDpos (IZR n) r -> r = IZR n.
Proof.
  intros Hn H.
  destruct (Zdigits2_bounds n ltac:(lia)) as [B1 B2].
  assert (D := Zdigits2_pos n ltac:(lia)).
  set (d := Zdigits2 n) in *.
  assert (D53 : (d <= 53)%Z).
  { destruct (Z_le_gt_dec d 53) as [|G]; [assumption|exfalso].
    assert (2 ^ 53 <= 2 ^ (d - 1))%Z by (apply Z.pow_le_mono_r; lia). lia. }
  apply (RNDpos_exact _ _ (d - 53) (n * 2 ^ (53 - d)) H).
  - right. split; [lia|].
    replace (d - 53 + 52)%Z with (d - 1)%Z by lia.
    replace (d - 53 + 53)%Z with d by lia.
    rewrite !bpow_IZR by lia. split; [apply IZR_le|apply IZR_lt]; lia.
  - replace (d - 53)%Z with (0 - (53 - d))%Z by lia.
    rewrite IZR_bpow_shift by lia. rewrite bpow_0. ring.
  - unfold huge. rewrite bpow_IZR by lia. apply IZR_lt.
    assert (2 ^ 53 < 2 ^ 1024)%Z by (apply Z.pow_lt_mono_r; lia). lia.
Qed.

Lemma huge_gt_int n : (Z.abs n < 2 ^ 53)%Z -> - huge < IZR n < huge.
Proof.
  intros H. unfold huge. rewrite bpow_IZR by lia. rewrite <- opp_IZR.
  assert (2 ^ 53 < 2 ^ 1024)%Z by (apply Z.pow_lt_mono_r; lia).
  split; apply IZR_lt; lia.
Qed.

Lemma of_uint63_FX n :
  (0 < n < 2 ^ 53)%Z ->
  FX (PrimFloat.of_uint63 (Uint63.of_Z n)) = IZR n /\
  fin (PrimFloat.of_uint63 (Uint63.of_Z n)) = true.
Proof.
  intros Hn. unfold FX, fin. rewrite of_uint63_spec, Uint63.of_Z_spec.
  rewrite Z.mod_small by (change wB with (2 ^ 63)%Z; lia).
  destruct (binary_normalize_RND n 0 false) as (H & N & _).
  rewrite bpow_0, Rmult_1_r in H.
  assert (E : SFX (binary_normalize prec emax n 0 false) = IZR n).
  { assert (P : 0 < IZR n) by (apply IZR_lt; lia).
    destruct H as [[H _]|[[_ H]|[H _]]]; try lra. apply RNDpos_int; assumption. }
  split; [assumption|]. apply SFfin_of_bound; [assumption|].
  rewrite E. apply huge_gt_int. lia.
Qed.

Lemma SFX_opp x : SFX (SFopp x) = - SFX x.
Proof. destruct x as [s|s| |s m e]; cbn [SFopp SFX]; try lra; destruct s; simpl; lra. Qed.

Lemma SFfin_opp x : SFfin (SFopp x) = SFfin x.
Proof. destruct x; reflexivity. Qed.

Lemma opp_FX x : FX (- x) = - FX x.
Proof. unfold FX. rewrite FloatAxioms.opp_spec. apply SFX_opp. Qed.

Lemma opp_fin x : fin (- x) = fin x.
Proof. unfold fin. rewrite FloatAxioms.opp_spec. apply SFfin_opp. Qed.

Theorem of_Z_FX n :
  (Z.abs n < 2 ^ 53)%Z -> FX (JS.of_Z n) = IZR n /\ fin (JS.of_Z n) = true.
Proof.
  intros Hn. destruct n as [|p|p]; cbn [JS.of_Z].
  - split; reflexivity.
  - apply of_uint63_FX. lia.
  - rewrite opp_FX, opp_fin. destruct (of_uint63_FX (Zpos p) ltac:(lia)) as [E F].
    rewrite E. split; [|assumption]. change (Z.neg p) with (- Z.pos p)%Z.
    rewrite opp_IZR. reflexivity.
Qed.

(** ** Math.round and Math.floor *)

Lemma signed_value s m e :
  sgn s (IZR (Zpos m) * bpow e) = IZR (JS.signed s m) * bpow e.
Proof. destruct s; simpl; [|reflexivity]. change (Z.neg m) with (- Z.pos m)%Z. rewrite opp_IZR. ring. Qed.

Lemma signed_bound s m e :
  valid_binary (S754_finite s m e) = true -> (Z.abs (JS.signed s m) < 2 ^ 53)%Z.
Proof.
  intros V. apply valid_digits in V. destruct (digits2_pos_bounds m) as [_ B].
  assert (2 ^ Z.pos (digits2_pos m) <= 2 ^ 53)%Z by (apply Z.pow_le_mono_r; lia).
  destruct s; simpl; lia.
Qed.

Lemma floor_div_bounds N k :
  (0 <= k)%Z ->
  IZR (Z.shiftr N k) <= IZR N / bpow k < IZR (Z.shiftr N k) + 1.
Proof.
  intros Hk. rewrite Z.shiftr_div_pow2 by assumption.
  assert (P : (0 < 2 ^ k)%Z) by (apply Z.pow_pos_nonneg; lia).
  assert (H := Z_div_mod_eq_full N (2 ^ k)).
  assert (R := Z.mod_pos_bound N (2 ^ k) P).
  set (q := (N / 2 ^ k)%Z) in *. set (r := (N mod 2 ^ k)%Z) in *.
  rewrite bpow_IZR by assumption.
  assert (Pb : 0 < IZR (2 ^ k)) by (apply IZR_lt; assumption).
  assert (E : IZR N / IZR (2 ^ k) = IZR q + IZR r / IZR (2 ^ k)).
  { rewrite H, plus_IZR, mult_IZR. field. lra. }
  rewrite E.
  assert (0 <= IZR r / IZR (2 ^ k) < 1).
  { destruct R as [R1 R2]. apply IZR_le in R1. apply IZR_lt in R2. split.
    - apply Rmult_le_pos; [assumption|left; apply Rinv_0_lt_compat; assumption].
    - apply Rmult_lt_reg_r with (IZR (2 ^ k)); [assumption|].
      unfold Rdiv. rewrite Rmult_assoc, Rinv_l by lra. lra. }
  lra.
Qed.

Lemma bpow_m1 : bpow (-1) = / 2.
Proof. change (-1)%Z with (- (1))%Z. rewrite bpow_opp, bpow_1. reflexivity. Qed.

Lemma FX_zero : FX PrimFloat.zero = 0 /\ fin PrimFloat.zero = true.
Proof. split; reflexivity. Qed.

Lemma FX_neg_zero : FX PrimFloat.neg_zero = 0 /\ fin PrimFloat.neg_zero = true.
Proof. split; reflexivity. Qed.

Theorem Math_round_spec x :
  fin x = true ->
  exists n : Z, FX (JS.Math_round x) = IZR n /\ fin (JS.Math_round x) = true /\
                IZR n <= FX x + / 2 < IZR n + 1.
Proof.
  intros F. assert (V := Prim2SF_valid x). unfold JS.Math_round.
  unfold fin in F. unfold FX at 2 3.
  destruct (Prim2SF x) as [s|s| |s m e] eqn:E; try discriminate.
  - exists 0%Z. unfold FX, fin. rewrite E. cbn [SFX SFfin]. repeat split; simpl; lra.
  - cbn [SFX]. rewrite signed_value. assert (B := signed_bound _ _ _ V).
    set (sm := JS.signed s m) in *.
    destruct (Z.leb_spec 0 e) as [He|He].
    + exists (sm * 2 ^ e)%Z. unfold FX, fin. rewrite E. cbn [SFX SFfin].
      rewrite signed_value. fold sm. rewrite mult_IZR, <- bpow_IZR by assumption.
      repeat split; lra.
    + set (k := (- e)%Z). assert (Hk : (0 < k)%Z) by (unfold k; lia).
      set (n := Z.shiftr (2 * sm + 2 ^ k) (k + 1)).
      assert (Hn := floor_div_bounds (2 * sm + 2 ^ k) (k + 1) ltac:(lia)). fold n in Hn.
      assert (Ev : IZR (2 * sm + 2 ^ k) / bpow (k + 1) = IZR sm * bpow e + / 2).
      { rewrite plus_IZR, mult_IZR, <- bpow_IZR by lia. rewrite bpow_succ.
        replace e with (- k)%Z by (unfold k; lia). rewrite bpow_opp.
        assert (P := bpow_gt_0 k). field. lra. }
      rewrite Ev in Hn.
      assert (Bv : - IZR (2 ^ 52) < IZR sm * bpow e < IZR (2 ^ 52)).
      { assert (Be : 0 < bpow e <= / 2).
        { split; [apply bpow_gt_0|]. rewrite <- bpow_m1. apply bpow_le. lia. }
        assert (B1 : - IZR (2 ^ 53) < IZR sm < IZR (2 ^ 53)).
        { rewrite <- opp_IZR. split; apply IZR_lt; lia. }
        change (IZR (2 ^ 53)) with (2 * IZR (2 ^ 52)) in B1.
        assert (0 < IZR (2 ^ 52)) by (apply IZR_lt; lia).
        split; nra. }
      assert (Bn : (Z.abs n < 2 ^ 53)%Z).
      { assert (IZR (- 2 ^ 52 - 1) < IZR n) by (rewrite minus_IZR, opp_IZR; lra).
        assert (IZR n < IZR (2 ^ 52 + 1)) by (rewrite plus_IZR; lra).
        apply lt_IZR in H, H0. lia. }
      change (Z.opp e) with k. 
      replace (Z.add k 1) with (k + 1)%Z by reflexivity. fold n.
      exists n. destruct (Z.eqb_spec n 0) as [N0|N0].
      * rewrite N0 in *. destruct s; [destruct FX_neg_zero|destruct FX_zero]; repeat split; auto; lra.
      * destruct (of_Z_FX n Bn) as [E1 F1]. repeat split; auto; lra.
Qed.

Theorem Math_floor_spec x :
  fin x = true ->
  exists n : Z, FX (JS.Math_floor x) = IZR n /\ fin (JS.Math_floor x) = true /\
                IZR n <= FX x < IZR n + 1.
Proof.
  intros F. assert (V := Prim2SF_valid x). unfold JS.Math_floor.
  unfold fin in F. unfold FX at 2 3.
  destruct (Prim2SF x) as [s|s| |s m e] eqn:E; try discriminate.
  - exists 0%Z. unfold FX, fin. rewrite E. cbn [SFX SFfin]. repeat split; simpl; lra.
  - cbn [SFX]. rewrite signed_value. assert (B := signed_bound _ _ _ V).
    set (sm := JS.signed s m) in *.
    destruct (Z.leb_spec 0 e) as [He|He].
    + exists (sm * 2 ^ e)%Z. unfold FX, fin. rewrite E. cbn [SFX SFfin].
      rewrite signed_value. fold sm. rewrite mult_IZR, <- bpow_IZR by assumption.
      repeat split; lra.
    + set (k := (- e)%Z). assert (Hk : (0 < k)%Z) by (unfold k; lia).
      set (n := Z.shiftr sm k).
      assert (Hn := floor_div_bounds sm k ltac:(lia)). fold n in Hn.
      assert (Ev : IZR sm / bpow k = IZR sm * bpow e).
      { replace e with (- k)%Z by (unfold k; lia). rewrite bpow_opp. reflexivity. }
      rewrite Ev in Hn.
      assert (Bv : - IZR (2 ^ 52) < IZR sm * bpow e < IZR (2 ^ 52)).
      { assert (Be : 0 < bpow e <= / 2).
        { split; [apply bpow_gt_0|]. rewrite <- bpow_m1. apply bpow_le. lia. }
        assert (B1 : - IZR (2 ^ 53) < IZR sm < IZR (2 ^ 53)).
        { rewrite <- opp_IZR. split; apply IZR_lt; lia. }
        change (IZR (2 ^ 53)) with (2 * IZR (2 ^ 52)) in B1.
        assert (0 < IZR (2 ^ 52)) by (apply IZR_lt; lia).
        split; nra. }
      assert (Bn : (Z.abs n < 2 ^ 53)%Z).
      { assert (IZR (- 2 ^ 52 - 1) < IZR n) by (rewrite minus_IZR, opp_IZR; lra).
        assert (IZR n < IZR (2 ^ 52 + 1)) by (rewrite plus_IZR; lra).
        apply lt_IZR in H, H0. lia. }
      change (Z.opp e) with k. fold n.
      exists n. destruct (of_Z_FX n Bn) as [E1 F1]. repeat split; auto; lra.
Qed.

(** ** Intervals *)

Lemma within_FX lo hi x : within lo hi x -> FX lo <= FX x <= FX hi.
Proof.
  intros (_ & _ & H1 & H2). apply leb_FX in H1, H2. tauto.
Qed.

Lemma within_nan lo hi x : within lo hi x -> nan x = false.
Proof. intros (_ & _ & H1 & _). apply leb_FX in H1. tauto. Qed.

Lemma within_fin lo hi x : within lo hi x -> fin x = true.
Proof.
  intros H. assert (B := within_FX _ _ _ H). assert (N := within_nan _ _ _ H).
  destruct H as (F1 & F2 & _). apply fin_bound in F1, F2.
  apply fin_of_bound; [assumption|lra].
Qed.

Lemma within_intro lo hi x :
  fin lo = true -> fin hi = true -> nan x = false ->
  FX lo <= FX x <= FX hi -> within lo hi x.
Proof.
  intros F1 F2 N [B1 B2]. repeat split; auto; apply leb_FX; auto using fin_nan.
Qed.

Lemma within_refl c : fin c = true -> within c c c.
Proof. intros F. apply within_intro; auto using fin_nan. lra. Qed.

Lemma within_weaken lo hi lo' hi' x :
  within lo hi x -> fin lo' = true -> fin hi' = true ->
  (lo' <=? lo)%float = true -> (hi <=? hi')%float = true -> within lo' hi' x.
Proof.
  intros H F1 F2 L1 L2. assert (B := within_FX _ _ _ H).
  apply leb_FX in L1, L2. apply within_intro; auto.
  - apply within_nan with lo hi; assumption.
  - lra.
Qed.

Lemma RND_within v vlo vhi z zlo zhi :
  RND vlo (FX zlo) -> RND v (FX z) -> RND vhi (FX zhi) ->
  nan z = false -> fin zlo = true -> fin zhi = true ->
  vlo <= v <= vhi -> within zlo zhi z.
Proof.
  intros Rl Rz Rh N Fl Fh [B1 B2]. apply within_intro; auto. split.
  - apply (RND_mono _ _ _ _ Rl Rz B1).
  - apply (RND_mono _ _ _ _ Rz Rh B2).
Qed.

Theorem within_add l1 h1 l2 h2 a b :
  within l1 h1 a -> within l2 h2 b ->
  fin (l1 + l2) = true -> fin (h1 + h2) = true ->
  within (l1 + l2) (h1 + h2) (a + b).
Proof.
  intros Ha Hb Fl Fh.
  assert (Fa := within_fin _ _ _ Ha). assert (Fb := within_fin _ _ _ Hb).
  assert (Ba := within_FX _ _ _ Ha). assert (Bb := within_FX _ _ _ Hb).
  destruct Ha as (F1 & F2 & _). destruct Hb as (F3 & F4 & _).
  destruct (add_RND l1 l2 F1 F3) as [R1 _]. destruct (add_RND h1 h2 F2 F4) as [R2 _].
  destruct (add_RND a b Fa Fb) as [R N].
  apply (RND_within _ _ _ _ _ _ R1 R R2); auto. lra.
Qed.

Theorem within_sub l1 h1 l2 h2 a b :
  within l1 h1 a -> within l2 h2 b ->
  fin (l1 - h2) = true -> fin (h1 - l2) = true ->
  within (l1 - h2) (h1 - l2) (a - b).
Proof.
  intros Ha Hb Fl Fh.
  assert (Fa := within_fin _ _ _ Ha). assert (Fb := within_fin _ _ _ Hb).
  assert (Ba := within_FX _ _ _ Ha). assert (Bb := within_FX _ _ _ Hb).
  destruct Ha as (F1 & F2 & _). destruct Hb as (F3 & F4 & _).
  destruct (sub_RND l1 h2 F1 F4) as [R1 _]. destruct (sub_RND h1 l2 F2 F3) as [R2 _].
  destruct (sub_RND a b Fa Fb) as [R N].
  apply (RND_within _ _ _ _ _ _ R1 R R2); auto. lra.
Qed.

(** Product with a non-negative number [c]. *)
Theorem within_mul_l c l h x :
  fin c = true -> 0 <= FX c -> within l h x ->
  fin (c * l) = true -> fin (c * h) = true ->
  within (c * l) (c * h) (c * x).
Proof.
  intros Fc Pc Hx Fl Fh.
  assert (Fx := within_fin _ _ _ Hx). assert (Bx := within_FX _ _ _ Hx).
  destruct Hx as (F1 & F2 & _).
  destruct (mul_RND c l Fc F1) as [R1 _]. destruct (mul_RND c h Fc F2) as [R2 _].
  destruct (mul_RND c x Fc Fx) as [R N].
  apply (RND_within _ _ _ _ _ _ R1 R R2); auto. nra.
Qed.

Theorem within_mul_r c l h x :
  fin c = true -> 0 <= FX c -> within l h x ->
  fin (l * c) = true -> fin (h * c) = true ->
  within (l * c) (h * c) (x * c).
Proof.
  intros Fc Pc Hx Fl Fh.
  assert (Fx := within_fin _ _ _ Hx). assert (Bx := within_FX _ _ _ Hx).
  destruct Hx as (F1 & F2 & _).
  destruct (mul_RND l c F1 Fc) as [R1 _]. destruct (mul_RND h c F2 Fc) as [R2 _].
  destruct (mul_RND x c Fx Fc) as [R N].
  apply (RND_within _ _ _ _ _ _ R1 R R2); auto. nra.
Qed.

(** Product of two non-negative numbers. *)
Theorem within_mul_pos l1 h1 l2 h2 a b :
  within l1 h1 a -> within l2 h2 b -> 0 <= FX l1 -> 0 <= FX l2 ->
  fin (l1 * l2) = true -> fin (h1 * h2) = true ->
  within (l1 * l2) (h1 * h2) (a * b).
Proof.
  intros Ha Hb P1 P2 Fl Fh.
  assert (Fa := within_fin _ _ _ Ha). assert (Fb := within_fin _ _ _ Hb).
  assert (Ba := within_FX _ _ _ Ha). assert (Bb := within_FX _ _ _ Hb).
  destruct Ha as (F1 & F2 & _). destruct Hb as (F3 & F4 & _).
  destruct (mul_RND l1 l2 F1 F3) as [R1 _]. destruct (mul_RND h1 h2 F2 F4) as [R2 _].
  destruct (mul_RND a b Fa Fb) as [R N].
  apply (RND_within _ _ _ _ _ _ R1 R R2); auto. nra.
Qed.

(** Quotient by a positive number [c]. *)
Theorem within_div_r c l h x :
  fin c = true -> 0 < FX c -> within l h x ->
  fin (l / c) = true -> fin (h / c) = true ->
  within (l / c) (h / c) (x / c).
Proof.
  intros Fc Pc Hx Fl Fh.
  assert (Fx := within_fin _ _ _ Hx). assert (Bx := within_FX _ _ _ Hx).
  destruct Hx as (F1 & F2 & _).
  destruct (div_RND l c F1 Fc ltac:(lra)) as [R1 _].
  destruct (div_RND h c F2 Fc ltac:(lra)) as [R2 _].
  destruct (div_RND x c Fx Fc ltac:(lra)) as [R N].
  apply (RND_within _ _ _ _ _ _ R1 R R2); auto.
  assert (0 < / FX c) by (apply Rinv_0_lt_compat; assumption).
  unfold Rdiv. nra.
Qed.

(** Quotient of a non-negative number by a positive one. *)
Theorem within_div_pos l1 h1 l2 h2 a b :
  within l1 h1 a -> within l2 h2 b -> 0 <= FX l1 -> 0 < FX l2 ->
  fin (l1 / h2) = true -> fin (h1 / l2) = true ->
  within (l1 / h2) (h1 / l2) (a / b).
Proof.
  intros Ha Hb P1 P2 Fl Fh.
  assert (Fa := within_fin _ _ _ Ha). assert (Fb := within_fin _ _ _ Hb).
  assert (Ba := within_FX _ _ _ Ha). assert (Bb := within_FX _ _ _ Hb).
  destruct Ha as (F1 & F2 & _). destruct Hb as (F3 & F4 & _).
  destruct (div_RND l1 h2 F1 F4 ltac:(lra)) as [R1 _].
  destruct (div_RND h1 l2 F2 F3 ltac:(lra)) as [R2 _].
  destruct (div_RND a b Fa Fb ltac:(lra)) as [R N].
  apply (RND_within _ _ _ _ _ _ R1 R R2); auto.
  assert (I1 : / FX h2 <= / FX b) by (apply Rinv_le_contravar; lra).
  assert (I2 : / FX b <= / FX l2) by (apply Rinv_le_contravar; lra).
  assert (0 < / FX h2) by (apply Rinv_0_lt_compat; lra).
  unfold Rdiv. split.
  - apply Rle_trans with (FX l1 * / FX b); [apply Rmult_le_compat_l; lra|].
    apply Rmult_le_compat_r; lra.
  - apply Rle_trans with (FX a * / FX l2); [apply Rmult_le_compat_l; lra|].
    apply Rmult_le_compat_r; lra.
Qed.

Theorem within_round l h x :
  within l h x -> within (JS.Math_round l) (JS.Math_round h) (JS.Math_round x).
Proof.
  intros Hx. assert (Fx := within_fin _ _ _ Hx). assert (Bx := within_FX _ _ _ Hx).
  destruct Hx as (F1 & F2 & _).
  destruct (Math_round_spec l F1) as (nl & El & Fl & Bl).
  destruct (Math_round_spec h F2) as (nh & Eh & Fh & Bh).
  destruct (Math_round_spec x Fx) as (n & E & F & B).
  apply within_intro; auto using fin_nan. rewrite El, Eh, E.
  split; apply IZR_le.
  - assert (IZR nl < IZR (n + 1)) by (rewrite plus_IZR; lra). apply lt_IZR in H. lia.
  - assert (IZR n < IZR (nh + 1)) by (rewrite plus_IZR; lra). apply lt_IZR in H. lia.
Qed.

Theorem within_floor l h x :
  within l h x -> within (JS.Math_floor l) (JS.Math_floor h) (JS.Math_floor x).
Proof.
  intros Hx. assert (Fx := within_fin _ _ _ Hx). assert (Bx := within_FX _ _ _ Hx).
  destruct Hx as (F1 & F2 & _).
  destruct (Math_floor_spec l F1) as (nl & El & Fl & Bl).
  destruct (Math_floor_spec h F2) as (nh & Eh & Fh & Bh).
  destruct (Math_floor_spec x Fx) as (n & E & F & B).
  apply within_intro; auto using fin_nan. rewrite El, Eh, E.
  split; apply IZR_le.
  - assert (IZR nl < IZR (n + 1)) by (rewrite plus_IZR; lra). apply lt_IZR in H. lia.
  - assert (IZR n < IZR (nh + 1)) by (rewrite plus_IZR; lra). apply lt_IZR in H. lia.
Qed.

Theorem within_of_Z lo hi n :
  (Z.abs lo < 2 ^ 53)%Z -> (Z.abs hi < 2 ^ 53)%Z -> (lo <= n <= hi)%Z ->
  within (JS.of_Z lo) (JS.of_Z hi) (JS.of_Z n).
Proof.
  intros Hl Hh Hn.
  destruct (of_Z_FX lo Hl) as [E1 F1]. destruct (of_Z_FX hi Hh) as [E2 F2].
  destruct (of_Z_FX n ltac:(lia)) as [E F].
  apply within_intro; auto using fin_nan. rewrite E1, E2, E. split; apply IZR_le; lia.
Qed.

(** ** Math.max and Math.min *)

Lemma is_pos_zero_FX x : JS.is_pos_zero x = true -> FX x = 0.
Proof.
  unfold JS.is_pos_zero, FX. rewrite classify_spec. unfold SF64classify, SFclassify.
  destruct (Prim2SF x) as [s|s| |s m e]; try (destruct s); try discriminate; try reflexivity;
    destruct (Z.eqb _ _); discriminate.
Qed.

Lemma is_neg_zero_FX x : JS.is_neg_zero x = true -> FX x = 0.
Proof.
  unfold JS.is_neg_zero, FX. rewrite classify_spec. unfold SF64classify, SFclassify.
  destruct (Prim2SF x) as [s|s| |s m e]; try (destruct s); try discriminate; try reflexivity;
    destruct (Z.eqb _ _); discriminate.
Qed.

Lemma ltb_false_FX x y :
  nan x = false -> nan y = false -> (x <? y)%float = false -> FX y <= FX x.
Proof.
  intros Nx Ny H. destruct (Rle_lt_dec (FX y) (FX x)) as [|L]; [assumption|exfalso].
  assert (T : (x <? y)%float = true) by (apply ltb_FX; auto). congruence.
Qed.

Lemma max_step_FX hi x :
  nan hi = false -> nan x = false ->
  FX (JS.max_step hi x) = Rmax (FX hi) (FX x) /\ nan (JS.max_step hi x) = false.
Proof.
  intros Nh Nx. unfold JS.max_step.
  destruct (JS.is_pos_zero x && JS.is_neg_zero hi) eqn:Z.
  - apply andb_true_iff in Z. destruct Z as [Z1 Z2].
    apply is_pos_zero_FX in Z1. apply is_neg_zero_FX in Z2.
    split; [|assumption]. rewrite Z1, Z2. unfold Rmax. destruct (Rle_dec 0 0); reflexivity.
  - destruct (hi <? x)%float eqn:L.
    + apply ltb_FX in L. destruct L as (_ & _ & L). split; [|assumption].
      rewrite Rmax_right by lra. reflexivity.
    + apply ltb_false_FX in L; auto. split; [|assumption].
      rewrite Rmax_left by lra. reflexivity.
Qed.

Lemma min_step_FX lo x :
  nan lo = false -> nan x = false ->
  FX (JS.min_step lo x) = Rmin (FX lo) (FX x) /\ nan (JS.min_step lo x) = false.
Proof.
  intros Nh Nx. unfold JS.min_step.
  destruct (JS.is_neg_zero x && JS.is_pos_zero lo) eqn:Z.
  - apply andb_true_iff in Z. destruct Z as [Z1 Z2].
    apply is_neg_zero_FX in Z1. apply is_pos_zero_FX in Z2.
    split; [|assumption]. rewrite Z1, Z2. unfold Rmin. destruct (Rle_dec 0 0); reflexivity.
  - destruct (x <? lo)%float eqn:L.
    + apply ltb_FX in L. destruct L as (_ & _ & L). split; [|assumption].
      rewrite Rmin_right by lra. reflexivity.
    + apply ltb_false_FX in L; auto. split; [|assumption].
      rewrite Rmin_left by lra. reflexivity.
Qed.

Lemma existsb_nan xs :
  existsb PrimFloat.is_nan xs = false <-> Forall (fun x => nan x = false) xs.
Proof.
  induction xs as [|x xs IH]; simpl.
  - split; auto.
  - rewrite orb_false_iff, is_nan_spec, IH. split.
    + intros [H1 H2]. constructor; assumption.
    + intros H. inversion H; subst. split; assumption.
Qed.

Lemma fold_max_FX xs : forall hi,
  nan hi = false -> Forall (fun x => nan x = false) xs ->
  FX (fold_left JS.max_step xs hi) = fold_left Rmax (map FX xs) (FX hi) /\
  nan (fold_left JS.max_step xs hi) = false.
Proof.
  induction xs as [|x xs IH]; intros hi Nh H; simpl.
  - split; [reflexivity|assumption].
  - inversion H; subst. destruct (max_step_FX hi x Nh H2) as [E N].
    rewrite <- E. apply IH; assumption.
Qed.

Lemma fold_min_FX xs : forall lo,
  nan lo = false -> Forall (fun x => nan x = false) xs ->
  FX (fold_left JS.min_step xs lo) = fold_left Rmin (map FX xs) (FX lo) /\
  nan (fold_left JS.min_step xs lo) = false.
Proof.
  induction xs as [|x xs IH]; intros lo Nh H; simpl.
  - split; [reflexivity|assumption].
  - inversion H; subst. destruct (min_step_FX lo x Nh H2) as [E N].
    rewrite <- E. apply IH; assumption.
Qed.

Lemma FX_neg_infinity : FX PrimFloat.neg_infinity = - huge /\ nan PrimFloat.neg_infinity = false.
Proof. split; reflexivity. Qed.

Lemma FX_infinity : FX PrimFloat.infinity = huge /\ nan PrimFloat.infinity = false.
Proof. split; reflexivity. Qed.

Theorem Math_max_FX xs :
  Forall (fun x => nan x = false) xs ->
  FX (JS.Math_max xs) = fold_left Rmax (map FX xs) (- huge) /\
  nan (JS.Math_max xs) = false.
Proof.
  intros H. unfold JS.Math_max. rewrite (proj2 (existsb_nan xs) H).
  destruct FX_neg_infinity as [E N]. rewrite <- E. apply fold_max_FX; assumption.
Qed.

Theorem Math_min_FX xs :
  Forall (fun x => nan x = false) xs ->
  FX (JS.Math_min xs) = fold_left Rmin (map FX xs) huge /\
  nan (JS.Math_min xs) = false.
Proof.
  intros H. unfold JS.Math_min. rewrite (proj2 (existsb_nan xs) H).
  destruct FX_infinity as [E N]. rewrite <- E. apply fold_min_FX; assumption.
Qed.

Lemma Math_max2_FX a b :
  nan a = false -> nan b = false ->
  FX (JS.Math_max [a; b]) = Rmax (FX a) (FX b) /\ nan (JS.Math_max [a; b]) = false.
Proof.
  intros Na Nb. destruct (Math_max_FX [a; b]) as [E N]; [repeat constructor; assumption|].
  split; [|assumption]. rewrite E. simpl.
  assert (B := FX_bound a). rewrite (Rmax_right (- huge)) by lra. reflexivity.
Qed.

Lemma Math_min2_FX a b :
  nan a = false -> nan b = false ->
  FX (JS.Math_min [a; b]) = Rmin (FX a) (FX b) /\ nan (JS.Math_min [a; b]) = false.
Proof.
  intros Na Nb. destruct (Math_min_FX [a; b]) as [E N]; [repeat constructor; assumption|].
  split; [|assumption]. rewrite E. simpl.
  assert (B := FX_bound a). rewrite (Rmin_right huge) by lra. reflexivity.
Qed.

Lemma Math_max3_FX a b c :
  nan a = false -> nan b = false -> nan c = false ->
  FX (JS.Math_max [a; b; c]) = Rmax (Rmax (FX a) (FX b)) (FX c) /\
  nan (JS.Math_max [a; b; c]) = false.
Proof.
  intros Na Nb Nc.
  destruct (Math_max_FX [a; b; c]) as [E N]; [repeat constructor; assumption|].
  split; [|assumption]. rewrite E. simpl.
  assert (B := FX_bound a). rewrite (Rmax_right (- huge)) by lra. reflexivity.
Qed.

Lemma Math_min3_FX a b c :
  nan a = false -> nan b = false -> nan c = false ->
  FX (JS.Math_min [a; b; c]) = Rmin (Rmin (FX a) (FX b)) (FX c) /\
  nan (JS.Math_min [a; b; c]) = false.
Proof.
  intros Na Nb Nc.
  destruct (Math_min_FX [a; b; c]) as [E N]; [repeat constructor; assumption|].
  split; [|assumption]. rewrite E. simpl.
  assert (B := FX_bound a). rewrite (Rmin_right huge) by lra. reflexivity.
Qed.

(** ** The two zeros *)

(** Numbers of equal non-zero value are the same number. *)
Lemma FX_inj a b :
  nan a = false -> nan b = false -> FX a = FX b -> FX a <> 0 -> a = b.
Proof.
  intros Na Nb E NZ. apply Prim2SF_inj.
  apply SFX_inj; auto using Prim2SF_valid.
Qed.

Lemma is_pos_zero_spec x :
  JS.is_pos_zero x = match Prim2SF x with S754_zero false => true | _ => false end.
Proof.
  unfold JS.is_pos_zero. rewrite classify_spec. unfold SF64classify, SFclassify.
  destruct (Prim2SF x) as [s|s| |s m e]; try (destruct s); try reflexivity;
    destruct (Z.eqb _ _); reflexivity.
Qed.

Lemma is_neg_zero_spec x :
  JS.is_neg_zero x = match Prim2SF x with S754_zero true => true | _ => false end.
Proof.
  unfold JS.is_neg_zero. rewrite classify_spec. unfold SF64classify, SFclassify.
  destruct (Prim2SF x) as [s|s| |s m e]; try (destruct s); try reflexivity;
    destruct (Z.eqb _ _); reflexivity.
Qed.

Lemma FX_zero_inv x :
  nan x = false -> FX x = 0 -> exists s, Prim2SF x = S754_zero s.
Proof.
  unfold nan, FX. assert (H := huge_pos). destruct (Prim2SF x) as [s|s| |s m e]; cbn [SFX SFnan].
  - intros _ _. exists s; reflexivity.
  - intros _ E. destruct s; simpl in E; lra.
  - discriminate.
  - intros _ E. assert (P := pos_value m e). destruct s; simpl in E; lra.
Qed.

Lemma ltb_irrefl_FX a b : FX a = FX b -> (a <? b)%float = false.
Proof.
  intros E. destruct (a <? b)%float eqn:L; [|reflexivity].
  apply ltb_FX in L. destruct L as (_ & _ & L). lra.
Qed.

Lemma max_step_comm a b :
  nan a = false -> nan b = false -> JS.max_step a b = JS.max_step b a.
Proof.
  intros Na Nb. unfold JS.max_step.
  destruct (JS.is_pos_zero b && JS.is_neg_zero a) eqn:C1.
  - apply andb_true_iff in C1. destruct C1 as [Pb Na'].
    assert (E : FX b = FX a) by (rewrite (is_pos_zero_FX _ Pb), (is_neg_zero_FX _ Na'); reflexivity).
    rewrite (ltb_irrefl_FX _ _ E).
    rewrite is_neg_zero_spec in Na'. rewrite is_pos_zero_spec.
    destruct (Prim2SF a) as [[|]| | |]; try discriminate. reflexivity.
  - destruct (JS.is_pos_zero a && JS.is_neg_zero b) eqn:C2.
    + apply andb_true_iff in C2. destruct C2 as [Pa Nb'].
      assert (E : FX a = FX b) by (rewrite (is_pos_zero_FX _ Pa), (is_neg_zero_FX _ Nb'); reflexivity).
      rewrite (ltb_irrefl_FX _ _ E). reflexivity.
    + destruct (a <? b)%float eqn:L1; destruct (b <? a)%float eqn:L2; try reflexivity.
      * apply ltb_FX in L1, L2. destruct L1 as (_ & _ & L1). destruct L2 as (_ & _ & L2). lra.
      * apply ltb_false_FX in L1, L2; auto.
        assert (E : FX a = FX b) by lra.
        destruct (Req_dec (FX a) 0) as [Z|NZ].
        -- destruct (FX_zero_inv a Na Z) as [sa Ha].
           destruct (FX_zero_inv b Nb ltac:(lra)) as [sb Hb].
           rewrite !is_pos_zero_spec, !is_neg_zero_spec, Ha, Hb in *.
           apply Prim2SF_inj. rewrite Ha, Hb.
           destruct sa, sb; try reflexivity; simpl in *; discriminate.
        -- apply FX_inj; auto.
Qed.

Lemma min_step_comm a b :
  nan a = false -> nan b = false -> JS.min_step a b = JS.min_step b a.
Proof.
  intros Na Nb. unfold JS.min_step.
  destruct (JS.is_neg_zero b && JS.is_pos_zero a) eqn:C1.
  - apply andb_true_iff in C1. destruct C1 as [Pb Na'].
    assert (E : FX b = FX a) by (rewrite (is_neg_zero_FX _ Pb), (is_pos_zero_FX _ Na'); reflexivity).
    rewrite (ltb_irrefl_FX _ _ (eq_sym E)).
    rewrite is_pos_zero_spec in Na'. rewrite is_neg_zero_spec.
    destruct (Prim2SF a) as [[|]| | |]; try discriminate. reflexivity.
  - destruct (JS.is_neg_zero a && JS.is_pos_zero b) eqn:C2.
    + apply andb_true_iff in C2. destruct C2 as [Pa Nb'].
      assert (E : FX a = FX b) by (rewrite (is_neg_zero_FX _ Pa), (is_pos_zero_FX _ Nb'); reflexivity).
      rewrite (ltb_irrefl_FX _ _ (eq_sym E)). reflexivity.
    + destruct (b <? a)%float eqn:L1; destruct (a <? b)%float eqn:L2; try reflexivity.
      * apply ltb_FX in L1, L2. destruct L1 as (_ & _ & L1). destruct L2 as (_ & _ & L2). lra.
      * apply ltb_false_FX in L1, L2; auto.
        assert (E : FX a = FX b) by lra.
        destruct (Req_dec (FX a) 0) as [Z|NZ].
        -- destruct (FX_zero_inv a Na Z) as [sa Ha].
           destruct (FX_zero_inv b Nb ltac:(lra)) as [sb Hb].
           rewrite !is_pos_zero_spec, !is_neg_zero_spec, Ha, Hb in *.
           apply Prim2SF_inj. rewrite Ha, Hb.
           destruct sa, sb; try reflexivity; simpl in *; discriminate.
        -- apply FX_inj; auto.
Qed.

Lemma max_step_neg_infinity a :
  nan a = false -> JS.max_step PrimFloat.neg_infinity a = a.
Proof.
  intros Na. unfold JS.max_step.
  replace (JS.is_neg_zero PrimFloat.neg_infinity) with false by reflexivity.
  rewrite andb_false_r.
  destruct (PrimFloat.neg_infinity <? a)%float eqn:L; [reflexivity|].
  apply ltb_false_FX in L; [|reflexivity|assumption].
  destruct FX_neg_infinity as [E N]. rewrite E in L.
  assert (B := FX_bound a). assert (H := huge_pos).
  apply FX_inj; auto; lra.
Qed.

Lemma min_step_infinity a :
  nan a = false -> JS.min_step PrimFloat.infinity a = a.
Proof.
  intros Na. unfold JS.min_step.
  replace (JS.is_pos_zero PrimFloat.infinity) with false by reflexivity.
  rewrite andb_false_r.
  destruct (a <? PrimFloat.infinity)%float eqn:L; [reflexivity|].
  apply ltb_false_FX in L; [|assumption|reflexivity].
  destruct FX_infinity as [E N]. rewrite E in L.
  assert (B := FX_bound a). assert (H := huge_pos).
  apply FX_inj; auto; lra.
Qed.

Theorem Math_max_comm a b : JS.Math_max [a; b] = JS.Math_max [b; a].
Proof.
  unfold JS.Math_max. cbn [existsb fold_left]. rewrite !orb_false_r, !is_nan_spec.
  destruct (nan a) eqn:Na; destruct (nan b) eqn:Nb; try reflexivity.
  cbn [orb]. rewrite !max_step_neg_infinity by assumption. apply max_step_comm; assumption.
Qed.

Theorem Math_min_comm a b : JS.Math_min [a; b] = JS.Math_min [b; a].
Proof.
  unfold JS.Math_min. cbn [existsb fold_left]. rewrite !orb_false_r, !is_nan_spec.
  destruct (nan a) eqn:Na; destruct (nan b) eqn:Nb; try reflexivity.
  cbn [orb]. rewrite !min_step_infinity by assumption. apply min_step_comm; assumption.
Qed.

(** ** The remainder *)

Lemma fin_within_max x : fin x = true -> within (- max_value) max_value x.
Proof.
  intros F. apply within_intro; [reflexivity|reflexivity|apply fin_nan, F|].
  rewrite opp_FX. unfold fin in F. unfold FX at 2 3. assert (V := Prim2SF_valid x).
  assert (EM : FX max_value = IZR (2 ^ 53 - 1) * bpow 971).
  { unfold FX.
    assert (E : Prim2SF max_value = S754_finite false 9007199254740991 971)
      by (vm_compute; reflexivity).
    rewrite E. cbn [SFX sgn]. reflexivity. }
  rewrite EM.
  assert (P971 := bpow_gt_0 971).
  assert (Pm : 0 < IZR (2 ^ 53 - 1)) by (apply IZR_lt; lia).
  assert (PM : 0 < IZR (2 ^ 53 - 1) * bpow 971) by (apply Rmult_lt_0_compat; assumption).
  destruct (Prim2SF x) as [s|s| |s m e]; try discriminate; cbn [SFX].
  - lra.
  - assert (D := valid_digits _ _ _ V). apply valid_finite in V. destruct V as [_ He].
    destruct (digits2_pos_bounds m) as [_ B].
    assert (2 ^ Z.pos (digits2_pos m) <= 2 ^ 53)%Z by (apply Z.pow_le_mono_r; lia).
    assert (Hm : IZR (Zpos m) <= IZR (2 ^ 53 - 1)) by (apply IZR_le; lia).
    assert (Hb : bpow e <= bpow 971) by (apply bpow_le; assumption).
    assert (P := bpow_gt_0 e). assert (Pz : 0 < IZR (Zpos m)) by (apply IZR_lt; lia).
    assert (Hprod : IZR (Zpos m) * bpow e <= IZR (2 ^ 53 - 1) * bpow 971).
    { apply Rmult_le_compat; lra. }
    assert (Pv := pos_value m e).
    destruct s; cbn [sgn]; lra.
Qed.

Lemma SF2Prim_FX z :
  valid_binary z = true -> FX (SF2Prim z) = SFX z /\ nan (SF2Prim z) = SFnan z.
Proof.
  intros V. unfold FX, nan. rewrite Prim2SF_SF2Prim by assumption. split; reflexivity.
Qed.

(** The remainder by a positive number [y] lies between [-y] and [y]. *)
Theorem rem_within x y :
  fin x = true -> fin y = true -> 0 < FX y -> within (- y) y (JS.rem x y).
Proof.
  intros Fx Fy Py.
  assert (Fo : fin (- y) = true) by (rewrite opp_fin; assumption).
  assert (Vy := Prim2SF_valid y).
  assert (Ry : RND (FX y) (FX y)) by (apply RND_valid; assumption).
  assert (Fy' := Fy).
  unfold JS.rem. unfold fin in Fx, Fy. unfold FX in Py.
  destruct (Prim2SF y) as [sy|sy| |sy my ey] eqn:Ey; try discriminate;
    [cbn [SFX] in Py; lra|].
  assert (Sy : sy = false).
  { destruct sy; [|reflexivity]. cbn [SFX sgn] in Py. assert (P := pos_value my ey). lra. }
  subst sy.
  assert (Vy' : FX y = IZR (Zpos my) * bpow ey) by (unfold FX; rewrite Ey; reflexivity).
  destruct (Prim2SF x) as [sx|sx| |sx mx ex] eqn:Ex; try discriminate.
  - apply within_intro; auto.
    + unfold nan. rewrite Ex. reflexivity.
    + rewrite opp_FX. unfold FX at 2 3. rewrite Ex. cbn [SFX]. rewrite Vy'.
      assert (P := pos_value my ey). lra.
  - set (e := Z.min ex ey).
    set (Y := (Zpos my * 2 ^ (ey - e))%Z).
    assert (PY : (0 < Y)%Z).
    { unfold Y. assert (0 < 2 ^ (ey - e))%Z by (apply Z.pow_pos_nonneg; unfold e; lia). lia. }
    assert (Hr := Z.mod_pos_bound (Zpos mx * 2 ^ (ex - e)) Y PY).
    destruct ((Zpos mx * 2 ^ (ex - e)) mod Y)%Z as [|p|p] eqn:Er; try lia.
    + assert (P := pos_value my ey).
      destruct sx; apply within_intro; auto; try reflexivity; rewrite opp_FX, Vy';
        (replace (FX PrimFloat.neg_zero) with 0 by reflexivity) ||
        (replace (FX PrimFloat.zero) with 0 by reflexivity); lra.
    + destruct (binary_normalize_RND (JS.signed sx p) e false) as (R & N & V).
      destruct (SF2Prim_FX _ V) as [E1 E2].
      assert (Hv : - FX y <= IZR (JS.signed sx p) * bpow e <= FX y).
      { assert (Hp : IZR (Zpos p) * bpow e <= FX y).
        { rewrite Vy'. rewrite <- (IZR_bpow_shift (Zpos my) (ey - e) ey) by (unfold e; lia).
          fold Y. replace (ey - (ey - e))%Z with e by lia.
          assert (P := bpow_gt_0 e). assert (IZR (Zpos p) <= IZR Y) by (apply IZR_le; lia). nra. }
        assert (P0 := pos_value p e).
        destruct sx; cbn [JS.signed cond_Zopp].
        - change (- Z.pos p)%Z with (Z.neg p). change (Z.neg p) with (- Z.pos p)%Z.
          rewrite opp_IZR. lra.
        - lra. }
      apply within_intro; auto.
      * rewrite E2. assumption.
      * rewrite E1, opp_FX. split.
        -- assert (Ro : RND (- FX y) (- FX y)).
           { rewrite <- opp_FX. apply RND_valid; [apply Prim2SF_valid|exact Fo]. }
           apply (RND_mono _ _ _ _ Ro R). lra.
        -- apply (RND_mono _ _ _ _ R Ry). lra.
Qed.

(** ** The error of one rounding *)

(** Rounding moves a real below [2^k] by at most [2^(k-54)]. *)
Lemma RNDpos_error v r k :
  0 < v < bpow k -> (-1021 <= k <= 1023)%Z -> RNDpos v r ->
  - bpow (k - 54) <= r - v <= bpow (k - 54).
Proof.
  intros [Pv Hv] Hk (E & M & G & [HM _] & ->).
  assert (PE := bpow_gt_0 E).
  assert (HE : (E <= k - 53)%Z).
  { destruct G as [[-> _]|[_ [G _]]]; [lia|].
    assert (L : bpow (E + 52) < bpow k) by lra. apply bpow_lt_inv in L. lia. }
  assert (Hh : bpow (E - 1) <= bpow (k - 54)) by (apply bpow_le; lia).
  assert (E1 : bpow (E - 1) = bpow E / 2).
  { rewrite bpow_sub, bpow_1. reflexivity. }
  assert (Q : v / bpow E * bpow E = v) by (field; lra).
  assert (B : - (bpow E / 2) <= IZR M * bpow E - v <= bpow E / 2) by nra.
  assert (Hhuge : bpow k + bpow (k - 54) <= huge).
  { unfold huge. assert (bpow k <= bpow 1023) by (apply bpow_le; lia).
    assert (bpow (k - 54) <= bpow 1023) by (apply bpow_le; lia).
    replace 1024%Z with (1023 + 1)%Z by lia. rewrite bpow_add, bpow_1. lra. }
  rewrite Rmin_left by lra. lra.
Qed.

Lemma RND_error v r k :
  RND v r -> - bpow k < v < bpow k -> (-1021 <= k <= 1023)%Z ->
  - bpow (k - 54) <= r - v <= bpow (k - 54).
Proof.
  intros [[-> ->]|[[P H]|[N H]]] Hv Hk.
  - assert (P := bpow_gt_0 (k - 54)). lra.
  - apply (RNDpos_error v r k); auto. lra.
  - assert (B := RNDpos_error (- v) (- r) k ltac:(lra) Hk H). lra.
Qed.

Lemma RND_fin z v k :
  RND v (FX z) -> nan z = false -> - bpow k < v < bpow k -> (-1021 <= k <= 1023)%Z ->
  fin z = true.
Proof.
  intros R N Hv Hk. assert (B := RND_error _ _ _ R Hv Hk).
  apply fin_of_bound; [exact N|].
  assert (bpow k <= bpow 1023) by (apply bpow_le; lia).
  assert (bpow (k - 54) < bpow 1023) by (apply bpow_lt; lia).
  unfold huge. replace 1024%Z with (1023 + 1)%Z by lia. rewrite bpow_add, bpow_1.
  assert (P := bpow_gt_0 1023). lra.
Qed.

(** The four operations, with the error of their rounding. *)
Lemma add_error x y k :
  fin x = true -> fin y = true ->
  - bpow k < FX x + FX y < bpow k -> (-1021 <= k <= 1023)%Z ->
  - bpow (k - 54) <= FX (x + y)%float - (FX x + FX y) <= bpow (k - 54) /\
  fin (x + y)%float = true.
Proof.
  intros Fx Fy B Hk. destruct (add_RND x y Fx Fy) as [R N].
  split; [apply (RND_error _ _ _ R B Hk)|apply (RND_fin _ _ _ R N B Hk)].
Qed.

Lemma sub_error x y k :
  fin x = true -> fin y = true ->
  - bpow k < FX x - FX y < bpow k -> (-1021 <= k <= 1023)%Z ->
  - bpow (k - 54) <= FX (x - y)%float - (FX x - FX y) <= bpow (k - 54) /\
  fin (x - y)%float = true.
Proof.
  intros Fx Fy B Hk. destruct (sub_RND x y Fx Fy) as [R N].
  split; [apply (RND_error _ _ _ R B Hk)|apply (RND_fin _ _ _ R N B Hk)].
Qed.

Lemma mul_error x y k :
  fin x = true -> fin y = true ->
  - bpow k < FX x * FX y < bpow k -> (-1021 <= k <= 1023)%Z ->
  - bpow (k - 54) <= FX (x * y)%float - FX x * FX y <= bpow (k - 54) /\
  fin (x * y)%float = true.
Proof.
  intros Fx Fy B Hk. destruct (mul_RND x y Fx Fy) as [R N].
  split; [apply (RND_error _ _ _ R B Hk)|apply (RND_fin _ _ _ R N B Hk)].
Qed.

Lemma div_error x y k :
  fin x = true -> fin y = true -> FX y <> 0 ->
  - bpow k < FX x / FX y < bpow k -> (-1021 <= k <= 1023)%Z ->
  - bpow (k - 54) <= FX (x / y)%float - FX x / FX y <= bpow (k - 54) /\
  fin (x / y)%float = true.
Proof.
  intros Fx Fy NZ B Hk. destruct (div_RND x y Fx Fy NZ) as [R N].
  split; [apply (RND_error _ _ _ R B Hk)|apply (RND_fin _ _ _ R N B Hk)].
Qed.

(** Powers of two as numerals. *)
Lemma bpow_neg n : (0 <= n)%Z -> bpow (- n) = / IZR (2 ^ n).
Proof. intros H. rewrite bpow_opp, bpow_IZR by assumption. reflexivity. Qed.

(** The value of a number given by its mantissa and exponent. *)
Lemma FX_finite c s m e :
  Prim2SF c = S754_finite s m e -> FX c = IZR (JS.signed s m) * bpow e /\ fin c = true.
Proof.
  intros E. unfold FX, fin. rewrite E. cbn [SFX SFfin]. split; [|reflexivity].
  apply signed_value.
Qed.

(** ** hexToHsl *)

Local Close Scope string_scope.
Local Close Scope R_scope.
Local Close Scope float_scope.
Local Close Scope Z_scope.
Local Open Scope float_scope.

Lemma zrange_In lo n i : (lo <= i < lo + Z.of_nat n)%Z -> In i (zrange lo n).
Proof.
  intros H. unfold zrange. apply in_map_iff. exists (Z.to_nat (i - lo)). split; [lia|].
  apply in_seq. lia.
Qed.

Lemma forallb_zrange f lo n :
  forallb f (zrange lo n) = true ->
  forall i, (lo <= i < lo + Z.of_nat n)%Z -> f i = true.
Proof.
  intros H i Hi. rewrite forallb_forall in H. apply H, zrange_In, Hi.
Qed.

Lemma forallb2_zrange f lo n lo' n' :
  forallb (fun i => forallb (f i) (zrange lo' n')) (zrange lo n) = true ->
  forall i j, (lo <= i < lo + Z.of_nat n)%Z -> (lo' <= j < lo' + Z.of_nat n')%Z ->
              f i j = true.
Proof.
  intros H i j Hi Hj.
  apply (forallb_zrange (f i) lo' n'); [|assumption].
  apply (forallb_zrange (fun i => forallb (f i) (zrange lo' n')) lo n); assumption.
Qed.

Lemma unit_pairs :
  forallb (fun i => forallb (unit_pair_ok i) (zrange 0 256)) (zrange 0 256) = true.
Proof. vm_compute. reflexivity. Qed.

Lemma unit_pair i j :
  byte i -> byte j ->
  JS.max_step (unit i) (unit j) = unit (Z.max i j) /\
  JS.min_step (unit i) (unit j) = unit (Z.min i j) /\
  (unit i <? unit j) = (i <? j)%Z /\
  (unit i =? unit j) = (i =? j)%Z /\
  (unit i <=? unit j) = (i <=? j)%Z /\
  within 0 1 (unit i).
Proof.
  intros Hi Hj.
  assert (H := forallb2_zrange unit_pair_ok 0 256 0 256 unit_pairs i j
                 ltac:(unfold byte in Hi; lia) ltac:(unfold byte in Hj; lia)).
  unfold unit_pair_ok in H. rewrite !andb_true_iff in H.
  destruct H as ((((((H1 & H2) & H3) & H4) & H5) & H6) & H7).
  apply FloatAxioms.Leibniz.eqb_spec in H1, H2.
  apply Bool.eqb_prop in H3, H4, H5.
  repeat split; auto.
Qed.

Lemma unit_01 i : byte i -> within 0 1 (unit i).
Proof. intros H. apply (unit_pair i i H H). Qed.

Lemma unit_nan i : byte i -> nan (unit i) = false.
Proof. intros H. apply within_nan with 0 1, unit_01, H. Qed.

Lemma unit_fin i : byte i -> fin (unit i) = true.
Proof. intros H. apply within_fin with 0 1, unit_01, H. Qed.

Lemma unit_within lo c hi :
  byte lo -> byte hi -> (lo <= c <= hi)%Z -> within (unit lo) (unit hi) (unit c).
Proof.
  intros Hl Hh Hc. assert (Bc : byte c) by (unfold byte in *; lia).
  repeat split; try (apply unit_fin; assumption).
  - destruct (unit_pair lo c Hl Bc) as (_ & _ & _ & _ & E & _). rewrite E. apply Z.leb_le. lia.
  - destruct (unit_pair c hi Bc Hh) as (_ & _ & _ & _ & E & _). rewrite E. apply Z.leb_le. lia.
Qed.

Lemma Math_max3_unit r g b :
  byte r -> byte g -> byte b ->
  JS.Math_max [unit r; unit g; unit b] = unit (Z.max (Z.max r g) b).
Proof.
  intros Hr Hg Hb. unfold JS.Math_max. cbn [existsb fold_left].
  rewrite !is_nan_spec, !unit_nan by assumption. cbn [orb].
  rewrite max_step_neg_infinity by (apply unit_nan; assumption).
  destruct (unit_pair r g Hr Hg) as (E & _). rewrite E.
  assert (Hm : byte (Z.max r g)) by (unfold byte in *; lia).
  destruct (unit_pair _ b Hm Hb) as (E' & _). exact E'.
Qed.

Lemma Math_min3_unit r g b :
  byte r -> byte g -> byte b ->
  JS.Math_min [unit r; unit g; unit b] = unit (Z.min (Z.min r g) b).
Proof.
  intros Hr Hg Hb. unfold JS.Math_min. cbn [existsb fold_left].
  rewrite !is_nan_spec, !unit_nan by assumption. cbn [orb].
  rewrite min_step_infinity by (apply unit_nan; assumption).
  destruct (unit_pair r g Hr Hg) as (_ & E & _). rewrite E.
  assert (Hm : byte (Z.min r g)) by (unfold byte in *; lia).
  destruct (unit_pair _ b Hm Hb) as (_ & E' & _). exact E'.
Qed.

Lemma spread_pairs :
  forallb (fun M => forallb (spread_ok M) (zrange 0 256)) (zrange 0 256) = true.
Proof. vm_compute. reflexivity. Qed.

Lemma between_within lo hi x :
  fin lo = true -> fin hi = true -> between lo hi x = true -> within lo hi x.
Proof.
  intros F1 F2 H. apply andb_true_iff in H. destruct H. repeat split; assumption.
Qed.

Lemma rounds_to_intro y lo hi A B :
  within A B y ->
  (Z.abs lo < 2 ^ 53)%Z -> (Z.abs hi < 2 ^ 53)%Z ->
  (JS.of_Z lo <=? JS.Math_round A) = true ->
  (JS.Math_round B <=? JS.of_Z hi) = true ->
  rounds_to y lo hi.
Proof.
  intros W Hlo Hhi L1 L2.
  assert (Fy := within_fin _ _ _ W).
  assert (WR := within_round _ _ _ W). apply within_FX in WR.
  apply leb_FX in L1, L2. destruct L1 as (_ & _ & L1). destruct L2 as (_ & _ & L2).
  destruct (of_Z_FX lo Hlo) as [E1 _]. destruct (of_Z_FX hi Hhi) as [E2 _].
  destruct (Math_round_spec y Fy) as (n & En & Fn & Bn).
  rewrite E1 in L1. rewrite E2 in L2. rewrite En in WR.
  assert (Hn : (lo <= n <= hi)%Z) by (split; apply le_IZR; lra).
  exists n. split; [assumption|]. split; [|exact Bn].
  destruct (of_Z_FX n ltac:(lia)) as [E3 F3].
  apply eqb_FX. repeat split; auto using fin_nan. congruence.
Qed.

Lemma FX_pos c : (0 <? c) = true -> (0 < FX c)%R.
Proof. intros H. apply ltb_FX in H. destruct H as (_ & _ & H). exact H. Qed.

Lemma FX_nonneg c : (0 <=? c) = true -> (0 <= FX c)%R.
Proof. intros H. apply leb_FX in H. destruct H as (_ & _ & H). exact H. Qed.

Lemma FX_nonpos c : (c <=? 0) = true -> (FX c <= 0)%R.
Proof. intros H. apply leb_FX in H. destruct H as (_ & _ & H). exact H. Qed.

Lemma sub_nonpos x y :
  fin x = true -> fin y = true -> (FX x <= FX y)%R -> (x - y <=? 0) = true.
Proof.
  intros Fx Fy H. destruct (sub_RND x y Fx Fy) as [R N].
  apply leb_FX. repeat split; auto.
  apply (RND_mono _ _ _ _ R (or_introl (conj eq_refl eq_refl))). lra.
Qed.

Lemma sub_nonneg x y :
  fin x = true -> fin y = true -> (FX y <= FX x)%R -> (0 <=? x - y) = true.
Proof.
  intros Fx Fy H. destruct (sub_RND x y Fx Fy) as [R N].
  apply leb_FX. repeat split; auto.
  apply (RND_mono _ _ _ _ (or_introl (conj eq_refl eq_refl)) R). lra.
Qed.

Section Hsl.

Variables r g b x y : Z.
Hypotheses (Hr : byte r) (Hg : byte g) (Hb : byte b).

Let M := Z.max (Z.max r g) b.
Let m := Z.min (Z.min r g) b.

Lemma M_byte : byte M.
Proof using Hr Hg Hb. unfold M, byte in *. lia. Qed.

Lemma m_byte : byte m.
Proof using Hr Hg Hb. unfold m, byte in *. lia. Qed.

Hypotheses (Hx : (m <= x <= M)%Z) (Hy : (m <= y <= M)%Z).

Lemma x_byte : byte x.
Proof using Hr Hg Hb Hx. clear Hy. assert (A := M_byte). assert (B := m_byte). unfold byte in *. lia. Qed.

Lemma y_byte : byte y.
Proof using Hr Hg Hb Hy. clear Hx. assert (A := M_byte). assert (B := m_byte). unfold byte in *. lia. Qed.

Lemma lightness_rounds :
  rounds_to ((unit M + unit m) / 2 * 100) 0 100.
Proof using Hr Hg Hb.
  assert (WM := unit_01 M M_byte). assert (Wm := unit_01 m m_byte).
  assert (W1 : within (0 + 0) (1 + 1) (unit M + unit m))
    by (apply within_add; auto; fin_closed).
  assert (W2 : within ((0 + 0) / 2) ((1 + 1) / 2) ((unit M + unit m) / 2)).
  { apply within_div_r; auto; try fin_closed. apply FX_pos; reflexivity. }
  assert (W3 : within ((0 + 0) / 2 * 100) ((1 + 1) / 2 * 100) ((unit M + unit m) / 2 * 100)).
  { apply within_mul_r; auto; try fin_closed. apply FX_nonneg; reflexivity. }
  apply (rounds_to_intro _ _ _ _ _ W3); try lia; fin_closed.
Qed.

Hypothesis Hlt : (m < M)%Z.

Let d := unit M - unit m.

Lemma spread_facts :
  (0 < FX d)%R /\ within 0 1 d /\ within (-1) 0 (unit m - unit M) /\
  within (-1) 0 ((unit m - unit M) / d) /\ within 0 1 (d / d) /\
  within 0 0 (0 / d) /\
  within 0 1 (if 0.5 <? (unit M + unit m) / 2
              then d / (2 - unit M - unit m) else d / (unit M + unit m)).
Proof using Hr Hg Hb Hlt.
  assert (H := forallb2_zrange spread_ok 0 256 0 256 spread_pairs M m
                 ltac:(assert (B := M_byte); unfold byte in B; lia)
                 ltac:(assert (B := m_byte); unfold byte in B; lia)).
  unfold spread_ok in H. rewrite (proj2 (Z.ltb_lt m M) Hlt) in H.
  fold d in H. cbv zeta in H. rewrite !andb_true_iff in H.
  destruct H as ((((((H0 & H1) & H2) & H3) & H4) & H5) & H6).
  split; [apply FX_pos; assumption|].
  repeat (split; [apply between_within; auto; fin_closed|]).
  apply between_within; auto; fin_closed.
Qed.

Lemma numerator_within : within (unit m - unit M) (unit M - unit m) (unit x - unit y).
Proof using Hr Hg Hb Hlt Hx Hy.
  destruct spread_facts as (_ & Wd & Wn & _).
  apply within_sub.
  - apply unit_within; auto using M_byte, m_byte.
  - apply unit_within; auto using M_byte, m_byte.
  - apply (within_fin _ _ _ Wn).
  - apply (within_fin _ _ _ Wd).
Qed.

Lemma unit_le : (x <= y)%Z -> (FX (unit x) <= FX (unit y))%R.
Proof using Hr Hg Hb Hx Hy.
  intros H. destruct (unit_pair x y x_byte y_byte) as (_ & _ & _ & _ & E & _).
  assert (L : (unit x <=? unit y) = true) by (rewrite E; apply Z.leb_le; assumption).
  apply leb_FX in L. tauto.
Qed.

(** The quotient [(x - y) / d] of the hue lies between -1 and 1. *)
Lemma quotient_within : within (-1) 1 ((unit x - unit y) / d).
Proof using Hr Hg Hb Hlt Hx Hy.
  destruct spread_facts as (Pd & Wd & Wn & Wq1 & Wq2 & _).
  assert (W := numerator_within). fold d in W.
  apply within_weaken with ((unit m - unit M) / d) (d / d); [ | fin_closed | fin_closed | | ].
  - apply within_div_r; auto.
    + apply (within_fin _ _ _ Wd).
    + apply (within_fin _ _ _ Wq1).
    + apply (within_fin _ _ _ Wq2).
  - apply Wq1.
  - apply Wq2.
Qed.

(** It is at most 0 when [x] is the smaller byte, at least 0 otherwise. *)
Lemma quotient_nonpos : (x <= y)%Z -> within (-1) 0 ((unit x - unit y) / d).
Proof using Hr Hg Hb Hlt Hx Hy.
  intros Hxy. destruct spread_facts as (Pd & Wd & Wn & Wq1 & _ & Wq0 & _).
  assert (W := numerator_within).
  assert (W' : within (unit m - unit M) 0 (unit x - unit y)).
  { destruct W as (F1 & _ & L1 & _). repeat split; auto.
    apply sub_nonpos; auto using unit_fin, x_byte, y_byte, unit_le. }
  apply within_weaken with ((unit m - unit M) / d) (0 / d); [ | fin_closed | fin_closed | | ].
  - apply within_div_r; auto.
    + apply (within_fin _ _ _ Wd).
    + apply (within_fin _ _ _ Wq1).
    + apply (within_fin _ _ _ Wq0).
  - apply Wq1.
  - apply Wq0.
Qed.

Lemma quotient_nonneg : (y <= x)%Z -> within 0 1 ((unit x - unit y) / d).
Proof using Hr Hg Hb Hlt Hx Hy.
  intros Hxy. destruct spread_facts as (Pd & Wd & Wn & _ & Wq2 & Wq0 & _).
  assert (W := numerator_within).
  assert (W' : within 0 (unit M - unit m) (unit x - unit y)).
  { destruct W as (_ & F2 & _ & L2). repeat split; auto.
    apply sub_nonneg; auto using unit_fin, x_byte, y_byte.
    destruct (unit_pair y x y_byte x_byte) as (_ & _ & _ & _ & E & _).
    assert (L : (unit y <=? unit x) = true) by (rewrite E; apply Z.leb_le; assumption).
    apply leb_FX in L. tauto. }
  apply within_weaken with (0 / d) (d / d); [ | fin_closed | fin_closed | | ].
  - apply within_div_r; auto.
    + apply (within_fin _ _ _ Wd).
    + apply (within_fin _ _ _ Wq0).
    + apply (within_fin _ _ _ Wq2).
  - apply Wq0.
  - apply Wq2.
Qed.

End Hsl.

(** From a range of the hue sextant [h1] to the rounded hue. *)
Lemma hue_rounds h1 A B :
  within A B h1 ->
  fin (A / 6) = true -> fin (B / 6) = true ->
  fin (A / 6 * 360) = true -> fin (B / 6 * 360) = true ->
  (0 <=? JS.Math_round (A / 6 * 360)) = true ->
  (JS.Math_round (B / 6 * 360) <=? 360) = true ->
  rounds_to (h1 / 6 * 360) 0 360.
Proof.
  intros W F1 F2 F3 F4 L1 L2.
  assert (W1 : within (A / 6) (B / 6) (h1 / 6)).
  { apply within_div_r; auto; try fin_closed. apply FX_pos; reflexivity. }
  assert (W2 : within (A / 6 * 360) (B / 6 * 360) (h1 / 6 * 360)).
  { apply within_mul_r; auto; try fin_closed. apply FX_nonneg; reflexivity. }
  apply (rounds_to_intro _ _ _ _ _ W2); try lia; assumption.
Qed.

Lemma const_rounds (c : float) lo hi :
  fin c = true ->
  (JS.of_Z lo <=? JS.Math_round c) = true -> (JS.Math_round c <=? JS.of_Z hi) = true ->
  (Z.abs lo < 2 ^ 53)%Z -> (Z.abs hi < 2 ^ 53)%Z ->
  rounds_to c lo hi.
Proof.
  intros F L1 L2 H1 H2. apply (rounds_to_intro c lo hi c c); auto. apply within_refl, F.
Qed.

Lemma band_255 a : byte (JS.band a 255).
Proof.
  unfold JS.band, byte. change (JS.ToInt32 255) with (Z.ones 8).
  rewrite Z.land_ones by lia. assert (H := Z.mod_pos_bound (JS.ToInt32 a) (2 ^ 8) eq_refl).
  change (2 ^ 8)%Z with 256%Z in *. lia.
Qed.

Lemma hexToRgb_bytes H :
  byte (hexToRgb H).(r) /\ byte (hexToRgb H).(g) /\ byte (hexToRgb H).(b).
Proof. unfold hexToRgb. cbn [r g b]. repeat split; apply band_255. Qed.

Theorem rgbToHsl_rounds c :
  byte c.(r) -> byte c.(g) -> byte c.(b) ->
  let '(h0, s0, l0) := unrounded c in
  rounds_to (h0 * 360) 0 360 /\ rounds_to (s0 * 100) 0 100 /\ rounds_to (l0 * 100) 0 100.
Proof.
  destruct c as [cr cg cb]. cbn [r g b]. intros Hr Hg Hb.
  unfold unrounded. cbn [r g b].
  change (JS.of_Z cr / 255) with (unit cr). change (JS.of_Z cg / 255) with (unit cg).
  change (JS.of_Z cb / 255) with (unit cb).
  rewrite Math_max3_unit, Math_min3_unit by assumption.
  set (M := Z.max (Z.max cr cg) cb). set (m := Z.min (Z.min cr cg) cb).
  assert (HM := M_byte cr cg cb Hr Hg Hb). assert (Hm := m_byte cr cg cb Hr Hg Hb).
  fold M in HM. fold m in Hm.
  assert (HL := lightness_rounds cr cg cb Hr Hg Hb). fold M m in HL.
  destruct (unit_pair M m HM Hm) as (_ & _ & _ & Eq & _). rewrite Eq.
  destruct (Z.eqb_spec M m) as [E|NE].
  - split; [|split; [|exact HL]]; apply const_rounds; try lia; fin_closed.
  - assert (Hlt : (m < M)%Z) by (unfold M, m in *; lia).
    destruct (spread_facts cr cg cb Hr Hg Hb Hlt) as (Pd & Wd & _ & _ & _ & _ & Ws).
    fold M m in Pd, Wd, Ws.
    split; [|split; [|exact HL]].
    + assert (Rm : (m <= cr <= M)%Z) by (unfold M, m; lia).
      assert (Gm : (m <= cg <= M)%Z) by (unfold M, m; lia).
      assert (Bm : (m <= cb <= M)%Z) by (unfold M, m; lia).
      destruct (unit_pair M cr HM Hr) as (_ & _ & _ & E1 & _). rewrite E1.
      destruct (unit_pair M cg HM Hg) as (_ & _ & _ & E2 & _). rewrite E2.
      destruct (unit_pair cg cb Hg Hb) as (_ & _ & E3 & _). rewrite E3.
      destruct (Z.eqb_spec M cr) as [Er|Nr].
      * destruct (Z.ltb_spec cg cb) as [Lt|Ge].
        -- assert (W := quotient_nonpos cr cg cb cg cb Hr Hg Hb Gm Bm Hlt ltac:(lia)). fold M m in W.
           assert (W6 : within (-1 + 6) (0 + 6) ((unit cg - unit cb) / (unit M - unit m) + 6)).
           { apply within_add; auto; try fin_closed. apply within_refl; fin_closed. }
           apply (hue_rounds _ _ _ W6); fin_closed.
        -- assert (W := quotient_nonneg cr cg cb cg cb Hr Hg Hb Gm Bm Hlt ltac:(lia)). fold M m in W.
           assert (W6 : within (0 + 0) (1 + 0) ((unit cg - unit cb) / (unit M - unit m) + 0)).
           { apply within_add; auto; try fin_closed. apply within_refl; fin_closed. }
           apply (hue_rounds _ _ _ W6); fin_closed.
      * destruct (Z.eqb_spec M cg) as [Eg|Ng].
        -- assert (W := quotient_within cr cg cb cb cr Hr Hg Hb Bm Rm Hlt). fold M m in W.
           assert (W6 : within (-1 + 2) (1 + 2) ((unit cb - unit cr) / (unit M - unit m) + 2)).
           { apply within_add; auto; try fin_closed. apply within_refl; fin_closed. }
           apply (hue_rounds _ _ _ W6); fin_closed.
        -- assert (W := quotient_within cr cg cb cr cg Hr Hg Hb Rm Gm Hlt). fold M m in W.
           assert (W6 : within (-1 + 4) (1 + 4) ((unit cr - unit cg) / (unit M - unit m) + 4)).
           { apply within_add; auto; try fin_closed. apply within_refl; fin_closed. }
           apply (hue_rounds _ _ _ W6); fin_closed.
    + assert (W2 : within (0 * 100) (1 * 100)
                     ((if 0.5 <? (unit M + unit m) / 2
                       then (unit M - unit m) / (2 - unit M - unit m)
                       else (unit M - unit m) / (unit M + unit m)) * 100)).
      { apply within_mul_r; auto; try fin_closed. apply FX_nonneg; reflexivity. }
      apply (rounds_to_intro _ _ _ _ _ W2); try lia; fin_closed.
Qed.

(** ** hslToHex *)

Lemma RND_self c : fin c = true -> RND (FX c) (FX c).
Proof. intros F. apply RND_valid; [apply Prim2SF_valid|exact F]. Qed.

Lemma FX_of_Z_eq c n :
  (Z.abs n < 2 ^ 53)%Z -> c = JS.of_Z n -> FX c = IZR n /\ fin c = true.
Proof. intros H ->. apply of_Z_FX, H. Qed.

Lemma FX_0 : FX 0 = 0%R.
Proof. apply (FX_of_Z_eq 0 0); [lia|reflexivity]. Qed.

Lemma FX_one : FX 1 = 1%R.
Proof. apply (FX_of_Z_eq 1 1); [lia|reflexivity]. Qed.

Lemma FX_minus_one : FX (-1) = (-1)%R.
Proof. apply (FX_of_Z_eq (-1) (-1)); [lia|reflexivity]. Qed.

(** Product of a number between 0 and [ahi] with one between -1 and 1. *)
Lemma within_mul_unit ahi a t :
  within 0 ahi a -> within (-1) 1 t -> within (- ahi) ahi (a * t).
Proof.
  intros Wa Wt.
  assert (Fa := within_fin _ _ _ Wa). assert (Ft := within_fin _ _ _ Wt).
  assert (Ba := within_FX _ _ _ Wa). assert (Bt := within_FX _ _ _ Wt).
  destruct Wa as (_ & Fh & _).
  assert (Fo : fin (- ahi) = true) by (rewrite opp_fin; exact Fh).
  rewrite FX_one, FX_minus_one in Bt. rewrite FX_0 in Ba.
  destruct (mul_RND a t Fa Ft) as [R N].
  apply (RND_within _ _ _ _ _ _ (RND_self _ Fo) R (RND_self _ Fh)); auto.
  rewrite opp_FX. nra.
Qed.

(** The position [k] on the colour wheel, for any finite hue. *)
Lemma k_within hh n :
  fin hh = true -> within 0 8 n -> within (-12) 12 (JS.rem (n + hh / 30) 12).
Proof.
  intros F Wn. assert (W := fin_within_max hh F).
  assert (Wd : within (- max_value / 30) (max_value / 30) (hh / 30)).
  { apply within_div_r; [fin_closed|apply FX_pos; reflexivity|exact W|fin_closed|fin_closed]. }
  assert (Ws := within_add _ _ _ _ _ _ Wn Wd ltac:(fin_closed) ltac:(fin_closed)).
  apply within_fin in Ws.
  apply (rem_within _ 12 Ws); [fin_closed|apply FX_pos; reflexivity].
Qed.

(** The factor [Math.max(Math.min(k - 3, 9 - k, 1), -1)]. *)
Lemma t_within k :
  within (-12) 12 k -> within (-1) 1 (JS.Math_max [JS.Math_min [k - 3; 9 - k; 1]; -1]).
Proof.
  intros W.
  assert (W3 : within 3 3 3) by (apply within_refl; fin_closed).
  assert (W9 : within 9 9 9) by (apply within_refl; fin_closed).
  assert (W1 := within_sub _ _ _ _ _ _ W W3 ltac:(fin_closed) ltac:(fin_closed)).
  assert (W2 := within_sub _ _ _ _ _ _ W9 W ltac:(fin_closed) ltac:(fin_closed)).
  apply within_nan in W1, W2.
  destruct (Math_min3_FX (k - 3) (9 - k) 1 W1 W2 eq_refl) as [E1 N1].
  destruct (Math_max2_FX _ (-1) N1 eq_refl) as [E2 N2].
  apply within_intro; [fin_closed|fin_closed|exact N2|].
  rewrite E2, E1, FX_one, FX_minus_one.
  unfold Rmax, Rmin. repeat destruct Rle_dec; lra.
Qed.

Lemma cut_RND i :
  (0 <= i <= 1000)%Z -> RND (IZR i / 1000) (FX (cut i)) /\ fin (cut i) = true.
Proof.
  intros Hi. destruct (of_Z_FX i ltac:(lia)) as [E F].
  destruct (FX_of_Z_eq 1000 1000 ltac:(lia) eq_refl) as [E' F'].
  split.
  - destruct (div_RND (JS.of_Z i) 1000 F F') as [R _]; [rewrite E'; lra|].
    rewrite E, E' in R. exact R.
  - apply within_fin with (JS.of_Z 0 / 1000) (JS.of_Z 1000 / 1000).
    apply within_div_r; [exact F'|rewrite E'; lra| |fin_closed|fin_closed].
    apply within_of_Z; lia.
Qed.

Lemma grid_cell x :
  within 0 1 x -> exists i, (0 <= i < 1000)%Z /\ within (cut i) (cut (i + 1)) x.
Proof.
  intros W. assert (B := within_FX _ _ _ W). assert (F := within_fin _ _ _ W).
  rewrite FX_one, FX_0 in B.
  destruct (archimed (1000 * FX x)) as [A1 A2].
  set (j := (up (1000 * FX x) - 1)%Z).
  assert (Ej : IZR j = (IZR (up (1000 * FX x)) - 1)%R) by (unfold j; rewrite minus_IZR; reflexivity).
  assert (J0 : (0 <= j)%Z) by (apply Z.lt_succ_r, Z.lt_pred_lt_succ, lt_IZR; simpl; lra).
  assert (J1 : (j <= 1000)%Z) by (apply le_IZR; lra).
  assert (C : exists i, (0 <= i < 1000)%Z /\ (IZR i <= 1000 * FX x <= IZR (i + 1))%R).
  { destruct (Z.eq_dec j 1000) as [E|NE].
    - exists 999%Z. split; [lia|]. rewrite E in Ej. simpl. lra.
    - exists j. split; [lia|]. rewrite plus_IZR. lra. }
  destruct C as (i & Hi & Bi). exists i. split; [exact Hi|].
  destruct (cut_RND i ltac:(lia)) as [R1 F1].
  destruct (cut_RND (i + 1) ltac:(lia)) as [R2 F2].
  apply (RND_within _ _ _ _ _ _ R1 (RND_self _ F) R2); auto using fin_nan.
  lra.
Qed.

Lemma cells : forallb cell_ok (zrange 0 1000) = true.
Proof. vm_compute. reflexivity. Qed.

Lemma between_fin lo hi x :
  fin lo = true -> fin hi = true -> between lo hi x = true -> fin x = true.
Proof. intros F1 F2 H. apply within_fin with lo hi, between_within; assumption. Qed.

Lemma between_FX lo hi x :
  between lo hi x = true -> (FX lo <= FX x <= FX hi)%R.
Proof.
  intros H. apply andb_true_iff in H. destruct H as [H1 H2].
  apply leb_FX in H1, H2. tauto.
Qed.

Lemma channel_within i x ss t :
  (0 <= i < 1000)%Z -> within (cut i) (cut (i + 1)) x -> within 0 100 ss ->
  within (-1) 1 t ->
  within (-0.5) 255.375 (255 * (x - (ss * JS.Math_min [x; 1 - x]) / 100 * t)).
Proof.
  intros Hi Wx Ws Wt.
  assert (H := forallb_zrange cell_ok 0 1000 cells i ltac:(lia)).
  unfold cell_ok in H.
  set (lo := cut i) in *. set (hi := cut (i + 1)) in *.
  set (mhi := if hi <? 1 - lo then hi else 1 - lo) in *.
  set (ahi := 100 * mhi / 100) in *.
  rewrite !andb_true_iff in H.
  destruct H as ((((((((((B1 & B2) & B3) & B4) & B5) & B6) & B7) & B8) & B9) & B10) & B11).
  assert (F0 : fin 0 = true) by reflexivity.
  assert (F1 : fin 1 = true) by reflexivity.
  assert (W1 : within 1 1 1) by (apply within_refl; reflexivity).
  assert (Wc : within (1 - hi) (1 - lo) (1 - x)).
  { apply within_sub; [exact W1|exact Wx| |].
    - eapply between_fin; [| |exact B3]; reflexivity.
    - eapply between_fin; [| |exact B4]; reflexivity. }
  assert (Wm : within 0 mhi (JS.Math_min [x; 1 - x])).
  { destruct (Math_min2_FX x (1 - x)) as [E N];
      [eapply within_nan; eassumption|eapply within_nan; eassumption|].
    apply within_intro; auto.
    - eapply between_fin; [| |exact B5]; reflexivity.
    - rewrite E. apply within_FX in Wx, Wc.
      apply between_FX in B1, B3. rewrite FX_0 in B1, B3.
      split.
      + rewrite FX_0. unfold Rmin. destruct Rle_dec; lra.
      + unfold mhi. destruct (hi <? 1 - lo); unfold Rmin; destruct Rle_dec; lra. }
  assert (W100 : within 0 100 ss) by exact Ws.
  assert (Wp : within (0 * 0) (100 * mhi) (ss * JS.Math_min [x; 1 - x])).
  { apply within_mul_pos;
      [exact Ws|exact Wm|rewrite FX_0; lra|rewrite FX_0; lra|reflexivity|].
    eapply between_fin; [| |exact B6]; reflexivity. }
  assert (Wa : within 0 ahi ((ss * JS.Math_min [x; 1 - x]) / 100)).
  { apply within_weaken with (0 * 0 / 100) ahi.
    - apply within_div_r; [reflexivity|apply FX_pos; reflexivity|exact Wp|reflexivity|].
      eapply between_fin; [| |exact B7]; reflexivity.
    - reflexivity.
    - eapply between_fin; [| |exact B7]; reflexivity.
    - reflexivity.
    - apply andb_true_iff in B7. destruct B7 as [B7 _].
      apply leb_FX. apply leb_FX in B7. destruct B7 as (_ & N & _). repeat split; auto. lra. }
  assert (Wat := within_mul_unit _ _ _ Wa Wt).
  assert (Wcol : within (lo - ahi) (hi - - ahi) (x - (ss * JS.Math_min [x; 1 - x]) / 100 * t)).
  { apply within_sub; [exact Wx|exact Wat| |].
    - eapply between_fin; [| |exact B8]; reflexivity.
    - eapply between_fin; [| |exact B9]; reflexivity. }
  apply within_weaken with (255 * (lo - ahi)) (255 * (hi - - ahi)).
  - apply within_mul_l; [reflexivity|apply FX_nonneg; reflexivity|exact Wcol| |].
    + eapply between_fin; [| |exact B10]; reflexivity.
    + eapply between_fin; [| |exact B11]; reflexivity.
  - reflexivity.
  - reflexivity.
  - apply andb_true_iff in B10. tauto.
  - apply andb_true_iff in B11. tauto.
Qed.

Lemma byte_hex_table : forallb byte_hex_ok (zrange 0 256) = true.
Proof. vm_compute. reflexivity. Qed.

Lemma hex_digit_lower d : is_lower_hex (JS.hex_digit d) = true.
Proof.
  destruct d as [|p|p]; try reflexivity.
  do 4 (try destruct p as [p|p|]); reflexivity.
Qed.

(** A number whose value is a byte is rendered as its two digits; a zero of
    either sign is rendered as "00". *)
Lemma render_byte x n :
  byte n -> nan x = false -> FX x = IZR n ->
  JS.padStart (JS.toString16 x) 2 "0" = hex2 n.
Proof.
  intros Hn N E. destruct (Z.eq_dec n 0) as [->|NZ].
  - destruct (FX_zero_inv x N E) as [s Es]. unfold JS.toString16. rewrite Es. reflexivity.
  - destruct (of_Z_FX n ltac:(unfold byte in Hn; lia)) as [E' F'].
    assert (x = JS.of_Z n) as ->.
    { apply FX_inj; auto using fin_nan; [congruence|].
      rewrite E. intros C. apply eq_IZR in C. contradiction. }
    apply String.eqb_eq.
    apply (forallb_zrange byte_hex_ok 0 256 byte_hex_table). unfold byte in Hn. lia.
Qed.

(** Every channel of [hslToHex] is a byte, rendered as two digits. *)
Lemma channel_byte hh ss ll n :
  fin hh = true -> within 0 100 ss -> within 0 100 ll -> within 0 8 n ->
  exists c, byte c /\
    (hslChannel hh ss ll n =? JS.of_Z c) = true /\
    JS.padStart (JS.toString16 (hslChannel hh ss ll n)) 2 "0" = hex2 c.
Proof.
  intros F Ws Wl Wn.
  assert (Wl' : within 0 1 (ll / 100)).
  { apply within_weaken with (0 / 100) (100 / 100); try reflexivity.
    apply within_div_r; [reflexivity|apply FX_pos; reflexivity|exact Wl|reflexivity|reflexivity]. }
  destruct (grid_cell _ Wl') as (i & Hi & Wi).
  assert (Wt := t_within _ (k_within hh n F Wn)).
  assert (W := channel_within i _ ss _ Hi Wi Ws Wt).
  destruct (rounds_to_intro _ 0 255 _ _ W ltac:(lia) ltac:(lia) eq_refl eq_refl)
    as (c & Hc & E & _).
  exists c. split; [exact Hc|]. split; [exact E|].
  apply eqb_FX in E. destruct E as (N & _ & E).
  destruct (of_Z_FX c ltac:(lia)) as [E' _].
  apply render_byte; [exact Hc|exact N|].
  transitivity (FX (JS.of_Z c)); [exact E|exact E'].
Qed.

Lemma test_hex_hex2 r g b :
  test_hex (String "#" (hex2 r ++ hex2 g ++ hex2 b)) = true.
Proof.
  unfold hex2. cbn [String.append test_hex forallb].
  rewrite !hex_digit_lower. reflexivity.
Qed.

(** C9: for every finite hue and every saturation and lightness between 0 and
    100, each channel that [hslToHex] computes is a byte, the result is "#"
    followed by the two lowercase hexadecimal digits of each byte, and it
    passes the shape test of the page. *)
Theorem hslToHex_shape hh ss ll :
  fin hh = true ->
  (0 <=? ss) = true -> (ss <=? 100) = true ->
  (0 <=? ll) = true -> (ll <=? 100) = true ->
  exists r g b,
    byte r /\ byte g /\ byte b /\
    (hslChannel hh ss ll 0 =? JS.of_Z r) = true /\
    (hslChannel hh ss ll 8 =? JS.of_Z g) = true /\
    (hslChannel hh ss ll 4 =? JS.of_Z b) = true /\
    hslToHex hh ss ll = String "#" (hex2 r ++ hex2 g ++ hex2 b) /\
    test_hex (hslToHex hh ss ll) = true.
Proof.
  intros F S0 S1 L0 L1.
  assert (Ws : within 0 100 ss) by (repeat split; assumption).
  assert (Wl : within 0 100 ll) by (repeat split; assumption).
  destruct (channel_byte hh ss ll 0 F Ws Wl) as (r & Hr & Er & Sr);
    [apply between_within; reflexivity|].
  destruct (channel_byte hh ss ll 8 F Ws Wl) as (g & Hg & Eg & Sg);
    [apply between_within; reflexivity|].
  destruct (channel_byte hh ss ll 4 F Ws Wl) as (b & Hb & Eb & Sb);
    [apply between_within; reflexivity|].
  exists r, g, b.
  assert (E : hslToHex hh ss ll = String "#" (hex2 r ++ hex2 g ++ hex2 b)).
  { unfold hslToHex. rewrite Sr, Sg, Sb. reflexivity. }
  repeat split; try assumption; try (apply Hr); try (apply Hg); try (apply Hb).
  rewrite E. apply test_hex_hex2.
Qed.

Lemma hslToHex_shape_witness :
  exists r g b,
    byte r /\ byte g /\ byte b /\
    (hslChannel 233 100 66 0 =? JS.of_Z r) = true /\
    (hslChannel 233 100 66 8 =? JS.of_Z g) = true /\
    (hslChannel 233 100 66 4 =? JS.of_Z b) = true /\
    hslToHex 233 100 66 = String "#" (hex2 r ++ hex2 g ++ hex2 b) /\
    test_hex (hslToHex 233 100 66) = true.
Proof. apply (hslToHex_shape 233 100 66); reflexivity. Defined.

(** ** generateVariantFromHex *)

Lemma bpow_53 : (IZR (2 ^ 53) * bpow (-53) = 1)%R.
Proof.
  rewrite <- (bpow_IZR 53) by lia. rewrite <- bpow_add. apply bpow_0.
Qed.

Lemma FX_below_1 : FX below_1 = (1 - bpow (-53))%R.
Proof.
  unfold FX.
  assert (E : Prim2SF below_1 = S754_finite false 9007199254740991 (-53))
    by (vm_compute; reflexivity).
  rewrite E. cbn [SFX sgn]. rewrite <- bpow_53.
  change 9007199254740991%Z with (2 ^ 53 - 1)%Z. rewrite minus_IZR. lra.
Qed.

(** No number lies strictly between [below_1] and 1. *)
Lemma below_one x : fin x = true -> (FX x < 1)%R -> (FX x <= FX below_1)%R.
Proof.
  intros F H. rewrite FX_below_1. unfold fin in F. unfold FX in *.
  assert (V := Prim2SF_valid x). assert (P53 := bpow_gt_0 (-53)).
  assert (Hh : (bpow (-53) <= bpow (-1))%R) by (apply bpow_le; lia).
  rewrite bpow_m1 in Hh.
  destruct (Prim2SF x) as [s|s| |s m e]; try discriminate; cbn [SFX] in *; [lra|].
  assert (Pv := pos_value m e).
  destruct s; cbn [sgn] in *; [lra|].
  apply valid_finite in V. destruct V as [Hc _]. rewrite fexp64_eq in Hc.
  destruct (digits2_pos_bounds m) as [_ Hm].
  destruct (Z_le_gt_dec (-53) e) as [Le|Gt].
  - rewrite <- (IZR_bpow_shift (Zpos m) (e + 53) e) in * by lia.
    replace (e - (e + 53))%Z with (-53)%Z in * by lia.
    set (N := (Z.pos m * 2 ^ (e + 53))%Z) in *.
    assert (HN : (N < 2 ^ 53)%Z).
    { apply lt_IZR. rewrite <- bpow_53 in H.
      apply Rmult_lt_reg_r in H; assumption. }
    assert (HN' : (IZR N <= IZR (2 ^ 53) - 1)%R).
    { rewrite <- minus_IZR. apply IZR_le. lia. }
    rewrite <- bpow_53 at 1. nra.
  - assert (Hd : (Zpos (digits2_pos m) + e <= -1)%Z) by lia.
    assert (Hb : (bpow (Zpos (digits2_pos m) + e) <= bpow (-1))%R) by (apply bpow_le; lia).
    rewrite bpow_m1, bpow_add in Hb.
    assert (Hm' : (IZR (Zpos m) < bpow (Zpos (digits2_pos m)))%R).
    { rewrite bpow_IZR by lia. apply IZR_lt. exact Hm. }
    assert (Pe := bpow_gt_0 e). nra.
Qed.

Lemma draw_within u : draw u -> within 0 below_1 u.
Proof.
  intros [H0 H1]. apply leb_FX in H0. apply ltb_FX in H1.
  destruct H0 as (_ & N & B0). destruct H1 as (_ & _ & B1). rewrite FX_one in B1.
  assert (F : fin u = true).
  { apply fin_of_bound; [exact N|]. assert (Hh := huge_gt_int 1 ltac:(lia)).
    rewrite FX_0 in B0. lra. }
  apply within_intro; [reflexivity|reflexivity|exact N|].
  split; [exact B0|apply below_one; assumption].
Qed.

Lemma integer_of_Z n : (Z.abs n < 2 ^ 53)%Z -> integer (JS.of_Z n) n.
Proof. apply of_Z_FX. Qed.

Lemma integer_eq x n :
  (Z.abs n < 2 ^ 53)%Z -> n <> 0%Z -> integer x n -> x = JS.of_Z n.
Proof.
  intros Hn NZ [E F]. destruct (of_Z_FX n Hn) as [E' F'].
  apply FX_inj; auto using fin_nan; [congruence|].
  rewrite E. intros C. apply eq_IZR in C. contradiction.
Qed.

Lemma integer_add a b n m :
  integer a n -> integer b m -> (Z.abs (n + m) < 2 ^ 53)%Z -> integer (a + b) (n + m).
Proof.
  intros [Ea Fa] [Eb Fb] H. destruct (add_RND a b Fa Fb) as [R N].
  destruct (of_Z_FX (n + m) H) as [E F].
  rewrite Ea, Eb, <- plus_IZR, <- E in R. apply RND_FX in R; [|exact F].
  split; [congruence|]. apply fin_of_bound; [exact N|].
  rewrite R, E. apply huge_gt_int, H.
Qed.

Lemma integer_mul a b n m :
  integer a n -> integer b m -> (Z.abs (n * m) < 2 ^ 53)%Z -> integer (a * b) (n * m).
Proof.
  intros [Ea Fa] [Eb Fb] H. destruct (mul_RND a b Fa Fb) as [R N].
  destruct (of_Z_FX (n * m) H) as [E F].
  rewrite Ea, Eb, <- mult_IZR, <- E in R. apply RND_FX in R; [|exact F].
  split; [congruence|]. apply fin_of_bound; [exact N|].
  rewrite R, E. apply huge_gt_int, H.
Qed.

Lemma integer_within x n lo hi :
  integer x n -> (Z.abs lo < 2 ^ 53)%Z -> (Z.abs hi < 2 ^ 53)%Z ->
  within (JS.of_Z lo) (JS.of_Z hi) x <-> (lo <= n <= hi)%Z.
Proof.
  intros [E F] Hlo Hhi.
  destruct (of_Z_FX lo Hlo) as [E1 F1]. destruct (of_Z_FX hi Hhi) as [E2 F2].
  split.
  - intros W. apply within_FX in W. rewrite E, E1, E2 in W.
    split; apply le_IZR; lra.
  - intros H. apply within_intro; auto using fin_nan.
    rewrite E, E1, E2. split; apply IZR_le; lia.
Qed.

(** [clamp] on integers. *)
Lemma integer_clamp v n lo a hi b :
  integer v n -> integer lo a -> integer hi b ->
  integer (clamp v lo hi) (Z.min (Z.max n a) b).
Proof.
  intros [Ev Fv] [El Fl] [Eh Fh]. unfold clamp.
  destruct (Math_max2_FX v lo) as [E1 N1]; auto using fin_nan.
  destruct (Math_min2_FX (JS.Math_max [v; lo]) hi) as [E2 N2]; auto using fin_nan.
  assert (E : FX (JS.Math_min [JS.Math_max [v; lo]; hi]) = IZR (Z.min (Z.max n a) b)).
  { rewrite E2, E1, Ev, El, Eh. unfold Rmin, Rmax.
    repeat destruct Rle_dec;
      repeat match goal with
             | H : (IZR _ <= IZR _)%R |- _ => apply le_IZR in H
             | H : ~ (IZR _ <= IZR _)%R |- _ =>
                 apply Rnot_le_lt in H; apply lt_IZR in H
             end; f_equal; lia. }
  split; [exact E|]. apply fin_of_bound; [exact N2|].
  rewrite E2, E1, Ev, El, Eh.
  apply fin_bound in Fv, Fl, Fh. rewrite Ev in Fv. rewrite El in Fl. rewrite Eh in Fh.
  unfold Rmin, Rmax. repeat destruct Rle_dec; lra.
Qed.

Lemma integer_of_eqb x n :
  (Z.abs n < 2 ^ 53)%Z -> (x =? JS.of_Z n) = true -> integer x n.
Proof.
  intros Hn E. apply eqb_FX in E. destruct E as (N & _ & E).
  destruct (of_Z_FX n Hn) as [E' _]. rewrite E' in E.
  split; [exact E|]. apply fin_of_bound; [exact N|]. rewrite E. apply huge_gt_int, Hn.
Qed.

Lemma randomInRange_integer min max u m lo hi :
  draw u -> integer min m ->
  (Z.abs m <= 1000)%Z -> (Z.abs lo <= 2000)%Z -> (Z.abs hi <= 2000)%Z ->
  range_ok min max lo hi = true ->
  exists n, (lo <= n <= hi)%Z /\ integer (randomInRange min max u) n.
Proof.
  intros D Hm Bm Blo Bhi H. unfold range_ok in H.
  set (w := max - min + 1) in *.
  rewrite !andb_true_iff in H. destruct H as ((((((B1 & B2) & B3) & B4) & B5) & B6) & B7).
  assert (F0 : fin 0 = true) by reflexivity.
  assert (F1000 : fin (JS.of_Z 1000) = true) by reflexivity.
  assert (Flo : fin (JS.of_Z lo) = true) by (apply of_Z_FX; lia).
  assert (Fhi : fin (JS.of_Z hi) = true) by (apply of_Z_FX; lia).
  assert (Fw : fin w = true) by (apply (between_fin _ _ _ F0 F1000 B1)).
  assert (Pw : (0 <= FX w)%R) by (apply between_FX in B1; rewrite FX_0 in B1; lra).
  assert (W := draw_within u D).
  assert (Wp : within (0 * w) (below_1 * w) (u * w)).
  { apply within_mul_r; auto; eapply between_fin; [| |eassumption| | |eassumption]; assumption. }
  assert (Wf := within_floor _ _ _ Wp).
  destruct (Math_floor_spec (u * w) (within_fin _ _ _ Wp)) as (n0 & E0 & Ff & _).
  assert (Hn0 : (0 <= n0 <= 1000)%Z).
  { apply within_FX in Wf. apply between_FX in B4, B5.
    destruct (of_Z_FX 1000 ltac:(lia)) as [E1000 _].
    rewrite FX_0 in B4. rewrite E1000 in B5. rewrite E0 in Wf.
    split; apply le_IZR; lra. }
  assert (I : integer (JS.Math_floor (u * w) + min) (n0 + m)).
  { apply integer_add; [split; assumption|exact Hm|lia]. }
  exists (n0 + m)%Z. split; [|exact I].
  apply (integer_within _ _ lo hi I); try lia.
  destruct Hm as [_ Fm].
  assert (Ws : within (JS.Math_floor (0 * w) + min) (JS.Math_floor (below_1 * w) + min)
                 (JS.Math_floor (u * w) + min)).
  { apply within_add; [exact Wf|apply within_refl, Fm| |].
    - apply (between_fin _ _ _ Flo Fhi B6).
    - apply (between_fin _ _ _ Flo Fhi B7). }
  apply within_weaken with (1 := Ws); auto.
  - apply andb_true_iff in B6. tauto.
  - apply andb_true_iff in B7. tauto.
Qed.

Lemma integer_lit c n : (Z.abs n < 2 ^ 53)%Z -> c = JS.of_Z n -> integer c n.
Proof. intros H ->. apply integer_of_Z, H. Qed.

(** The lightness shift is an integer from 12 to 20 or from -20 to -12. *)
Lemma lightShift_integer u1 u2 :
  draw u2 ->
  exists k, (12 <= Z.abs k <= 20)%Z /\ integer (lightShift u1 u2) k.
Proof.
  intros D. unfold lightShift. destruct (0.5 <? u1).
  - destruct (randomInRange_integer 12 20 u2 12 12 20 D) as (k & Hk & I);
      try lia; [apply integer_lit; [lia|reflexivity]|vm_compute; reflexivity|].
    exists k. split; [lia|exact I].
  - destruct (randomInRange_integer (-20) (-12) u2 (-20) (-20) (-12) D) as (k & Hk & I);
      try lia; [apply integer_lit; [lia|reflexivity]|vm_compute; reflexivity|].
    exists k. split; [lia|exact I].
Qed.

(** The saturation shift is an integer from -14 to 14. *)
Lemma saturationShift_integer shift u3 u4 :
  draw u4 ->
  exists j, (Z.abs j <= 14)%Z /\ integer (saturationShift shift u3 u4) j.
Proof.
  intros D. unfold saturationShift. destruct (0.5 <? u3).
  - destruct (randomInRange_integer (-8) 8 u4 (-8) (-8) 8 D) as (j & Hj & I);
      try lia; [apply integer_lit; [lia|reflexivity]|vm_compute; reflexivity|].
    exists j. split; [lia|exact I].
  - destruct (randomInRange_integer 6 14 u4 6 6 14 D) as (j & Hj & I);
      try lia; [apply integer_lit; [lia|reflexivity]|vm_compute; reflexivity|].
    destruct (0 <? shift).
    + exists (j * -1)%Z. split; [lia|].
      apply integer_mul; [exact I|apply integer_lit; [lia|reflexivity]|lia].
    + exists (j * 1)%Z. split; [lia|].
      apply integer_mul; [exact I|apply integer_lit; [lia|reflexivity]|lia].
Qed.

(** [hexToHsl] rounds the three unrounded values, each to an integer of its
    range. *)
Lemma hexToHsl_rounds H :
  let '(h0, s0, l0) := unrounded (hexToRgb H) in
  hexToHsl H = {| h := JS.Math_round (h0 * 360);
                  s := JS.Math_round (s0 * 100);
                  l := JS.Math_round (l0 * 100) |} /\
  rounds_to (h0 * 360) 0 360 /\ rounds_to (s0 * 100) 0 100 /\ rounds_to (l0 * 100) 0 100.
Proof.
  destruct (hexToRgb_bytes H) as (Hr & Hg & Hb).
  assert (R := rgbToHsl_rounds _ Hr Hg Hb).
  unfold hexToHsl, rgbToHsl.
  destruct (unrounded (hexToRgb H)) as [[h0 s0] l0]. split; [reflexivity|exact R].
Qed.

Lemma hexToHsl_integers H :
  exists hn sn ln,
    (0 <= hn <= 360)%Z /\ (0 <= sn <= 100)%Z /\ (0 <= ln <= 100)%Z /\
    integer (hexToHsl H).(h) hn /\ integer (hexToHsl H).(s) sn /\
    integer (hexToHsl H).(l) ln.
Proof.
  assert (R := hexToHsl_rounds H).
  destruct (unrounded (hexToRgb H)) as [[h0 s0] l0].
  destruct R as (E & (hn & Hh & Eh & _) & (sn & Hs & Es & _) & (ln & Hl & El & _)).
  rewrite E. cbn [h s l]. exists hn, sn, ln.
  split; [exact Hh|]. split; [exact Hs|]. split; [exact Hl|].
  split; [|split]; apply integer_of_eqb; try lia; assumption.
Qed.

(** C4: [hexToHsl] returns the three values it computed, each rounded by
    [Math.round] to the nearest integer (the upper one of two equally near):
    a hue from 0 to 360, both ends included, a saturation and a lightness
    from 0 to 100. *)
Theorem hexToHsl_range H :
  let '(h0, s0, l0) := unrounded (hexToRgb H) in
  hexToHsl H = {| h := JS.Math_round (h0 * 360);
                  s := JS.Math_round (s0 * 100);
                  l := JS.Math_round (l0 * 100) |} /\
  rounds_to (h0 * 360) 0 360 /\ rounds_to (s0 * 100) 0 100 /\ rounds_to (l0 * 100) 0 100.
Proof. exact (hexToHsl_rounds H). Qed.

(** C4 as stated fails at [#ff0001]: a valid colour whose hue is 360. *)
Lemma hexToHsl_hue_360 :
  test_hex "#ff0001" = true /\ (hexToHsl "#ff0001").(h) = 360 /\
  ((hexToHsl "#ff0001").(h) <? 360) = false.
Proof. vm_compute. repeat split. Qed.

(** [clamp] to integer bounds. *)
Lemma clamp_integer v n a b :
  integer v n -> (0 < a <= b)%Z -> (b <= 1000)%Z ->
  clamp v (JS.of_Z a) (JS.of_Z b) = JS.of_Z (Z.min (Z.max n a) b).
Proof.
  intros I Ha Hb. apply integer_eq; try lia.
  apply integer_clamp; [exact I| |]; apply integer_of_Z; lia.
Qed.

Lemma within_of_integer x n lo hi :
  integer x n -> (Z.abs lo < 2 ^ 53)%Z -> (Z.abs hi < 2 ^ 53)%Z -> (lo <= n <= hi)%Z ->
  within (JS.of_Z lo) (JS.of_Z hi) x.
Proof. intros I H1 H2 H. apply (integer_within x n lo hi I H1 H2), H. Qed.

(** ** Contrast *)

Lemma RND_fun v r1 r2 : RND v r1 -> RND v r2 -> r1 = r2.
Proof.
  intros H1 H2. apply Rle_antisym.
  - apply (RND_mono _ _ _ _ H1 H2), Rle_refl.
  - apply (RND_mono _ _ _ _ H2 H1), Rle_refl.
Qed.

(** The quotient of two numbers of the same non-zero value is 1. *)
Lemma div_same a b :
  fin a = true -> fin b = true -> FX a = FX b -> FX a <> 0%R -> a / b = 1.
Proof.
  intros Fa Fb E NZ.
  assert (NZb : FX b <> 0%R) by congruence.
  destruct (div_RND a b Fa Fb NZb) as [R N].
  assert (Eq : (FX a / FX b)%R = FX 1) by (rewrite FX_one, E; field; exact NZb).
  rewrite Eq in R.
  apply RND_FX in R; [|reflexivity].
  apply FX_inj; [exact N|reflexivity|exact R|rewrite R, FX_one; lra].
Qed.

Section ContrastFacts.

Variable Math_pow : float -> float -> float.

(** What the contrast computation needs of [Math.pow], which ECMAScript
    leaves implementation-approximated: [x ** 2.4] stays between 0 and 1 for
    [x] between 0 and 1, and [1 ** 2.4] is 1. *)
Hypothesis pow_unit : unit_range (fun x => Math_pow x 2.4).
Hypothesis pow_one : Math_pow 1 2.4 = 1.

Lemma linear_within v : byte v -> within 0 1 (linear Math_pow v).
Proof using pow_unit.
  intros Hv. unfold linear. change (JS.of_Z v / 255) with (unit v).
  assert (W := unit_01 v Hv). cbv zeta.
  destruct (unit v <=? 0.03928).
  - apply within_weaken with (0 / 12.92) (1 / 12.92); try reflexivity.
    apply within_div_r; [reflexivity|apply FX_pos; reflexivity|exact W|reflexivity|reflexivity].
  - assert (W1 : within (0 + 0.055) (1 + 0.055) (unit v + 0.055)).
    { apply within_add; [exact W|apply within_refl; reflexivity|reflexivity|reflexivity]. }
    assert (W2 : within 0 1 ((unit v + 0.055) / 1.055)).
    { apply within_weaken with ((0 + 0.055) / 1.055) ((1 + 0.055) / 1.055); try reflexivity.
      apply within_div_r;
        [reflexivity|apply FX_pos; reflexivity|exact W1|reflexivity|reflexivity]. }
    destruct W2 as (_ & _ & L1 & L2). destruct (pow_unit _ L1 L2) as [P1 P2].
    repeat split; assumption.
Qed.

(** Relative luminance lies between 0 and 1. *)
Lemma getLuminance_within c :
  byte c.(r) -> byte c.(g) -> byte c.(b) -> within 0 1 (getLuminance Math_pow c).
Proof using pow_unit.
  intros Hr Hg Hb. unfold getLuminance. cbn [map nth].
  assert (Wr := linear_within _ Hr). assert (Wg := linear_within _ Hg).
  assert (Wb := linear_within _ Hb).
  assert (W1 : within (0.2126 * 0) (0.2126 * 1) (0.2126 * linear Math_pow c.(r))).
  { apply within_mul_l; [reflexivity|apply FX_nonneg; reflexivity|exact Wr| |]; reflexivity. }
  assert (W2 : within (0.7152 * 0) (0.7152 * 1) (0.7152 * linear Math_pow c.(g))).
  { apply within_mul_l; [reflexivity|apply FX_nonneg; reflexivity|exact Wg| |]; reflexivity. }
  assert (W3 : within (0.0722 * 0) (0.0722 * 1) (0.0722 * linear Math_pow c.(b))).
  { apply within_mul_l; [reflexivity|apply FX_nonneg; reflexivity|exact Wb| |]; reflexivity. }
  assert (W12 := within_add _ _ _ _ _ _ W1 W2 eq_refl eq_refl).
  assert (W := within_add _ _ _ _ _ _ W12 W3 eq_refl eq_refl).
  apply within_weaken with (1 := W); reflexivity.
Qed.

Lemma luminance_hex H : within 0 1 (getLuminance Math_pow (hexToRgb H)).
Proof using pow_unit.
  destruct (hexToRgb_bytes H) as (Hr & Hg & Hb). apply getLuminance_within; assumption.
Qed.

Lemma contrast_quotient_within l1 l2 :
  within 0 1 l1 -> within 0 1 l2 -> within 1 ((1 + 0.05) / (0 + 0.05)) (quotient l1 l2).
Proof using.
  clear pow_unit pow_one.
  intros W1 W2. unfold quotient.
  assert (N1 := within_nan _ _ _ W1). assert (N2 := within_nan _ _ _ W2).
  assert (B1 := within_FX _ _ _ W1). assert (B2 := within_FX _ _ _ W2).
  rewrite FX_0, FX_one in B1, B2.
  destruct (Math_max2_FX l1 l2 N1 N2) as [EM NM].
  destruct (Math_min2_FX l1 l2 N1 N2) as [Em Nm].
  assert (WM : within 0 1 (JS.Math_max [l1; l2])).
  { apply within_intro; auto. rewrite EM, FX_0, FX_one.
    unfold Rmax. destruct Rle_dec; lra. }
  assert (Wm : within 0 1 (JS.Math_min [l1; l2])).
  { apply within_intro; auto. rewrite Em, FX_0, FX_one.
    unfold Rmin. destruct Rle_dec; lra. }
  assert (W5 : within 0.05 0.05 0.05) by (apply within_refl; reflexivity).
  assert (Wn := within_add _ _ _ _ _ _ WM W5 eq_refl eq_refl).
  assert (Wd := within_add _ _ _ _ _ _ Wm W5 eq_refl eq_refl).
  assert (Wq : within ((0 + 0.05) / (1 + 0.05)) ((1 + 0.05) / (0 + 0.05))
                 ((JS.Math_max [l1; l2] + 0.05) / (JS.Math_min [l1; l2] + 0.05))).
  { apply within_div_pos; [exact Wn|exact Wd| | |reflexivity|reflexivity].
    - apply FX_nonneg; reflexivity.
    - apply FX_pos; reflexivity. }
  assert (Fn := within_fin _ _ _ Wn). assert (Fd := within_fin _ _ _ Wd).
  assert (Pd : (0 < FX (JS.Math_min [l1; l2] + 0.05))%R).
  { apply within_FX in Wd. assert (P := FX_pos (0 + 0.05) eq_refl). lra. }
  assert (Hle : (FX (JS.Math_min [l1; l2] + 0.05) <= FX (JS.Math_max [l1; l2] + 0.05))%R).
  { destruct (add_RND _ 0.05 (within_fin _ _ _ Wm) eq_refl) as [Ra _].
    destruct (add_RND _ 0.05 (within_fin _ _ _ WM) eq_refl) as [Rb _].
    apply (RND_mono _ _ _ _ Ra Rb). rewrite EM, Em.
    unfold Rmax, Rmin. destruct Rle_dec; lra. }
  assert (NZ : FX (JS.Math_min [l1; l2] + 0.05) <> 0%R) by lra.
  destruct (div_RND _ _ Fn Fd NZ) as [R N].
  apply within_intro; [reflexivity|reflexivity|exact N|]. split.
  - assert (R1 : RND 1 (FX 1)) by (rewrite <- FX_one at 1; apply RND_self; reflexivity).
    apply (RND_mono _ _ _ _ R1 R).
    apply Rmult_le_reg_r with (FX (JS.Math_min [l1; l2] + 0.05)); [exact Pd|].
    unfold Rdiv. rewrite Rmult_assoc, Rinv_l by lra. lra.
  - apply within_FX in Wq. lra.
Qed.

Lemma rounded_quotient_within q :
  within 1 ((1 + 0.05) / (0 + 0.05)) q -> within 1 21 (JS.Math_round (q * 10) / 10).
Proof using.
  clear pow_unit pow_one.
  intros W.
  assert (W1 : within (1 * 10) ((1 + 0.05) / (0 + 0.05) * 10) (q * 10)).
  { apply within_mul_r; [reflexivity|apply FX_nonneg; reflexivity|exact W| |]; reflexivity. }
  assert (W2 := within_round _ _ _ W1).
  apply within_weaken with
    (JS.Math_round (1 * 10) / 10) (JS.Math_round ((1 + 0.05) / (0 + 0.05) * 10) / 10);
    [|fin_closed|fin_closed|fin_closed|fin_closed].
  apply within_div_r; [reflexivity|apply FX_pos; reflexivity|exact W2| |];
    fin_closed.
Qed.

Lemma getContrastRatio_eq A B :
  getContrastRatio Math_pow A B =
  JS.Math_round (quotient (getLuminance Math_pow (hexToRgb A))
                       (getLuminance Math_pow (hexToRgb B)) * 10) / 10.
Proof using. unfold getContrastRatio, quotient. reflexivity. Qed.

(** C10: relative luminance lies between 0 and 1, and the contrast ratio of
    two colours between 1 and 21. *)
Theorem getContrastRatio_range A B :
  (0 <=? getLuminance Math_pow (hexToRgb A)) = true /\
  (getLuminance Math_pow (hexToRgb A) <=? 1) = true /\
  (1 <=? getContrastRatio Math_pow A B) = true /\
  (getContrastRatio Math_pow A B <=? 21) = true.
Proof using pow_unit.
  clear pow_one.
  assert (WA := luminance_hex A). assert (WB := luminance_hex B).
  assert (W := rounded_quotient_within _ (contrast_quotient_within _ _ WA WB)).
  rewrite getContrastRatio_eq.
  destruct WA as (_ & _ & A0 & A1). destruct W as (_ & _ & R0 & R1).
  split; [exact A0|]. split; [exact A1|]. split; [exact R0|exact R1].
Qed.

Lemma getContrastRatio_same X : getContrastRatio Math_pow X X = 1.
Proof using pow_unit.
  clear pow_one.
  assert (W := luminance_hex X). unfold getContrastRatio. cbv zeta.
  set (L := getLuminance Math_pow (hexToRgb X)) in *.
  assert (N := within_nan _ _ _ W). assert (B := within_FX _ _ _ W).
  rewrite FX_0, FX_one in B.
  destruct (Math_max2_FX L L N N) as [EM NM].
  destruct (Math_min2_FX L L N N) as [Em Nm].
  assert (FM : fin (JS.Math_max [L; L]) = true).
  { apply fin_of_bound; [exact NM|]. rewrite EM. apply within_fin, fin_bound in W.
    unfold Rmax. destruct Rle_dec; lra. }
  assert (Fm : fin (JS.Math_min [L; L]) = true).
  { apply fin_of_bound; [exact Nm|]. rewrite Em. apply within_fin, fin_bound in W.
    unfold Rmin. destruct Rle_dec; lra. }
  assert (EMm : FX (JS.Math_max [L; L]) = FX (JS.Math_min [L; L])).
  { rewrite EM, Em. unfold Rmax, Rmin. destruct Rle_dec; lra. }
  assert (WM : within 0 1 (JS.Math_max [L; L])).
  { apply within_intro; auto. rewrite EM, FX_0, FX_one. unfold Rmax. destruct Rle_dec; lra. }
  assert (Wm : within 0 1 (JS.Math_min [L; L])).
  { apply within_intro; auto. rewrite Em, FX_0, FX_one. unfold Rmin. destruct Rle_dec; lra. }
  assert (W5 : within 0.05 0.05 0.05) by (apply within_refl; reflexivity).
  assert (Wn := within_add _ _ _ _ _ _ WM W5 eq_refl eq_refl).
  assert (Wd := within_add _ _ _ _ _ _ Wm W5 eq_refl eq_refl).
  destruct (add_RND _ 0.05 FM eq_refl) as [Ra _].
  destruct (add_RND _ 0.05 Fm eq_refl) as [Rb _].
  rewrite EMm in Ra. assert (E := RND_fun _ _ _ Ra Rb).
  assert (P : (0 < FX (JS.Math_max [L; L] + 0.05))%R).
  { apply within_FX in Wn. assert (P := FX_pos (0 + 0.05) eq_refl). lra. }
  rewrite (div_same _ _ (within_fin _ _ _ Wn) (within_fin _ _ _ Wd) E) by lra.
  vm_compute. reflexivity.
Qed.

(** C6: the contrast ratio of black and white is 21, and the contrast ratio of
    a colour with itself is 1. *)
Theorem getContrastRatio_ends :
  getContrastRatio Math_pow "#000000" "#ffffff" = 21 /\
  forall X, getContrastRatio Math_pow X X = 1.
Proof using pow_unit pow_one.
  split; [|exact getContrastRatio_same].
  unfold getContrastRatio, getLuminance.
  change (hexToRgb "#000000") with {| r := 0; g := 0; b := 0 |}.
  change (hexToRgb "#ffffff") with {| r := 255; g := 255; b := 255 |}.
  cbn [map nth r g b].
  assert (E0 : linear Math_pow 0 = 0) by reflexivity.
  assert (E1 : linear Math_pow 255 = 1) by exact pow_one.
  rewrite E0, E1. vm_compute. reflexivity.
Qed.

End ContrastFacts.

Lemma getContrastRatio_ends_witness :
  getContrastRatio (fun x _ => x) "#000000" "#ffffff" = 21 /\
  forall X, getContrastRatio (fun x _ => x) X X = 1.
Proof.
  apply (getContrastRatio_ends (fun x _ => x)).
  - intros x H0 H1. split; assumption.
  - reflexivity.
Defined.

Lemma getContrastRatio_range_witness :
  (0 <=? getLuminance (fun x _ => x) (hexToRgb "#5468ff")) = true /\
  (getLuminance (fun x _ => x) (hexToRgb "#5468ff") <=? 1) = true /\
  (1 <=? getContrastRatio (fun x _ => x) "#5468ff" "#bfe0ff") = true /\
  (getContrastRatio (fun x _ => x) "#5468ff" "#bfe0ff" <=? 21) = true.
Proof.
  apply (getContrastRatio_range (fun x _ => x)).
  intros x H0 H1. split; assumption.
Defined.

(** ** A round trip that moves a byte by 5 *)

(** C1 as stated fails at [#05d5de]: the round trip is [#05dae1], whose green
    byte 218 is 5 away from 213 and whose blue byte 225 is 3 away from 222. *)
Lemma roundTrip_far :
  test_hex "#05d5de" = true /\
  roundTrip "#05d5de" = "#05dae1"%string /\
  hexToRgb "#05d5de" = {| r := 5; g := 213; b := 222 |} /\
  hexToRgb "#05dae1" = {| r := 5; g := 218; b := 225 |}.
Proof. vm_compute. repeat split. Qed.

(** ** The hue and the factor of a channel *)

Lemma rgbToHsl_sextant cr cg cb :
  byte cr -> byte cg -> byte cb ->
  let M := Z.max (Z.max cr cg) cb in
  let m := Z.min (Z.min cr cg) cb in
  (m < M)%Z ->
  let '(p, q, c) := sextant cr cg cb in
  rgbToHsl {| r := cr; g := cg; b := cb |} =
  {| h := JS.Math_round (raw_hue p q (JS.of_Z c) M m);
     s := saturation_of M m; l := lightness_of M m |}.
Proof.
  intros Hr Hg Hb M m Hlt.
  assert (HM : byte M) by (unfold M, byte in *; lia).
  assert (Hm : byte m) by (unfold m, byte in *; lia).
  unfold rgbToHsl, unrounded, sextant. cbn [r g b]. fold M.
  change (JS.of_Z cr / 255) with (unit cr). change (JS.of_Z cg / 255) with (unit cg).
  change (JS.of_Z cb / 255) with (unit cb).
  rewrite Math_max3_unit, Math_min3_unit by assumption. fold M m.
  destruct (unit_pair M m HM Hm) as (_ & _ & _ & Eq & _). rewrite Eq.
  rewrite (proj2 (Z.eqb_neq M m)) by lia.
  destruct (unit_pair M cr HM Hr) as (_ & _ & _ & E1 & _). rewrite E1.
  destruct (unit_pair M cg HM Hg) as (_ & _ & _ & E2 & _). rewrite E2.
  destruct (unit_pair cg cb Hg Hb) as (_ & _ & E3 & _). rewrite E3.
  unfold raw_hue, saturation_of, lightness_of.
  destruct (M =? cr)%Z.
  - destruct (cg <? cb)%Z; reflexivity.
  - destruct (M =? cg)%Z; reflexivity.
Qed.

Local Close Scope string_scope.
Local Close Scope R_scope.
Local Close Scope float_scope.
Local Close Scope Z_scope.
Local Open Scope float_scope.
Local Open Scope R_scope.

(** The quotient of two perturbed reals. *)
Lemma quotient_error N D n d e :
  - e <= N - n <= e -> - e <= D - d <= e -> - d <= n <= d -> / 255 <= d ->
  0 <= e <= / 1000000 ->
  - (600 * e) <= N / D - n / d <= 600 * e.
Proof.
  intros HN HD Hn Hd He.
  assert (Pd : 0 < d) by lra.
  assert (PD : / 256 <= D) by lra.
  set (q0 := n / d). set (q := N / D).
  assert (E0 : q0 * d = n) by (unfold q0; field; lra).
  assert (Eq : q * D = N) by (unfold q; field; lra).
  assert (B0 : -1 <= q0 <= 1).
  { split.
    - apply Rmult_le_reg_r with d; [exact Pd|]. lra.
    - apply Rmult_le_reg_r with d; [exact Pd|]. lra. }
  assert (Ez : (q - q0) * D = (N - n) + q0 * (d - D)) by lra.
  assert (Bz : - (2 * e) <= (q - q0) * D <= 2 * e) by (rewrite Ez; nra).
  split.
  - apply Rmult_le_reg_r with D; [lra|]. nra.
  - apply Rmult_le_reg_r with D; [lra|]. nra.
Qed.

Lemma bpow_m53 : bpow (-53) = / 9007199254740992.
Proof. change (bpow (- (53)) = / IZR (2 ^ 53)). apply bpow_neg. lia. Qed.

Lemma bpow_m50 : bpow (-50) = / 1125899906842624.
Proof. change (bpow (- (50)) = / IZR (2 ^ 50)). apply bpow_neg. lia. Qed.

Lemma bpow_m45 : bpow (-45) = / 35184372088832.
Proof. change (bpow (- (45)) = / IZR (2 ^ 45)). apply bpow_neg. lia. Qed.

Lemma bpow_p1 : bpow 1 = 2.
Proof. apply bpow_1. Qed.

Lemma bpow_p4 : bpow 4 = 16.
Proof. rewrite bpow_IZR by lia. reflexivity. Qed.

Lemma bpow_p9 : bpow 9 = 512.
Proof. rewrite bpow_IZR by lia. reflexivity. Qed.

Lemma FX_lit c n : (Z.abs n < 2 ^ 53)%Z -> c = JS.of_Z n -> FX c = IZR n.
Proof. intros H E. apply (FX_of_Z_eq c n H E). Qed.

Lemma fin_lit c n : (Z.abs n < 2 ^ 53)%Z -> c = JS.of_Z n -> fin c = true.
Proof. intros H E. apply (FX_of_Z_eq c n H E). Qed.

(** A scaled byte is its quotient by 255, up to one rounding. *)
Lemma unit_error c :
  byte c -> - / 9007199254740992 <= FX (unit c) - IZR c / 255 <= / 9007199254740992.
Proof.
  intros Hc. unfold unit.
  destruct (of_Z_FX c ltac:(unfold byte in Hc; lia)) as [E F].
  assert (E255 : FX 255 = 255) by (apply (FX_lit _ 255); [lia|reflexivity]).
  assert (B : 0 <= IZR c <= 255) by (unfold byte in Hc; split; apply IZR_le; lia).
  destruct (div_error (JS.of_Z c) 255 1 F eq_refl) as [H _]; try lia.
  - rewrite E255. lra.
  - rewrite E, E255, bpow_p1. lra.
  - rewrite E, E255 in H. replace (1 - 54)%Z with (-53)%Z in H by lia.
    rewrite bpow_m53 in H. exact H.
Qed.

(** The unrounded hue is 60 times the exact position in the sextant, up to
    [10^-10]. *)
Lemma raw_hue_error p q ci M m :
  byte M -> byte m -> (m <= p <= M)%Z -> (m <= q <= M)%Z -> (m < M)%Z ->
  (0 <= ci <= 6)%Z ->
  - / 10000000000 <=
    FX (raw_hue p q (JS.of_Z ci) M m) - 60 * (IZR (p - q) / IZR (M - m) + IZR ci)
    <= / 10000000000 /\
  fin (raw_hue p q (JS.of_Z ci) M m) = true.
Proof.
  intros HM Hm Hp Hq Hlt Hc. unfold raw_hue.
  assert (Bp : byte p) by (unfold byte in *; lia).
  assert (Bq : byte q) by (unfold byte in *; lia).
  assert (Up := unit_error p Bp). assert (Uq := unit_error q Bq).
  assert (UM := unit_error M HM). assert (Um := unit_error m Hm).
  assert (Rp : 0 <= IZR p <= 255) by (unfold byte in Bp; split; apply IZR_le; lia).
  assert (Rq : 0 <= IZR q <= 255) by (unfold byte in Bq; split; apply IZR_le; lia).
  assert (RM : 0 <= IZR M <= 255) by (unfold byte in HM; split; apply IZR_le; lia).
  assert (Rm : 0 <= IZR m <= 255) by (unfold byte in Hm; split; apply IZR_le; lia).
  assert (Rd : 1 <= IZR (M - m)) by (apply IZR_le; lia).
  assert (Rpq : - IZR (M - m) <= IZR (p - q) <= IZR (M - m)) by (split; rewrite <- ?opp_IZR; apply IZR_le; lia).
  rewrite !minus_IZR in *.
  (* numerator and denominator *)
  destruct (sub_error (unit p) (unit q) 1 (unit_fin p Bp) (unit_fin q Bq)) as [EN FN];
    [rewrite bpow_p1; lra|lia|].
  destruct (sub_error (unit M) (unit m) 1 (unit_fin M HM) (unit_fin m Hm)) as [ED FD];
    [rewrite bpow_p1; lra|lia|].
  replace (1 - 54)%Z with (-53)%Z in * by lia. rewrite bpow_m53 in *.
  set (N := FX (unit p - unit q)%float) in *. set (D := FX (unit M - unit m)%float) in *.
  assert (QE := quotient_error N D ((IZR p - IZR q) / 255) ((IZR M - IZR m) / 255)
                  (3 / 9007199254740992) ltac:(lra) ltac:(lra) ltac:(lra) ltac:(lra) ltac:(lra)).
  assert (Eq : (IZR p - IZR q) / 255 / ((IZR M - IZR m) / 255) = (IZR p - IZR q) / (IZR M - IZR m))
    by (field; lra).
  rewrite Eq in QE. clear Eq.
  set (u := (IZR p - IZR q) / (IZR M - IZR m)) in *.
  assert (Bu : -1 <= u <= 1).
  { unfold u. split.
    - apply Rmult_le_reg_r with (IZR M - IZR m); [lra|].
      unfold Rdiv. rewrite Rmult_assoc, Rinv_l by lra. lra.
    - apply Rmult_le_reg_r with (IZR M - IZR m); [lra|].
      unfold Rdiv. rewrite Rmult_assoc, Rinv_l by lra. lra. }
  assert (PD : / 256 <= D) by lra.
  destruct (div_error _ _ 9 FN FD) as [EQ FQ]; [fold D; lra| |lia|].
  { fold N D. rewrite bpow_p9. lra. }
  replace (9 - 54)%Z with (-45)%Z in EQ by lia. rewrite bpow_m45 in EQ. fold N D in EQ.
  set (Q := FX ((unit p - unit q) / (unit M - unit m))%float) in *.
  (* the offset *)
  destruct (of_Z_FX ci ltac:(lia)) as [Ec Fc].
  assert (Rc : 0 <= IZR ci <= 6) by (split; apply IZR_le; lia).
  destruct (add_error _ _ 4 FQ Fc) as [E1 F1]; [fold Q; rewrite Ec, bpow_p4; lra|lia|].
  replace (4 - 54)%Z with (-50)%Z in E1 by lia. rewrite bpow_m50 in E1. fold Q in E1.
  rewrite Ec in E1.
  set (H1 := FX ((unit p - unit q) / (unit M - unit m) + JS.of_Z ci)%float) in *.
  assert (E6 : FX 6 = 6) by (apply (FX_lit _ 6); [lia|reflexivity]).
  destruct (div_error _ 6 4 F1 eq_refl) as [E2 F2];
    [rewrite E6; lra|fold H1; rewrite E6, bpow_p4; lra|lia|].
  replace (4 - 54)%Z with (-50)%Z in E2 by lia. rewrite bpow_m50 in E2. fold H1 in E2.
  rewrite E6 in E2.
  set (H2 := FX (((unit p - unit q) / (unit M - unit m) + JS.of_Z ci) / 6)%float) in *.
  assert (E360 : FX 360 = 360) by (apply (FX_lit _ 360); [lia|reflexivity]).
  destruct (mul_error _ 360 9 F2 eq_refl) as [E3 F3];
    [fold H2; rewrite E360, bpow_p9; lra|lia|].
  replace (9 - 54)%Z with (-45)%Z in E3 by lia. rewrite bpow_m45 in E3. fold H2 in E3.
  rewrite E360 in E3.
  split; [|exact F3]. lra.
Qed.

Local Close Scope string_scope.
Local Close Scope R_scope.
Local Close Scope float_scope.
Local Close Scope Z_scope.
Local Open Scope float_scope.
Local Open Scope R_scope.
Local Open Scope Z_scope.

Lemma tau_base H off n0 n8 n4 :
  (off = 0 \/ off = 360) /\ n0 = 0 /\ n8 = 8 /\ n4 = 4 \/
  off = 120 /\ n0 = 8 /\ n8 = 4 /\ n4 = 0 \/
  off = 240 /\ n0 = 4 /\ n8 = 0 /\ n4 = 8 ->
  -60 <= H - off <= 60 ->
  tau H n0 = -30 /\
  tau H n8 = Z.min 30 (30 - (H - off)) /\
  tau H n4 = Z.min 30 (30 + (H - off)).
Proof.
  intros Hc HH. unfold tau.
  destruct Hc as [([-> | ->] & -> & -> & ->)|[(-> & -> & -> & ->)|(-> & -> & -> & ->)]];
    cbv zeta; repeat split; Z.div_mod_to_equations; lia.
Qed.

Local Close Scope string_scope.
Local Close Scope R_scope.
Local Close Scope float_scope.
Local Close Scope Z_scope.
Local Open Scope float_scope.
Local Open Scope Z_scope.
Local Open Scope R_scope.

(** The factor of each channel follows the position of its byte between the
    smallest and the largest byte, up to the rounding of the hue. [v0] is
    the largest byte, [p] and [q] the two bytes of the sextant; [n0], [n8]
    and [n4] are the offsets of their channels. *)
Lemma tau_sector H off n0 n8 n4 v0 p q ci :
  (off = 0 /\ ci = 0 /\ q <= p /\ n0 = 0 /\ n8 = 8 /\ n4 = 4 \/
   off = 360 /\ ci = 6 /\ p < q /\ n0 = 0 /\ n8 = 8 /\ n4 = 4 \/
   off = 120 /\ ci = 2 /\ n0 = 8 /\ n8 = 4 /\ n4 = 0 \/
   off = 240 /\ ci = 4 /\ n0 = 4 /\ n8 = 0 /\ n4 = 8)%Z ->
  (0 <= p <= v0)%Z -> (0 <= q <= v0)%Z -> (v0 <= 255)%Z -> (Z.min p q < v0)%Z ->
  nearest H (raw_hue p q (JS.of_Z ci) v0 (Z.min p q)) ->
  let m := Z.min p q in
  let ex v := 30 - 60 * (IZR (v - m) / IZR (v0 - m)) in
  (0 <= H <= 360)%Z /\
  - (/ 2 + / 10000000000) <= IZR (tau H n0) - ex v0 <= / 2 + / 10000000000 /\
  - (/ 2 + / 10000000000) <= IZR (tau H n8) - ex p <= / 2 + / 10000000000 /\
  - (/ 2 + / 10000000000) <= IZR (tau H n4) - ex q <= / 2 + / 10000000000.
Proof.
  intros Hc Hp Hq Hv Hlt Hn m ex.
  assert (Hci : (0 <= ci <= 6)%Z /\ (off = 60 * ci)%Z) by lia.
  destruct Hci as [Hci Hoff].
  destruct (raw_hue_error p q ci v0 m) as [E _]; try (unfold byte, m; lia).
  unfold nearest in Hn. fold m in Hn.
  set (Y := FX (raw_hue p q (JS.of_Z ci) v0 m)) in *.
  assert (PD : 1 <= IZR (v0 - m)) by (apply IZR_le; unfold m; lia).
  set (D := IZR (v0 - m)) in *.
  set (u := IZR (p - q) / D) in *.
  assert (Eu : u * D = IZR (p - q)) by (unfold u; field; lra).
  assert (Bpq : - D <= IZR (p - q) <= D).
  { unfold D. rewrite <- opp_IZR. split; apply IZR_le; unfold m; lia. }
  assert (Bu : -1 <= u <= 1).
  { split; apply Rmult_le_reg_r with D; lra. }
  assert (Eoff : IZR off = 60 * IZR ci).
  { rewrite Hoff, mult_IZR. reflexivity. }
  assert (BH : - (/ 2 + / 10000000000) <= IZR (H - off) - 60 * u <= / 2 + / 10000000000).
  { rewrite minus_IZR. lra. }
  assert (E0 : ex v0 = -30).
  { unfold ex. change (IZR (v0 - m)) with D. unfold Rdiv. rewrite Rinv_r by lra. lra. }
  destruct (Z_le_gt_dec q p) as [Le|Gt].
  - (* the sextant rises from [q] to [p] *)
    assert (Em : m = q) by (unfold m; lia).
    assert (Pu : 0 <= u).
    { apply Rmult_le_reg_r with D; [lra|]. rewrite Eu, Rmult_0_l. apply IZR_le. lia. }
    assert (HH : (0 <= H - off <= 60)%Z).
    { split.
      - apply Z.lt_succ_r, Z.lt_pred_lt_succ. apply lt_IZR. simpl. lra.
      - apply Z.lt_succ_r. apply lt_IZR. simpl. lra. }
    destruct (tau_base H off n0 n8 n4) as (T0 & T8 & T4); [lia|lia|].
    rewrite T0, T8, T4, E0.
    rewrite (Z.min_r 30 (30 - (H - off))) by lia.
    rewrite (Z.min_l 30 (30 + (H - off))) by lia.
    assert (Ep : ex p = 30 - 60 * u) by (unfold ex; rewrite Em; fold D u; reflexivity).
    assert (Eq : ex q = 30).
    { unfold ex. rewrite Em, Z.sub_diag. unfold Rdiv. rewrite Rmult_0_l. lra. }
    rewrite Ep, Eq. rewrite !minus_IZR in *.
    split; [lia|]. simpl. lra.
  - assert (Em : m = p) by (unfold m; lia).
    assert (Nu : u <= 0).
    { apply Rmult_le_reg_r with D; [lra|]. rewrite Eu, Rmult_0_l. apply IZR_le. lia. }
    assert (HH : (-60 <= H - off <= 0)%Z).
    { split.
      - apply Z.lt_succ_r, Z.lt_pred_lt_succ. apply lt_IZR. simpl. lra.
      - apply Z.lt_succ_r. apply lt_IZR. simpl. lra. }
    destruct (tau_base H off n0 n8 n4) as (T0 & T8 & T4); [lia|lia|].
    rewrite T0, T8, T4, E0.
    rewrite (Z.min_l 30 (30 - (H - off))) by lia.
    rewrite (Z.min_r 30 (30 + (H - off))) by lia.
    assert (Ep : ex p = 30).
    { unfold ex. rewrite Em, Z.sub_diag. unfold Rdiv. rewrite Rmult_0_l. lra. }
    assert (Eq : ex q = 30 + 60 * u).
    { unfold ex. rewrite Em.
      replace (IZR (q - p)) with (- IZR (p - q)) by (rewrite <- opp_IZR; f_equal; lia).
      unfold u. field. lra. }
    rewrite Ep, Eq. rewrite !minus_IZR in *. rewrite ?plus_IZR, ?minus_IZR.
    split; [lia|]. simpl. lra.
Qed.

(** For a colour that is not a grey, the factor of each channel is at the
    position of its byte, up to the rounding of the hue. *)
Lemma sextant_tau cr cg cb H :
  byte cr -> byte cg -> byte cb ->
  let M := Z.max (Z.max cr cg) cb in
  let m := Z.min (Z.min cr cg) cb in
  (m < M)%Z ->
  (let '(p, q, c) := sextant cr cg cb in nearest H (raw_hue p q (JS.of_Z c) M m)) ->
  let ex v := 30 - 60 * (IZR (v - m) / IZR (M - m)) in
  (0 <= H <= 360)%Z /\
  - (/ 2 + / 10000000000) <= IZR (tau H 0) - ex cr <= / 2 + / 10000000000 /\
  - (/ 2 + / 10000000000) <= IZR (tau H 8) - ex cg <= / 2 + / 10000000000 /\
  - (/ 2 + / 10000000000) <= IZR (tau H 4) - ex cb <= / 2 + / 10000000000.
Proof.
  intros Hr Hg Hb M m Hlt. unfold sextant. fold M. unfold byte in *.
  destruct (Z.eqb_spec M cr) as [Er|Nr].
  - destruct (Z.ltb_spec cg cb) as [Lt|Ge]; intros Hn.
    + assert (Em : m = Z.min cg cb) by (unfold m, M in *; lia).
      rewrite Er in *. rewrite Em in *.
      destruct (tau_sector H 360 0 8 4 cr cg cb 6) as (A & B0 & B8 & B4);
        try lia; try assumption.
      repeat split; try lia; try apply B0; try apply B8; try apply B4.
    + assert (Em : m = Z.min cg cb) by (unfold m, M in *; lia).
      rewrite Er in *. rewrite Em in *.
      destruct (tau_sector H 0 0 8 4 cr cg cb 0) as (A & B0 & B8 & B4);
        try lia; try assumption.
      repeat split; try lia; try apply B0; try apply B8; try apply B4.
  - destruct (Z.eqb_spec M cg) as [Eg|Ng]; intros Hn.
    + assert (Em : m = Z.min cb cr) by (unfold m, M in *; lia).
      rewrite Eg in *. rewrite Em in *.
      destruct (tau_sector H 120 8 4 0 cg cb cr 2) as (A & B0 & B8 & B4);
        try lia; try assumption.
      repeat split; try lia; try apply B0; try apply B8; try apply B4.
    + assert (Eb : M = cb) by (unfold M in *; lia).
      assert (Em : m = Z.min cr cg) by (unfold m, M in *; lia).
      rewrite Eb in *. rewrite Em in *.
      destruct (tau_sector H 240 4 0 8 cb cr cg 4) as (A & B0 & B8 & B4);
        try lia; try assumption.
      repeat split; try lia; try apply B0; try apply B8; try apply B4.
Qed.

(** ** The factor for an integer hue *)

Local Close Scope string_scope.
Local Close Scope R_scope.
Local Close Scope float_scope.
Local Close Scope Z_scope.
Local Open Scope float_scope.

Lemma hslChannel_factor h s l n :
  hslChannel h s l n =
  JS.Math_round
    (255 * (l / 100 - s * JS.Math_min [l / 100; 1 - l / 100] / 100 * factor h n)).
Proof. reflexivity. Qed.

Lemma factors : forallb factor_ok (zrange 0 361) = true.
Proof. vm_compute. reflexivity. Qed.

Lemma factors_neg_zero :
  factor_near PrimFloat.neg_zero 0 0 && factor_near PrimFloat.neg_zero 0 8 &&
  factor_near PrimFloat.neg_zero 0 4 = true.
Proof. vm_compute. reflexivity. Qed.

Lemma integer_cases h H :
  (Z.abs H < 2 ^ 53)%Z -> integer h H ->
  h = JS.of_Z H \/ H = 0%Z /\ h = PrimFloat.neg_zero.
Proof.
  intros L [E F]. destruct (Z.eq_dec H 0) as [->|NZ].
  - destruct (FX_zero_inv h (fin_nan _ F) E) as [s Es].
    rewrite <- (SF2Prim_Prim2SF h), Es.
    destruct s; [right; split; reflexivity|left; reflexivity].
  - left. apply integer_eq; [exact L|exact NZ|split; assumption].
Qed.

Local Close Scope string_scope.
Local Close Scope R_scope.
Local Close Scope float_scope.
Local Close Scope Z_scope.
Local Open Scope float_scope.
Local Open Scope R_scope.

Lemma bpow_m40 : bpow (-40) = / 1099511627776.
Proof. change (bpow (- (40)) = / IZR (2 ^ 40)). apply bpow_neg. lia. Qed.

Lemma FX_mu : FX 0x1p-40 = / 1099511627776 /\ fin 0x1p-40 = true.
Proof.
  destruct (FX_finite 0x1p-40%float false 4503599627370496 (-92)) as [E F];
    [vm_compute; reflexivity|].
  split; [|exact F]. rewrite E. cbn [JS.signed cond_Zopp].
  change 4503599627370496%Z with (2 ^ 52)%Z. rewrite <- (bpow_IZR 52) by lia.
  rewrite <- bpow_add. apply bpow_m40.
Qed.

(** From the table to the value of the factor. *)
Lemma factor_near_value h H n :
  (-30 <= tau H n <= 30)%Z -> factor_near h H n = true ->
  - / 100000000000 <= FX (factor h (JS.of_Z n)) - IZR (tau H n) / 30 <= / 100000000000.
Proof.
  intros Ht B. unfold factor_near in B. cbv zeta in B. apply between_FX in B.
  destruct (of_Z_FX (tau H n) ltac:(lia)) as [Et Ft].
  assert (E30 : FX 30 = 30) by (apply (FX_lit _ 30); [lia|reflexivity]).
  assert (Rt : -30 <= IZR (tau H n) <= 30) by (split; apply IZR_le; lia).
  destruct FX_mu as [Emu Fmu].
  destruct (div_error (JS.of_Z (tau H n)) 30 1 Ft eq_refl) as [Ec Fc];
    [rewrite E30; lra|rewrite Et, E30, bpow_p1; lra|lia|].
  replace (1 - 54)%Z with (-53)%Z in Ec by lia. rewrite bpow_m53, Et, E30 in Ec.
  set (c := (JS.of_Z (tau H n) / 30)%float) in *.
  destruct (sub_error c 0x1p-40 4 Fc Fmu) as [E1 _];
    [rewrite Emu, bpow_p4; lra|lia|].
  destruct (add_error c 0x1p-40 4 Fc Fmu) as [E2 _];
    [rewrite Emu, bpow_p4; lra|lia|].
  replace (4 - 54)%Z with (-50)%Z in * by lia. rewrite bpow_m50, Emu in *.
  lra.
Qed.

Lemma tau_range H n : (-30 <= tau H n <= 30)%Z.
Proof. unfold tau. lia. Qed.

Lemma factor_value h H n :
  integer h H -> (0 <= H <= 360)%Z -> (n = 0 \/ n = 8 \/ n = 4)%Z ->
  - / 100000000000 <= FX (factor h (JS.of_Z n)) - IZR (tau H n) / 30 <= / 100000000000.
Proof.
  intros I HH Hn. apply factor_near_value; [apply tau_range|].
  destruct (integer_cases h H ltac:(lia) I) as [ -> | [ -> -> ] ].
  - assert (T := forallb_zrange factor_ok 0 361 factors H ltac:(lia)).
    unfold factor_ok in T. rewrite !andb_true_iff in T.
    destruct T as [[T0 T8] T4]. destruct Hn as [ -> | [ -> | -> ] ]; assumption.
  - assert (T := factors_neg_zero). rewrite !andb_true_iff in T.
    destruct T as [[T0 T8] T4]. destruct Hn as [ -> | [ -> | -> ] ]; assumption.
Qed.

(** The factor lies between -1 and 1. *)
Lemma factor_within h n :
  fin h = true -> within 0 8 n -> within (-1) 1 (factor h n).
Proof. intros F W. apply t_within, k_within; assumption. Qed.

(** ** One channel of the round trip *)

Local Close Scope string_scope.
Local Close Scope R_scope.
Local Close Scope float_scope.
Local Close Scope Z_scope.
Local Open Scope float_scope.

Lemma pairs :
  forallb (fun M => forallb (pair_ok M) (zrange 0 256)) (zrange 0 256) = true.
Proof. vm_compute. reflexivity. Qed.

Local Close Scope string_scope.
Local Close Scope R_scope.
Local Close Scope float_scope.
Local Close Scope Z_scope.
Local Open Scope float_scope.
Local Open Scope R_scope.

Lemma bpow_m52 : bpow (-52) = / 4503599627370496.
Proof. change (bpow (- (52)) = / IZR (2 ^ 52)). apply bpow_neg. lia. Qed.

Lemma bpow_m44 : bpow (-44) = / 17592186044416.
Proof. change (bpow (- (44)) = / IZR (2 ^ 44)). apply bpow_neg. lia. Qed.

Lemma bpow_p2 : bpow 2 = 4.
Proof. rewrite bpow_IZR by lia. reflexivity. Qed.

Lemma bpow_p10 : bpow 10 = 1024.
Proof. rewrite bpow_IZR by lia. reflexivity. Qed.

(** The channel as a real expression, up to [10^-9]. *)
Lemma corner_value l a T :
  within 0 1 l -> within 0 1 a -> within (-2) 2 T ->
  - / 1000000000 <= FX (corner l a T) - 255 * (FX l - FX a * FX T) <= / 1000000000 /\
  fin (corner l a T) = true.
Proof.
  intros Wl Wa WT. unfold corner.
  assert (Fl := within_fin _ _ _ Wl). assert (Fa := within_fin _ _ _ Wa).
  assert (FT := within_fin _ _ _ WT).
  apply within_FX in Wl, Wa, WT.
  assert (E2 : FX 2 = 2) by (apply (FX_lit _ 2); [lia|reflexivity]).
  assert (Em2 : FX (-2) = -2) by (apply (FX_lit _ (-2)); [lia|reflexivity]).
  assert (E255 : FX 255 = 255) by (apply (FX_lit _ 255); [lia|reflexivity]).
  rewrite FX_0, FX_one in Wl, Wa. rewrite E2, Em2 in WT.
  destruct (mul_error a T 2 Fa FT) as [E1 F1]; [rewrite bpow_p2; nra|lia|].
  replace (2 - 54)%Z with (-52)%Z in E1 by lia. rewrite bpow_m52 in E1.
  assert (B1 : -2 <= FX a * FX T <= 2) by nra.
  destruct (sub_error l (a * T) 2 Fl F1) as [E3 F3]; [rewrite bpow_p2; lra|lia|].
  replace (2 - 54)%Z with (-52)%Z in E3 by lia. rewrite bpow_m52 in E3.
  destruct (mul_error 255 (l - a * T) 10 eq_refl F3) as [E4 F4];
    [rewrite E255, bpow_p10; lra|lia|].
  replace (10 - 54)%Z with (-44)%Z in E4 by lia. rewrite bpow_m44, E255 in E4.
  split; [lra|exact F4].
Qed.

(** Between the two ends of the factor the channel is an affine function of
    the position [lam] of the byte. *)
Lemma affine_channel lr ar m M lam t B t1 t2 t3 t4 :
  0 <= ar -> 0 <= lam <= 1 ->
  - (35 / 2048) <= t - (1 - 2 * lam) <= 35 / 2048 ->
  1 + 35 / 2048 <= t1 -> t2 <= 1 - 35 / 2048 ->
  -1 + 35 / 2048 <= t3 -> t4 <= -1 - 35 / 2048 ->
  m - B <= 255 * (lr - ar * t1) -> 255 * (lr - ar * t2) <= m + B ->
  M - B <= 255 * (lr - ar * t3) -> 255 * (lr - ar * t4) <= M + B ->
  m + lam * (M - m) - B <= 255 * (lr - ar * t) <= m + lam * (M - m) + B.
Proof.
  intros Pa Hl Ht H1 H2 H3 H4 G1 G2 G3 G4.
  assert (A1 : m - B <= 255 * (lr - ar * (1 + 35 / 2048))) by nra.
  assert (A2 : 255 * (lr - ar * (1 - 35 / 2048)) <= m + B) by nra.
  assert (A3 : M - B <= 255 * (lr - ar * (-1 + 35 / 2048))) by nra.
  assert (A4 : 255 * (lr - ar * (-1 - 35 / 2048)) <= M + B) by nra.
  clear G1 G2 G3 G4 H1 H2 H3 H4.
  assert (L1 : 255 * (lr - ar * (1 - 2 * lam + 35 / 2048)) <= 255 * (lr - ar * t)) by nra.
  assert (L2 : 255 * (lr - ar * t) <= 255 * (lr - ar * (1 - 2 * lam - 35 / 2048))) by nra.
  split.
  - apply Rle_trans with (2 := L1).
    replace (255 * (lr - ar * (1 - 2 * lam + 35 / 2048)))
      with ((1 - lam) * (255 * (lr - ar * (1 + 35 / 2048))) +
            lam * (255 * (lr - ar * (-1 + 35 / 2048)))) by ring.
    nra.
  - apply Rle_trans with (1 := L2).
    replace (255 * (lr - ar * (1 - 2 * lam - 35 / 2048)))
      with ((1 - lam) * (255 * (lr - ar * (1 - 35 / 2048))) +
            lam * (255 * (lr - ar * (-1 - 35 / 2048)))) by ring.
    nra.
Qed.

(** The values of the constants of the table. *)
Lemma FX_corners :
  1 + 35 / 2048 <= FX (1 + rho) /\ FX (1 - rho) <= 1 - 35 / 2048 /\
  -1 + 35 / 2048 <= FX (-1 + rho) /\ FX (-1 - rho) <= -1 - 35 / 2048.
Proof.
  destruct (FX_finite (1 + rho)%float false 4582764464570368 (-52)) as [E1 _];
    [vm_compute; reflexivity|].
  destruct (FX_finite (1 - rho)%float false 8848869580341248 (-53)) as [E2 _];
    [vm_compute; reflexivity|].
  destruct (FX_finite (-1 + rho)%float true 8848869580341248 (-53)) as [E3 _];
    [vm_compute; reflexivity|].
  destruct (FX_finite (-1 - rho)%float true 4582764464570368 (-52)) as [E4 _];
    [vm_compute; reflexivity|].
  rewrite E1, E2, E3, E4. cbn [JS.signed cond_Zopp Z.opp].
  rewrite bpow_m52, bpow_m53. lra.
Qed.

Lemma FX_5_25 : FX 5.25 = 21 / 4 /\ fin 5.25 = true.
Proof.
  destruct (FX_finite 5.25%float false 5910974510923776 (-50)) as [E F];
    [vm_compute; reflexivity|].
  split; [|exact F]. rewrite E. cbn [JS.signed cond_Zopp]. rewrite bpow_m50. lra.
Qed.

Lemma corner_consts :
  within (-2) 2 (1 + rho) /\ within (-2) 2 (1 - rho) /\
  within (-2) 2 (-1 + rho) /\ within (-2) 2 (-1 - rho).
Proof. repeat split; reflexivity. Qed.

(** The round trip of a colour that is not a grey moves each byte by at most
    5. *)
Lemma channel_near_colour cr cg cb n v :
  byte cr -> byte cg -> byte cb ->
  (Z.min (Z.min cr cg) cb < Z.max (Z.max cr cg) cb)%Z ->
  (n = 0 /\ v = cr \/ n = 8 /\ v = cg \/ n = 4 /\ v = cb)%Z ->
  let t := rgbToHsl {| r := cr; g := cg; b := cb |} in
  exists w, (v - 5 <= w <= v + 5)%Z /\
            (hslChannel t.(h) t.(s) t.(l) (JS.of_Z n) =? JS.of_Z w)%float = true.
Proof.
  intros Hr Hg Hb Hlt Hn t.
  set (M := Z.max (Z.max cr cg) cb) in *. set (m := Z.min (Z.min cr cg) cb) in *.
  assert (HM : byte M) by (unfold M, byte in *; lia).
  assert (Hm : byte m) by (unfold m, byte in *; lia).
  assert (Hv : (m <= v <= M)%Z) by (unfold m, M; lia).
  (* the three components *)
  assert (S := rgbToHsl_sextant cr cg cb Hr Hg Hb Hlt). fold M m in S.
  assert (ST := fun H => sextant_tau cr cg cb H Hr Hg Hb Hlt). fold M m in ST.
  assert (RE : let '(p, q, c) := sextant cr cg cb in
               fin (raw_hue p q (JS.of_Z c) M m) = true).
  { unfold sextant. fold M. unfold byte in *.
    destruct (M =? cr)%Z; [destruct (cg <? cb)%Z|destruct (M =? cg)%Z];
      apply raw_hue_error; unfold byte; lia. }
  destruct (sextant cr cg cb) as [[p q] ci].
  destruct (Math_round_spec _ RE) as (H & EH & FH & NH).
  specialize (ST H NH). cbv zeta in ST. destruct ST as (HH & B0 & B8 & B4).
  unfold t. rewrite S. cbn [h s l]. clear S t.
  set (hh := JS.Math_round (raw_hue p q (JS.of_Z ci) M m)) in *.
  rewrite hslChannel_factor.
  (* the table of the pair *)
  assert (P := forallb2_zrange pair_ok 0 256 0 256 pairs M m
                 ltac:(unfold byte in HM; lia) ltac:(unfold byte in Hm; lia)).
  unfold pair_ok in P. rewrite (proj2 (Z.ltb_lt m M) Hlt) in P. cbv zeta in P.
  set (ll := (lightness_of M m / 100)%float) in *.
  set (aa := (saturation_of M m * JS.Math_min [ll; (1 - ll)%float] / 100)%float) in *.
  rewrite !andb_true_iff in P. destruct P as (((((Pl & Pa) & P1) & P2) & P3) & P4).
  assert (Wl : within 0 1 ll) by (apply between_within; auto).
  assert (Wa : within 0 1 aa) by (apply between_within; auto).
  change (255 * (ll - aa * factor hh (JS.of_Z n)))%float
    with (corner ll aa (factor hh (JS.of_Z n))).
  set (T := factor hh (JS.of_Z n)).
  (* the factor *)
  assert (Hn' : (n = 0 \/ n = 8 \/ n = 4)%Z) by lia.
  assert (VT := factor_value hh H n (conj EH FH) HH Hn'). fold T in VT.
  assert (WT : within (-1) 1 T).
  { apply factor_within; [exact FH|].
    destruct Hn' as [ -> | [ -> | -> ] ]; apply between_within; reflexivity. }
  assert (WT2 : within (-2) 2 T) by (apply within_weaken with (1 := WT); reflexivity).
  set (lam := IZR (v - m) / IZR (M - m)).
  assert (PD : 1 <= IZR (M - m)) by (apply IZR_le; lia).
  assert (Bl : 0 <= lam <= 1).
  { assert (0 <= IZR (v - m) <= IZR (M - m)) by (split; apply IZR_le; lia).
    unfold lam. split.
    - apply Rmult_le_reg_r with (IZR (M - m)); [lra|].
      unfold Rdiv. rewrite Rmult_assoc, Rinv_l by lra. lra.
    - apply Rmult_le_reg_r with (IZR (M - m)); [lra|].
      unfold Rdiv. rewrite Rmult_assoc, Rinv_l by lra. lra. }
  assert (Bt : - (/ 2 + / 10000000000) <= IZR (tau H n) - (30 - 60 * lam)
               <= / 2 + / 10000000000).
  { unfold lam. destruct Hn as [ [ -> -> ] | [ [ -> -> ] | [ -> -> ] ] ]; assumption. }
  assert (Ev : IZR v = IZR m + lam * (IZR M - IZR m)).
  { unfold lam. rewrite !minus_IZR in *. field. lra. }
  (* the four corners *)
  destruct corner_consts as (C1 & C2 & C3 & C4).
  destruct FX_corners as (T1 & T2 & T3 & T4).
  destruct (corner_value ll aa _ Wl Wa C1) as [V1 _].
  destruct (corner_value ll aa _ Wl Wa C2) as [V2 _].
  destruct (corner_value ll aa _ Wl Wa C3) as [V3 _].
  destruct (corner_value ll aa _ Wl Wa C4) as [V4 _].
  destruct (corner_value ll aa T Wl Wa WT2) as [VV FV].
  apply leb_FX in P1, P2, P3, P4.
  destruct P1 as (_ & _ & P1). destruct P2 as (_ & _ & P2).
  destruct P3 as (_ & _ & P3). destruct P4 as (_ & _ & P4).
  destruct FX_5_25 as [E5 F5].
  destruct (of_Z_FX m ltac:(unfold byte in Hm; lia)) as [Em Fm].
  destruct (of_Z_FX M ltac:(unfold byte in HM; lia)) as [EM FM].
  assert (Rm : 0 <= IZR m <= 255) by (unfold byte in Hm; split; apply IZR_le; lia).
  assert (RM : 0 <= IZR M <= 255) by (unfold byte in HM; split; apply IZR_le; lia).
  destruct (sub_error (JS.of_Z m) 5.25 9 Fm F5) as [S1 _];
    [rewrite Em, E5, bpow_p9; lra|lia|].
  destruct (add_error (JS.of_Z m) 5.25 9 Fm F5) as [S2 _];
    [rewrite Em, E5, bpow_p9; lra|lia|].
  destruct (sub_error (JS.of_Z M) 5.25 9 FM F5) as [S3 _];
    [rewrite EM, E5, bpow_p9; lra|lia|].
  destruct (add_error (JS.of_Z M) 5.25 9 FM F5) as [S4 _];
    [rewrite EM, E5, bpow_p9; lra|lia|].
  replace (9 - 54)%Z with (-45)%Z in * by lia. rewrite bpow_m45 in *.
  rewrite Em, E5 in S1, S2. rewrite EM, E5 in S3, S4.
  apply within_FX in Wa. rewrite FX_0 in Wa.
  assert (A := affine_channel (FX ll) (FX aa) (IZR m) (IZR M) lam (FX T)
                 (21 / 4 + / 100000000)
                 (FX (1 + rho)%float) (FX (1 - rho)%float)
                 (FX (-1 + rho)%float) (FX (-1 - rho)%float)
                 ltac:(lra) Bl ltac:(lra) T1 T2 T3 T4
                 ltac:(lra) ltac:(lra) ltac:(lra) ltac:(lra)).
  rewrite <- Ev in A.
  (* the rounded channel *)
  destruct (Math_round_spec _ FV) as (w & Ew & Fw & Nw).
  assert (Hw : (v - 5 <= w <= v + 5)%Z).
  { split.
    - apply Z.lt_succ_r, Z.lt_pred_lt_succ. apply lt_IZR.
      unfold Z.pred. rewrite plus_IZR, minus_IZR. simpl. lra.
    - apply Z.lt_succ_r. apply lt_IZR. unfold Z.succ. rewrite !plus_IZR. simpl. lra. }
  exists w. split; [exact Hw|].
  destruct (of_Z_FX w ltac:(unfold byte in *; lia)) as [Ew' Fw'].
  apply eqb_FX. repeat split; auto using fin_nan. congruence.
Qed.

(** ** The round trip through HSL *)

Local Close Scope string_scope.
Local Close Scope R_scope.
Local Close Scope float_scope.
Local Close Scope Z_scope.
Local Open Scope float_scope.

Lemma grey_channels : forallb grey_near (zrange 0 256) = true.
Proof. vm_compute. reflexivity. Qed.

Lemma channel_near_grey v n :
  byte v -> (n = 0 \/ n = 8 \/ n = 4)%Z ->
  let t := rgbToHsl {| r := v; g := v; b := v |} in
  exists w, (v - 1 <= w <= v + 1)%Z /\
            (hslChannel t.(h) t.(s) t.(l) (JS.of_Z n) =? JS.of_Z w) = true.
Proof.
  intros Hv Hn t.
  assert (G := forallb_zrange grey_near 0 256 grey_channels v ltac:(unfold byte in Hv; lia)).
  unfold grey_near in G. fold t in G. rewrite forallb_forall in G.
  assert (In n [0; 8; 4]%Z) by (simpl; lia).
  specialize (G n H). apply existsb_exists in G. destruct G as (w & Hw & E).
  exists w. split; [simpl in Hw; lia|exact E].
Qed.

(** The round trip of any colour moves each byte by at most 5. *)
Lemma channel_near cr cg cb n v :
  byte cr -> byte cg -> byte cb ->
  (n = 0 /\ v = cr \/ n = 8 /\ v = cg \/ n = 4 /\ v = cb)%Z ->
  let t := rgbToHsl {| r := cr; g := cg; b := cb |} in
  exists w, (v - 5 <= w <= v + 5)%Z /\
            (hslChannel t.(h) t.(s) t.(l) (JS.of_Z n) =? JS.of_Z w) = true.
Proof.
  intros Hr Hg Hb Hn.
  destruct (Z_lt_le_dec (Z.min (Z.min cr cg) cb) (Z.max (Z.max cr cg) cb)) as [Lt|Ge].
  - apply channel_near_colour; assumption.
  - assert (cg = cr) by lia. assert (cb = cr) by lia. subst cg cb.
    assert (v = cr) by lia. subst v. intros t.
    destruct (channel_near_grey cr n Hr ltac:(lia)) as (w & Hw & E).
    exists w. split; [lia|exact E].
Qed.

Lemma hex_value_digit d : (0 <= d < 16)%Z -> JS.hex_value (JS.hex_digit d) = Some d.
Proof.
  intros H.
  assert (C : In d (zrange 0 16)) by (apply zrange_In; lia).
  simpl in C. repeat (destruct C as [<-|C]; [reflexivity|]). destruct C.
Qed.

Lemma trim_start_digit d t :
  JS.trim_start (String (JS.hex_digit d) t) = String (JS.hex_digit d) t.
Proof.
  destruct d as [|p|p]; try reflexivity.
  do 4 (try destruct p as [p|p|]); reflexivity.
Qed.

Lemma strip_sign_digit d t :
  JS.strip_sign (String (JS.hex_digit d) t) = (false, String (JS.hex_digit d) t).
Proof.
  destruct d as [|p|p]; try reflexivity.
  do 4 (try destruct p as [p|p|]); reflexivity.
Qed.

Lemma strip_prefix_digits d1 d2 t :
  JS.strip_prefix (String (JS.hex_digit d1) (String (JS.hex_digit d2) t)) =
  String (JS.hex_digit d1) (String (JS.hex_digit d2) t).
Proof.
  destruct d1 as [|p|p]; try reflexivity;
    try (do 4 (try destruct p as [p|p|]); reflexivity).
  destruct d2 as [|p|p]; try reflexivity.
  do 4 (try destruct p as [p|p|]); reflexivity.
Qed.

(** The integer part of the Number nearest to an integer below [2^53] is the
    integer. *)
Lemma truncate_Number n : (0 < n < 2 ^ 53)%Z -> JS.truncate (JS.Number n) = n.
Proof.
  intros Hn. unfold JS.Number, JS.truncate.
  destruct (binary_normalize_RND n 0 false) as (R & N & V). cbv zeta in R, N, V.
  rewrite Prim2SF_SF2Prim by exact V.
  rewrite bpow_0, Rmult_1_r in R.
  assert (E : SFX (binary_normalize prec emax n 0 false) = IZR n).
  { assert (P : (0 < IZR n)%R) by (apply IZR_lt; lia).
    destruct R as [[R _]|[[_ R]|[R _]]]; try lra.
    apply RNDpos_int; assumption. }
  destruct (binary_normalize prec emax n 0 false) as [s|s| |s m e]; cbn [SFX SFnan] in *;
    try discriminate.
  - apply eq_IZR in E. lia.
  - assert (P : (0 < IZR n)%R) by (apply IZR_lt; lia).
    assert (H := huge_gt_int n ltac:(lia)). destruct s; cbn [sgn] in E; lra.
  - assert (P : (0 < IZR n)%R) by (apply IZR_lt; lia).
    assert (Pv := pos_value m e).
    destruct s; cbn [sgn] in E; [lra|]. cbn [cond_Zopp].
    destruct (Z.leb_spec 0 e) as [Le|Lt].
    + rewrite bpow_IZR, <- mult_IZR in E by lia. apply eq_IZR in E. exact E.
    + assert (E' : IZR (Z.pos m) = IZR (n * 2 ^ (- e))).
      { rewrite mult_IZR, <- bpow_IZR by lia. rewrite <- E, Rmult_assoc, <- bpow_add.
        replace (e + - e)%Z with 0%Z by lia. rewrite bpow_0. ring. }
      apply eq_IZR in E'. rewrite E'. apply Z.div_mul.
      assert (0 < 2 ^ (- e))%Z by (apply Z.pow_pos_nonneg; lia). lia.
Qed.

Lemma hex2_digits n :
  byte n -> (0 <= n / 16 < 16)%Z /\ (0 <= n mod 16 < 16)%Z /\ (n = 16 * (n / 16) + n mod 16)%Z.
Proof. unfold byte. intros H. Z.div_mod_to_equations. lia. Qed.

Lemma bytes_of_int cr cg cb :
  byte cr -> byte cg -> byte cb ->
  let n := (65536 * cr + 256 * cg + cb)%Z in
  JS.band (JS.sar n 16) 255 = cr /\ JS.band (JS.sar n 8) 255 = cg /\ JS.band n 255 = cb.
Proof.
  intros Hr Hg Hb n. unfold byte in *.
  assert (Hn : (0 <= n < 2 ^ 24)%Z) by (unfold n; lia).
  assert (T : forall k, (0 <= k < 2 ^ 24)%Z -> JS.ToInt32 k = k).
  { intros k Hk. unfold JS.ToInt32. rewrite Z.mod_small; lia. }
  unfold JS.band, JS.sar. rewrite (T n Hn).
  change (16 mod 32)%Z with 16%Z. change (8 mod 32)%Z with 8%Z.
  rewrite !Z.shiftr_div_pow2 by lia.
  change (JS.ToInt32 255) with (Z.ones 8).
  assert (E16 : (n / 2 ^ 16 = cr)%Z) by (unfold n; Z.div_mod_to_equations; lia).
  assert (E8 : (n / 2 ^ 8 = 256 * cr + cg)%Z) by (unfold n; Z.div_mod_to_equations; lia).
  rewrite E16, E8. rewrite !T by lia. rewrite !Z.land_ones by lia.
  repeat split; unfold n; Z.div_mod_to_equations; lia.
Qed.

(** [hexToRgb] reads back the bytes that [hslToHex] printed. *)
Lemma hexToRgb_hex2 cr cg cb :
  byte cr -> byte cg -> byte cb ->
  hexToRgb (String "#" (hex2 cr ++ hex2 cg ++ hex2 cb)) = {| r := cr; g := cg; b := cb |}.
Proof.
  intros Hr Hg Hb.
  destruct (hex2_digits cr Hr) as (R1 & R2 & Er).
  destruct (hex2_digits cg Hg) as (G1 & G2 & Eg).
  destruct (hex2_digits cb Hb) as (B1 & B2 & Eb).
  unfold hexToRgb, hex2. cbn [String.append JS.slice1].
  unfold JS.parseInt16. rewrite trim_start_digit, strip_sign_digit, strip_prefix_digits.
  rewrite hex_value_digit by assumption.
  cbn [JS.parse_hex_digits]. rewrite !hex_value_digit by assumption.
  cbn [JS.parse_hex_digits]. 
  set (n := (16 * (16 * (16 * (16 * (16 * (16 * 0 + cr / 16) + cr mod 16) + cg / 16)
                              + cg mod 16) + cb / 16) + cb mod 16)%Z).
  assert (En : n = (65536 * cr + 256 * cg + cb)%Z) by (unfold n; lia).
  assert (Hn : (0 <= n < 2 ^ 24)%Z) by (unfold byte in *; lia).
  assert (Et : JS.truncate (if (n =? 0)%Z then PrimFloat.zero else JS.Number n) = n).
  { destruct (Z.eqb_spec n 0) as [->|NZ]; [reflexivity|].
    apply truncate_Number. lia. }
  rewrite Et, En.
  destruct (bytes_of_int cr cg cb Hr Hg Hb) as (E1 & E2 & E3).
  cbv zeta in E1, E2, E3. rewrite E1, E2, E3. reflexivity.
Qed.

Lemma eqb_of_Z_inj x a c :
  (Z.abs a < 2 ^ 53)%Z -> (Z.abs c < 2 ^ 53)%Z ->
  (x =? JS.of_Z a) = true -> (x =? JS.of_Z c) = true -> a = c.
Proof.
  intros Ha Hc E1 E2. apply eqb_FX in E1, E2.
  destruct E1 as (_ & _ & E1). destruct E2 as (_ & _ & E2).
  destruct (of_Z_FX a Ha) as [Ea _]. destruct (of_Z_FX c Hc) as [Ec _].
  apply eq_IZR. congruence.
Qed.

(** One channel of the round trip: the byte that is printed is at most 5
    away from the byte of the colour, at most 1 for a grey. *)
Lemma channel_round_trip cr cg cb n v :
  byte cr -> byte cg -> byte cb ->
  (n = 0 /\ v = cr \/ n = 8 /\ v = cg \/ n = 4 /\ v = cb)%Z ->
  let t := rgbToHsl {| r := cr; g := cg; b := cb |} in
  exists w, byte w /\ (v - 5 <= w <= v + 5)%Z /\
            (cr = cg -> cg = cb -> (v - 1 <= w <= v + 1)%Z) /\
            JS.padStart (JS.toString16 (hslChannel t.(h) t.(s) t.(l) (JS.of_Z n))) 2 "0"
            = hex2 w.
Proof.
  intros Hr Hg Hb Hn t.
  assert (R := rgbToHsl_rounds {| r := cr; g := cg; b := cb |} Hr Hg Hb).
  assert (Et : t = rgbToHsl {| r := cr; g := cg; b := cb |}) by reflexivity.
  unfold rgbToHsl in Et.
  destruct (unrounded {| r := cr; g := cg; b := cb |}) as [[h0 s0] l0].
  destruct R as ((hn & Hh & Eh & _) & (sn & Hs & Es & _) & (ln & Hl & El & _)).
  assert (Ih : integer t.(h) hn) by (rewrite Et; apply integer_of_eqb; [lia|exact Eh]).
  assert (Is : integer t.(s) sn) by (rewrite Et; apply integer_of_eqb; [lia|exact Es]).
  assert (Il : integer t.(l) ln) by (rewrite Et; apply integer_of_eqb; [lia|exact El]).
  clear Et Eh Es El.
  assert (Wn : within 0 8 (JS.of_Z n)).
  { destruct Hn as [[-> _]|[[-> _]|[-> _]]]; apply between_within; reflexivity. }
  destruct (channel_byte t.(h) t.(s) t.(l) (JS.of_Z n)) as (w' & Hw' & Ew' & Sw');
    [apply Ih|apply (within_of_integer _ sn 0 100 Is); lia
    |apply (within_of_integer _ ln 0 100 Il); lia|exact Wn|].
  destruct (channel_near cr cg cb n v Hr Hg Hb Hn) as (w & Hw & Ew). fold t in Ew.
  assert (E : w = w').
  { apply (eqb_of_Z_inj (hslChannel t.(h) t.(s) t.(l) (JS.of_Z n)) w w'); [unfold byte in *; lia|unfold byte in *; lia|exact Ew|exact Ew']. }
  subst w'. exists w. split; [exact Hw'|]. split; [exact Hw|]. split; [|exact Sw'].
  intros E1 E2. subst cg cb. assert (v = cr) by lia. subst v.
  destruct (channel_near_grey cr n Hr ltac:(lia)) as (w2 & Hw2 & Ew2). fold t in Ew2.
  assert (E : w2 = w).
  { apply (eqb_of_Z_inj (hslChannel t.(h) t.(s) t.(l) (JS.of_Z n)) w2 w); [unfold byte in *; lia|unfold byte in *; lia|exact Ew2|exact Ew]. }
  subst w2. exact Hw2.
Qed.

(** C1: the round trip of any colour is a colour of the shape the page
    accepts, each of whose bytes is at most 5 away from the byte it comes
    from, and at most 1 away when the colour is a grey. *)
Theorem roundTrip_near H :
  let c := hexToRgb H in
  let c' := hexToRgb (roundTrip H) in
  test_hex (roundTrip H) = true /\
  (Z.abs (c'.(r) - c.(r)) <= 5)%Z /\
  (Z.abs (c'.(g) - c.(g)) <= 5)%Z /\
  (Z.abs (c'.(b) - c.(b)) <= 5)%Z /\
  (c.(r) = c.(g) -> c.(g) = c.(b) ->
   (Z.abs (c'.(r) - c.(r)) <= 1)%Z /\ (Z.abs (c'.(g) - c.(g)) <= 1)%Z /\
   (Z.abs (c'.(b) - c.(b)) <= 1)%Z).
Proof.
  intros c c'. destruct (hexToRgb_bytes H) as (Hr & Hg & Hb). fold c in Hr, Hg, Hb.
  assert (Ec : roundTrip H =
               let t := rgbToHsl c in hslToHex t.(h) t.(s) t.(l)) by reflexivity.
  unfold c'. rewrite Ec. clear c' Ec.
  destruct c as [cr cg cb]. cbn [r g b] in *. cbv zeta.
  set (t := rgbToHsl {| r := cr; g := cg; b := cb |}).
  destruct (channel_round_trip cr cg cb 0 cr Hr Hg Hb ltac:(lia)) as (w0 & B0 & N0 & G0 & S0).
  destruct (channel_round_trip cr cg cb 8 cg Hr Hg Hb ltac:(lia)) as (w8 & B8 & N8 & G8 & S8).
  destruct (channel_round_trip cr cg cb 4 cb Hr Hg Hb ltac:(lia)) as (w4 & B4 & N4 & G4 & S4).
  fold t in S0, S8, S4.
  assert (E : hslToHex t.(h) t.(s) t.(l) = String "#" (hex2 w0 ++ hex2 w8 ++ hex2 w4)).
  { unfold hslToHex.
    change 0%float with (JS.of_Z 0). change 8%float with (JS.of_Z 8).
    change 4%float with (JS.of_Z 4). rewrite S0, S8, S4. reflexivity. }
  rewrite E, hexToRgb_hex2 by assumption. cbn [r g b].
  split; [apply test_hex_hex2|].
  split; [lia|]. split; [lia|]. split; [lia|].
  intros E1 E2. specialize (G0 E1 E2). specialize (G8 E1 E2). specialize (G4 E1 E2).
  lia.
Qed.

(** ** The entries of the palette *)

Lemma hslToHex_test hh ss ll :
  fin hh = true -> within 0 100 ss -> within 0 100 ll ->
  test_hex (hslToHex hh ss ll) = true.
Proof.
  intros F Ws Wl.
  destruct (channel_byte hh ss ll 0 F Ws Wl) as (r & _ & _ & Sr);
    [apply between_within; reflexivity|].
  destruct (channel_byte hh ss ll 8 F Ws Wl) as (g & _ & _ & Sg);
    [apply between_within; reflexivity|].
  destruct (channel_byte hh ss ll 4 F Ws Wl) as (b & _ & _ & Sb);
    [apply between_within; reflexivity|].
  unfold hslToHex. rewrite Sr, Sg, Sb. apply test_hex_hex2.
Qed.

Lemma integer_sub a b n m :
  integer a n -> integer b m -> (Z.abs (n - m) < 2 ^ 53)%Z -> integer (a - b) (n - m).
Proof.
  intros [Ea Fa] [Eb Fb] H. destruct (sub_RND a b Fa Fb) as [R N].
  destruct (of_Z_FX (n - m) H) as [E F].
  rewrite Ea, Eb, <- minus_IZR, <- E in R. apply RND_FX in R; [|exact F].
  split; [congruence|]. apply fin_of_bound; [exact N|].
  rewrite R, E. apply huge_gt_int, H.
Qed.

(** The lightness of the lighter and of the darker entry. *)
Lemma lighter_within l0 ln :
  integer l0 ln -> (0 <= ln <= 100)%Z -> within 0 100 (JS.Math_min [100; l0 + 15]).
Proof.
  intros I H.
  assert (I15 : integer 15 15) by (apply integer_lit; [lia|reflexivity]).
  destruct (integer_add _ _ _ _ I I15 ltac:(lia)) as [E F].
  destruct (Math_min2_FX 100 (l0 + 15) eq_refl (fin_nan _ F)) as [Em Nm].
  assert (E100 : FX 100 = 100%R) by (apply (FX_lit _ 100); [lia|reflexivity]).
  assert (B : (15 <= IZR (ln + 15) <= 115)%R) by (split; apply IZR_le; lia).
  apply within_intro; [reflexivity|reflexivity|exact Nm|].
  rewrite Em, E, E100, FX_0. unfold Rmin. destruct Rle_dec; lra.
Qed.

Lemma darker_within l0 ln :
  integer l0 ln -> (0 <= ln <= 100)%Z -> within 0 100 (JS.Math_max [10; l0 - 20]).
Proof.
  intros I H.
  assert (I20 : integer 20 20) by (apply integer_lit; [lia|reflexivity]).
  destruct (integer_sub _ _ _ _ I I20 ltac:(lia)) as [E F].
  destruct (Math_max2_FX 10 (l0 - 20) eq_refl (fin_nan _ F)) as [Em Nm].
  assert (E10 : FX 10 = 10%R) by (apply (FX_lit _ 10); [lia|reflexivity]).
  assert (E100 : FX 100 = 100%R) by (apply (FX_lit _ 100); [lia|reflexivity]).
  assert (B : (-20 <= IZR (ln - 20) <= 80)%R) by (split; apply IZR_le; lia).
  apply within_intro; [reflexivity|reflexivity|exact Nm|].
  rewrite Em, E, E10, E100, FX_0. unfold Rmax. destruct Rle_dec; lra.
Qed.

(** The hue of the neutral entry is a finite number. *)
Lemma neutral_hue_fin h1 n1 h2 n2 :
  integer h1 n1 -> integer h2 n2 -> (0 <= n1 <= 360)%Z -> (0 <= n2 <= 360)%Z ->
  fin (JS.rem (JS.Math_round ((h1 + h2) / 2)) 360) = true.
Proof.
  intros I1 I2 H1 H2.
  assert (W1 := within_of_integer _ _ 0 360 I1 ltac:(lia) ltac:(lia) H1).
  assert (W2 := within_of_integer _ _ 0 360 I2 ltac:(lia) ltac:(lia) H2).
  assert (W := within_add _ _ _ _ _ _ W1 W2 eq_refl eq_refl).
  assert (Wd : within ((JS.of_Z 0 + JS.of_Z 0) / 2) ((JS.of_Z 360 + JS.of_Z 360) / 2)
                 ((h1 + h2) / 2)).
  { apply within_div_r; [reflexivity|apply FX_pos; reflexivity|exact W| |]; reflexivity. }
  assert (Wr := within_round _ _ _ Wd). apply within_fin in Wr.
  exact (within_fin _ _ _ (rem_within _ 360 Wr eq_refl (FX_pos 360 eq_refl))).
Qed.

(** Every entry of the palette of two colours is a colour of the shape the
    page accepts. *)
Theorem generatePalette_valid P S :
  test_hex P = true -> test_hex S = true ->
  forallb (fun e => test_hex e.(hex)) (generatePalette P S) = true.
Proof.
  intros HP HS.
  destruct (hexToHsl_integers P) as (h1 & s1 & l1 & Hh1 & Hs1 & Hl1 & Ih1 & Is1 & Il1).
  destruct (hexToHsl_integers S) as (h2 & s2 & l2 & Hh2 & Hs2 & Hl2 & Ih2 & Is2 & Il2).
  assert (Ws1 := within_of_integer _ _ 0 100 Is1 ltac:(lia) ltac:(lia) Hs1).
  assert (Ws2 := within_of_integer _ _ 0 100 Is2 ltac:(lia) ltac:(lia) Hs2).
  unfold generatePalette. cbn [forallb hex]. rewrite HP, HS.
  rewrite !hslToHex_test; try reflexivity;
    try (apply Ih1); try (apply Ih2); try assumption;
    try (eapply lighter_within; eassumption);
    try (eapply darker_within; eassumption);
    try (apply between_within; reflexivity).
  eapply neutral_hue_fin; eassumption.
Qed.

Lemma generatePalette_valid_witness :
  forallb (fun e => test_hex e.(hex)) (generatePalette "#5468ff" "#bfe0ff") = true.
Proof. apply generatePalette_valid; reflexivity. Defined.

(** ** The variant decoded *)

Lemma encoded_grid :
  forallb (fun S0 => forallb (encoded_ok S0) (zrange 0 101)) (zrange 0 101) = true.
Proof. vm_compute. reflexivity. Qed.

Lemma hues :
  forallb (fun H => hue_ok (JS.of_Z H)) (zrange 0 361) && hue_ok PrimFloat.neg_zero = true.
Proof. vm_compute. reflexivity. Qed.

Lemma hue_extremes h hn : integer h hn -> (0 <= hn <= 360)%Z -> hue_ok h = true.
Proof.
  intros I Hh. assert (T := hues). apply andb_true_iff in T. destruct T as [T Tz].
  destruct (integer_cases h hn ltac:(lia) I) as [ -> | [ _ -> ] ]; [|exact Tz].
  apply (forallb_zrange (fun H => hue_ok (JS.of_Z H)) 0 361 T). lia.
Qed.

Lemma hslChannel_extreme h s l n :
  hslChannel h s l n = JS.Math_round (extreme s l (factor h n)).
Proof. reflexivity. Qed.

Lemma eqb_one f : (f =? 1) = true -> f = 1.
Proof.
  intros E. apply eqb_FX in E. destruct E as (N & _ & E).
  apply FX_inj; [exact N|reflexivity|exact E|]. rewrite E, FX_one. lra.
Qed.

Lemma eqb_minus_one f : (f =? -1) = true -> f = -1.
Proof.
  intros E. apply eqb_FX in E. destruct E as (N & _ & E).
  apply FX_inj; [exact N|reflexivity|exact E|]. rewrite E, FX_minus_one. lra.
Qed.

(** The lightness [hexToHsl] computes depends on the largest and the
    smallest byte only. *)
Lemma rgbToHsl_lightness cr cg cb :
  byte cr -> byte cg -> byte cb ->
  (rgbToHsl {| r := cr; g := cg; b := cb |}).(l) =
  lightness_of (Z.max (Z.max cr cg) cb) (Z.min (Z.min cr cg) cb).
Proof.
  intros Hr Hg Hb. unfold rgbToHsl, unrounded. cbn [r g b].
  change (JS.of_Z cr / 255) with (unit cr). change (JS.of_Z cg / 255) with (unit cg).
  change (JS.of_Z cb / 255) with (unit cb).
  rewrite Math_max3_unit, Math_min3_unit by assumption.
  destruct (unit _ =? unit _); reflexivity.
Qed.

Lemma encoded_entry S0 L :
  (0 <= S0 <= 100)%Z -> (0 <= L <= 100)%Z -> encoded_ok S0 L = true.
Proof.
  intros HS HL.
  apply (forallb2_zrange encoded_ok 0 101 0 101 encoded_grid); lia.
Qed.

(** The channels of factor 1 and -1 are the bytes [bottom] and [top], and
    every channel is a byte between them. *)
Lemma channel_between h S0 L n :
  fin h = true -> within 0 8 n -> (0 <= S0 <= 100)%Z -> (0 <= L <= 100)%Z ->
  exists c, (0 <= bottom S0 L <= c)%Z /\ (c <= top S0 L <= 255)%Z /\
    (hslChannel h (JS.of_Z S0) (JS.of_Z L) n =? JS.of_Z c) = true /\
    (factor h n = 1 -> c = bottom S0 L) /\
    (factor h n = -1 -> c = top S0 L).
Proof.
  intros Fh Wn HS HL.
  assert (T := encoded_entry S0 L HS HL). unfold encoded_ok in T.
  fold (top S0 L) in T. fold (bottom S0 L) in T. cbv zeta in T.
  set (s := JS.of_Z S0) in *. set (l := JS.of_Z L) in *.
  set (a := s * JS.Math_min [l / 100; 1 - l / 100] / 100) in *.
  rewrite !andb_true_iff in T.
  destruct T as ((((((((((((((B1 & B2) & B3) & B4) & B5) & B6) & B7) & B8) & Ehi) & Elo)
                        & Z1) & Z2) & Z3) & _) & _).
  apply Z.leb_le in Z1, Z2, Z3.
  assert (Wt := factor_within h n Fh Wn).
  assert (Fa : fin a = true) by (eapply between_fin; [| |exact B2]; reflexivity).
  assert (Pa : (0 <= FX a)%R).
  { apply between_FX in B2. rewrite FX_0 in B2. lra. }
  assert (Fl : fin (l / 100) = true) by (eapply between_fin; [| |exact B1]; reflexivity).
  assert (W1 : within (a * -1) (a * 1) (a * factor h n)).
  { apply within_mul_l; [exact Fa|exact Pa|exact Wt| |].
    - eapply between_fin; [| |exact B4]; reflexivity.
    - eapply between_fin; [| |exact B3]; reflexivity. }
  assert (W2 : within (l / 100 - a * 1) (l / 100 - a * -1) (l / 100 - a * factor h n)).
  { apply within_sub; [apply within_refl; exact Fl|exact W1| |].
    - eapply between_fin; [| |exact B5]; reflexivity.
    - eapply between_fin; [| |exact B6]; reflexivity. }
  assert (W3 : within (extreme s l 1) (extreme s l (-1)) (extreme s l (factor h n))).
  { unfold extreme. fold a. apply within_mul_l; [reflexivity|apply FX_nonneg; reflexivity|exact W2| |].
    - eapply between_fin; [| |exact B7]; reflexivity.
    - eapply between_fin; [| |exact B8]; reflexivity. }
  assert (W4 := within_round _ _ _ W3). apply within_FX in W4.
  destruct (Math_round_spec _ (within_fin _ _ _ W3)) as (c & Ec & Fc & _).
  assert (Abs_top : (Z.abs (top S0 L) < 2 ^ 53)%Z) by lia.
  assert (Abs_bot : (Z.abs (bottom S0 L) < 2 ^ 53)%Z) by lia.
  destruct (of_Z_FX _ Abs_top) as [Et _]. destruct (of_Z_FX _ Abs_bot) as [Eb _].
  assert (Ehi' := Ehi). assert (Elo' := Elo).
  apply eqb_FX in Ehi', Elo'.
  destruct Ehi' as (_ & _ & Ehi'). destruct Elo' as (_ & _ & Elo').
  rewrite Ehi', Elo', Et, Eb, Ec in W4.
  assert (Hc : (bottom S0 L <= c <= top S0 L)%Z) by (split; apply le_IZR; lra).
  exists c. split; [lia|]. split; [lia|].
  assert (Echan : (hslChannel h s l n =? JS.of_Z c) = true).
  { rewrite hslChannel_extreme. destruct (of_Z_FX c ltac:(lia)) as [E' F'].
    apply eqb_FX. repeat split; auto using fin_nan. congruence. }
  split; [exact Echan|]. split.
  - intros E1. rewrite hslChannel_extreme, E1 in Echan.
    apply (eqb_of_Z_inj _ c (bottom S0 L) ltac:(lia) ltac:(lia) Echan Elo).
  - intros E1. rewrite hslChannel_extreme, E1 in Echan.
    apply (eqb_of_Z_inj _ c (top S0 L) ltac:(lia) ltac:(lia) Echan Ehi).
Qed.

Lemma channel_text h S0 L n c :
  (0 <= c <= 255)%Z ->
  (hslChannel h (JS.of_Z S0) (JS.of_Z L) n =? JS.of_Z c) = true ->
  JS.padStart (JS.toString16 (hslChannel h (JS.of_Z S0) (JS.of_Z L) n)) 2 "0" = hex2 c.
Proof.
  intros Hc E. apply eqb_FX in E. destruct E as (N & _ & E).
  destruct (of_Z_FX c ltac:(lia)) as [E' _].
  apply render_byte; [exact Hc|exact N|congruence].
Qed.

(** What [hexToHsl] reads back from [hslToHex] for an integer hue, saturation
    and lightness: the lightness and the saturation of the bytes [top] and
    [bottom]. *)
Lemma hexToHsl_hslToHex h hn S0 L :
  integer h hn -> (0 <= hn <= 360)%Z -> (0 <= S0 <= 100)%Z -> (0 <= L <= 100)%Z ->
  let c := hexToHsl (hslToHex h (JS.of_Z S0) (JS.of_Z L)) in
  c.(l) = lightness_of (top S0 L) (bottom S0 L) /\
  ((bottom S0 L < top S0 L)%Z -> c.(s) = saturation_of (top S0 L) (bottom S0 L)).
Proof.
  intros I Hh HS HL c.
  assert (Fh : fin h = true) by apply I.
  assert (T := hue_extremes h hn I Hh). unfold hue_ok in T. cbv zeta in T.
  apply andb_true_iff in T. destruct T as [T1 T2].
  destruct (channel_between h S0 L 0 Fh ltac:(apply between_within; reflexivity) HS HL)
    as (c0 & A0 & B0 & E0 & L0 & U0).
  destruct (channel_between h S0 L 8 Fh ltac:(apply between_within; reflexivity) HS HL)
    as (c8 & A8 & B8 & E8 & L8 & U8).
  destruct (channel_between h S0 L 4 Fh ltac:(apply between_within; reflexivity) HS HL)
    as (c4 & A4 & B4 & E4 & L4 & U4).
  assert (Hm : (c0 = bottom S0 L \/ c8 = bottom S0 L \/ c4 = bottom S0 L)%Z).
  { rewrite !orb_true_iff in T1. destruct T1 as [[T|T]|T]; apply eqb_one in T; auto. }
  assert (HM : (c0 = top S0 L \/ c8 = top S0 L \/ c4 = top S0 L)%Z).
  { rewrite !orb_true_iff in T2. destruct T2 as [[T|T]|T]; apply eqb_minus_one in T; auto. }
  assert (EM : Z.max (Z.max c0 c8) c4 = top S0 L) by lia.
  assert (Em : Z.min (Z.min c0 c8) c4 = bottom S0 L) by lia.
  assert (Ec : c = rgbToHsl {| r := c0; g := c8; b := c4 |}).
  { unfold c, hexToHsl, hslToHex.
    rewrite (channel_text h S0 L 0 c0), (channel_text h S0 L 8 c8),
      (channel_text h S0 L 4 c4); try assumption; try lia.
    rewrite hexToRgb_hex2; [reflexivity| | |]; unfold byte; lia. }
  rewrite Ec. split.
  - rewrite rgbToHsl_lightness, EM, Em; [reflexivity| | |]; unfold byte; lia.
  - intros Hlt.
    assert (R := rgbToHsl_sextant c0 c8 c4 ltac:(unfold byte; lia) ltac:(unfold byte; lia)
                   ltac:(unfold byte; lia)).
    cbv zeta in R. rewrite EM, Em in R. specialize (R Hlt).
    destruct (sextant c0 c8 c4) as [[p q] off]. rewrite R. reflexivity.
Qed.

(** Decoding what was encoded: for an integer hue between 0 and 360, an
    integer lightness [L] between 0 and 100 is read back as it was written;
    an integer saturation [S0] between 10 and 95, with [L] between 5 and 95,
    is read back within 3 of what was written, between 9 and 96. *)
Lemma decoded h hn S0 L :
  integer h hn -> (0 <= hn <= 360)%Z -> (0 <= S0 <= 100)%Z -> (0 <= L <= 100)%Z ->
  let c := hexToHsl (hslToHex h (JS.of_Z S0) (JS.of_Z L)) in
  (c.(l) =? JS.of_Z L) = true /\
  ((10 <= S0 <= 95)%Z -> (5 <= L <= 95)%Z ->
   exists S2, (9 <= S2 <= 96)%Z /\ (Z.abs (S2 - S0) <= 3)%Z /\ c.(s) = JS.of_Z S2).
Proof.
  intros I Hh HS HL c.
  destruct (hexToHsl_hslToHex h hn S0 L I Hh HS HL) as [El Es]. fold c in El, Es.
  assert (T := encoded_entry S0 L HS HL). unfold encoded_ok in T.
  fold (top S0 L) in T. fold (bottom S0 L) in T. cbv zeta in T.
  rewrite !andb_true_iff in T.
  destruct T as (((((_ & Z1) & Z2) & Z3) & TL) & TS).
  apply Z.leb_le in Z1, Z2, Z3.
  split; [rewrite El; exact TL|].
  intros RS RL.
  rewrite (proj2 (Z.leb_le 10 S0)), (proj2 (Z.leb_le S0 95)), (proj2 (Z.leb_le 5 L)),
    (proj2 (Z.leb_le L 95)) in TS by lia.
  cbn [andb] in TS. apply andb_true_iff in TS. destruct TS as [Hlt TS].
  apply Z.ltb_lt in Hlt. rewrite (Es Hlt).
  assert (Ws := spread_facts (top S0 L) (bottom S0 L) (bottom S0 L)
                  ltac:(unfold byte; lia) ltac:(unfold byte; lia) ltac:(unfold byte; lia)).
  rewrite !Z.max_l, !Z.min_r in Ws by lia.
  destruct (Ws Hlt) as (_ & _ & _ & _ & _ & _ & W).
  assert (W100 : within (0 * 100) (1 * 100) 
            ((if 0.5 <? (unit (top S0 L) + unit (bottom S0 L)) / 2
              then (unit (top S0 L) - unit (bottom S0 L)) /
                   (2 - unit (top S0 L) - unit (bottom S0 L))
              else (unit (top S0 L) - unit (bottom S0 L)) /
                   (unit (top S0 L) + unit (bottom S0 L))) * 100)).
  { apply within_mul_r; [reflexivity|apply FX_nonneg; reflexivity|exact W|reflexivity|reflexivity]. }
  destruct (Math_round_spec _ (within_fin _ _ _ W100)) as (S2 & E2 & F2 & _).
  fold (saturation_of (top S0 L) (bottom S0 L)) in E2, F2.
  apply between_FX in TS.
  destruct (of_Z_FX (Z.max 9 (S0 - 3)) ltac:(lia)) as [Ea _].
  destruct (of_Z_FX (Z.min 96 (S0 + 3)) ltac:(lia)) as [Eb _].
  rewrite Ea, Eb, E2 in TS.
  assert (B2 : (Z.max 9 (S0 - 3) <= S2 <= Z.min 96 (S0 + 3))%Z) by (split; apply le_IZR; lra).
  exists S2. split; [lia|]. split; [lia|].
  apply integer_eq; [lia|lia|split; assumption].
Qed.

(** C2: whatever [Math.random()] returns, [generateVariantFromHex] encodes a
    lightness [L' = clamp(L + k, 5, 95)] and a saturation
    [S' = clamp(S + j, 10, 95)], where [L] and [S] are the lightness and
    saturation of the reference, [k] is an integer with [12 <= |k| <= 20] and
    [j] one with [|j| <= 14]; the result is a colour of the shape the page
    accepts. Decoded by [hexToHsl], the result has the lightness [L'] itself,
    between 5 and 95, and a saturation within 3 of [S'], between 9 and 96.
    The decoded lightness is at least 12 away from [L] when
    [17 <= L <= 83]. *)
Theorem generateVariantFromHex_bounds H u1 u2 u3 u4 :
  draw u2 -> draw u4 ->
  exists L S k j S2 : Z,
    let L' := Z.min (Z.max (L + k) 5) 95 in
    let S' := Z.min (Z.max (S + j) 10) 95 in
    let variant := generateVariantFromHex H u1 u2 u3 u4 in
    (0 <= L <= 100)%Z /\ (0 <= S <= 100)%Z /\
    (12 <= Z.abs k <= 20)%Z /\ (Z.abs j <= 14)%Z /\
    ((hexToHsl H).(l) =? JS.of_Z L) = true /\
    ((hexToHsl H).(s) =? JS.of_Z S) = true /\
    newLightness (hexToHsl H) u1 u2 = JS.of_Z L' /\
    newSaturation (hexToHsl H) u1 u2 u3 u4 = JS.of_Z S' /\
    variant = hslToHex (hexToHsl H).(h) (JS.of_Z S') (JS.of_Z L') /\
    test_hex variant = true /\
    (hexToHsl variant).(l) = JS.of_Z L' /\ (5 <= L' <= 95)%Z /\
    (hexToHsl variant).(s) = JS.of_Z S2 /\ (9 <= S2 <= 96)%Z /\
    (Z.abs (S2 - S') <= 3)%Z /\
    ((17 <= L <= 83)%Z -> (12 <= Z.abs (L' - L))%Z).
Proof.
  intros D2 D4.
  destruct (hexToHsl_integers H) as (hn & S & L & Hh & HS & HL & Ih & Is & Il).
  destruct (lightShift_integer u1 u2 D2) as (k & Hk & Ik).
  destruct (saturationShift_integer (lightShift u1 u2) u3 u4 D4) as (j & Hj & Ij).
  assert (EL : newLightness (hexToHsl H) u1 u2 = JS.of_Z (Z.min (Z.max (L + k) 5) 95)).
  { unfold newLightness. apply (clamp_integer _ (L + k) 5 95); try lia.
    apply integer_add; [exact Il|exact Ik|lia]. }
  assert (ES : newSaturation (hexToHsl H) u1 u2 u3 u4 =
               JS.of_Z (Z.min (Z.max (S + j) 10) 95)).
  { unfold newSaturation. apply (clamp_integer _ (S + j) 10 95); try lia.
    apply integer_add; [exact Is|exact Ij|lia]. }
  assert (EG : generateVariantFromHex H u1 u2 u3 u4 =
               hslToHex (hexToHsl H).(h) (JS.of_Z (Z.min (Z.max (S + j) 10) 95))
                        (JS.of_Z (Z.min (Z.max (L + k) 5) 95))).
  { unfold generateVariantFromHex. cbv zeta. rewrite ES, EL. reflexivity. }
  destruct (decoded (hexToHsl H).(h) hn (Z.min (Z.max (S + j) 10) 95)
              (Z.min (Z.max (L + k) 5) 95) Ih Hh ltac:(lia) ltac:(lia)) as [DL DS].
  destruct (DS ltac:(lia) ltac:(lia)) as (S2 & B2 & A2 & E2).
  rewrite <- EG in DL, E2.
  exists L, S, k, j, S2. cbv zeta.
  split; [exact HL|]. split; [exact HS|]. split; [exact Hk|]. split; [exact Hj|].
  split.
  { destruct Il as [E F]. destruct (of_Z_FX L ltac:(lia)) as [E' F'].
    apply eqb_FX. repeat split; auto using fin_nan. congruence. }
  split.
  { destruct Is as [E F]. destruct (of_Z_FX S ltac:(lia)) as [E' F'].
    apply eqb_FX. repeat split; auto using fin_nan. congruence. }
  split; [exact EL|]. split; [exact ES|]. split; [exact EG|]. split.
  { rewrite EG.
    assert (Ws : within 0 100 (JS.of_Z (Z.min (Z.max (S + j) 10) 95))).
    { apply (within_of_Z 0 100); lia. }
    assert (Wl : within 0 100 (JS.of_Z (Z.min (Z.max (L + k) 5) 95))).
    { apply (within_of_Z 0 100); lia. }
    destruct Ih as [_ Fh].
    destruct (channel_byte _ _ _ 0 Fh Ws Wl) as (r & _ & _ & Sr);
      [apply between_within; reflexivity|].
    destruct (channel_byte _ _ _ 8 Fh Ws Wl) as (g & _ & _ & Sg);
      [apply between_within; reflexivity|].
    destruct (channel_byte _ _ _ 4 Fh Ws Wl) as (b & _ & _ & Sb);
      [apply between_within; reflexivity|].
    unfold hslToHex. rewrite Sr, Sg, Sb. apply test_hex_hex2. }
  split.
  { apply integer_eq; [lia|lia|]. apply integer_of_eqb; [lia|exact DL]. }
  split; [lia|]. split; [exact E2|]. split; [exact B2|]. split; [exact A2|]. lia.
Qed.

Lemma generateVariantFromHex_bounds_witness :
  draw 0.5 /\ draw 0.25 /\
  exists L S k j S2 : Z,
    let L' := Z.min (Z.max (L + k) 5) 95 in
    let S' := Z.min (Z.max (S + j) 10) 95 in
    let variant := generateVariantFromHex "#5468ff" 0.75 0.5 0.75 0.25 in
    (0 <= L <= 100)%Z /\ (0 <= S <= 100)%Z /\
    (12 <= Z.abs k <= 20)%Z /\ (Z.abs j <= 14)%Z /\
    ((hexToHsl "#5468ff").(l) =? JS.of_Z L) = true /\
    ((hexToHsl "#5468ff").(s) =? JS.of_Z S) = true /\
    newLightness (hexToHsl "#5468ff") 0.75 0.5 = JS.of_Z L' /\
    newSaturation (hexToHsl "#5468ff") 0.75 0.5 0.75 0.25 = JS.of_Z S' /\
    variant = hslToHex (hexToHsl "#5468ff").(h) (JS.of_Z S') (JS.of_Z L') /\
    test_hex variant = true /\
    (hexToHsl variant).(l) = JS.of_Z L' /\ (5 <= L' <= 95)%Z /\
    (hexToHsl variant).(s) = JS.of_Z S2 /\ (9 <= S2 <= 96)%Z /\
    (Z.abs (S2 - S') <= 3)%Z /\
    ((17 <= L <= 83)%Z -> (12 <= Z.abs (L' - L))%Z).
Proof.
  assert (D2 : draw 0.5) by (split; reflexivity).
  assert (D4 : draw 0.25) by (split; reflexivity).
  split; [exact D2|]. split; [exact D4|].
  exact (generateVariantFromHex_bounds "#5468ff" 0.75 0.5 0.75 0.25 D2 D4).
Defined.

(** C2 as stated fails in two ways. At [#000000] with the draws 0.25, 0,
    0.25, 0 the variant is [#0e0b0b], whose lightness 5 is only 5 away from
    the lightness 0 of the reference. At [#ff0000] with the draws 0.75,
    0.375, 0.75, 0.5 the variant is [#fb5151], which encodes the saturation
    95 and decodes to the saturation 96; at [#757575] with the draws 0.25,
    0.375, 0.75, 0.5 the variant is [#514343], which encodes the saturation
    10 and decodes to the saturation 9. *)
Lemma generateVariantFromHex_outside :
  (test_hex "#000000" = true /\
   generateVariantFromHex "#000000" 0.25 0 0.25 0 = "#0e0b0b"%string /\
   (hexToHsl "#0e0b0b").(l) = 5 /\ (hexToHsl "#000000").(l) = 0) /\
  (test_hex "#ff0000" = true /\
   generateVariantFromHex "#ff0000" 0.75 0.375 0.75 0.5 = "#fb5151"%string /\
   newSaturation (hexToHsl "#ff0000") 0.75 0.375 0.75 0.5 = 95 /\
   (hexToHsl "#fb5151").(s) = 96) /\
  (test_hex "#757575" = true /\
   generateVariantFromHex "#757575" 0.25 0.375 0.75 0.5 = "#514343"%string /\
   newSaturation (hexToHsl "#757575") 0.25 0.375 0.75 0.5 = 10 /\
   (hexToHsl "#514343").(s) = 9).
Proof. vm_compute. repeat split. Qed.

(** ** Reading back what was printed *)

(** X9. Encoding and decoding keep the lightness: for an integer hue between
    0 and 360 and an integer saturation and lightness between 0 and 100,
    [hexToHsl] reads back from the colour [hslToHex] prints the very
    lightness that was given. *)
Theorem hslToHex_lightness_back (hn S0 L : Z) :
  (0 <= hn <= 360)%Z -> (0 <= S0 <= 100)%Z -> (0 <= L <= 100)%Z ->
  ((hexToHsl (hslToHex (JS.of_Z hn) (JS.of_Z S0) (JS.of_Z L))).(l) =? JS.of_Z L) = true.
Proof.
  intros Hh HS HL.
  destruct (decoded (JS.of_Z hn) hn S0 L (integer_of_Z hn ltac:(lia)) Hh HS HL) as [D _].
  exact D.
Qed.

Lemma hslToHex_lightness_back_witness :
  ((hexToHsl (hslToHex (JS.of_Z 210) (JS.of_Z 50) (JS.of_Z 40))).(l) =? JS.of_Z 40) = true.
Proof. apply hslToHex_lightness_back; lia. Defined.

(** X10. [hexToRgb] reads back the bytes that [hslToHex] prints: three bytes
    rendered by [toString(16).padStart(2, '0')] after a [#] are decoded to
    the same three bytes. *)
Theorem hexToRgb_reads_back (cr cg cb : Z) :
  (0 <= cr <= 255)%Z -> (0 <= cg <= 255)%Z -> (0 <= cb <= 255)%Z ->
  let f c := JS.padStart (JS.toString16 (JS.of_Z c)) 2 "0" in
  hexToRgb (String "#" (f cr ++ f cg ++ f cb)) = {| r := cr; g := cg; b := cb |}.
Proof.
  intros Hr Hg Hb f.
  assert (E : forall c, (0 <= c <= 255)%Z -> f c = hex2 c).
  { intros c Hc. apply String.eqb_eq.
    apply (forallb_zrange byte_hex_ok 0 256 byte_hex_table). lia. }
  rewrite !E by assumption. apply hexToRgb_hex2; assumption.
Qed.

Lemma hexToRgb_reads_back_witness :
  hexToRgb (String "#" (JS.padStart (JS.toString16 (JS.of_Z 84)) 2 "0" ++
                        JS.padStart (JS.toString16 (JS.of_Z 104)) 2 "0" ++
                        JS.padStart (JS.toString16 (JS.of_Z 255)) 2 "0")) =
  {| r := 84; g := 104; b := 255 |}.
Proof. apply (hexToRgb_reads_back 84 104 255); lia. Defined.

(** ** Palette and moods *)

Local Close Scope string_scope.
Local Close Scope R_scope.
Local Close Scope float_scope.
Local Close Scope Z_scope.
Local Open Scope string_scope.

(** C5: [generatePalette] returns six entries named Primary, Primary-L,
    Primary-D, Secondary, Secondary-L and Neutral in this order; the Primary
    entry holds the first argument and the Secondary entry the second one,
    unchanged; no entry is named Secondary-D. *)
Theorem generatePalette_shape (P S : string) :
  map name (generatePalette P S) =
    ["Primary"; "Primary-L"; "Primary-D"; "Secondary"; "Secondary-L"; "Neutral"] /\
  List.length (generatePalette P S) = 6%nat /\
  find_hex "Primary" (generatePalette P S) = Some P /\
  find_hex "Secondary" (generatePalette P S) = Some S /\
  find_hex "Secondary-D" (generatePalette P S) = None.
Proof. repeat split. Qed.

(** C7: the contrast ratio does not depend on the order of its arguments. *)
Theorem getContrastRatio_sym (Math_pow : float -> float -> float) (A B : string) :
  getContrastRatio Math_pow A B = getContrastRatio Math_pow B A.
Proof.
  unfold getContrastRatio.
  rewrite (Math_max_comm (getLuminance Math_pow (hexToRgb A))).
  rewrite (Math_min_comm (getLuminance Math_pow (hexToRgb A))).
  reflexivity.
Qed.

Lemma resolve_known key m :
  In (key, m) moodPalettes -> resolveMood key = Preset m /\ resolveKey key = key.
Proof.
  intros H. repeat (destruct H as [H|H]; [inversion H; subst; split; reflexivity|]).
  destruct H.
Qed.

Lemma resolve_unknown key :
  has key = false -> resolveMood key = Preset calm /\ resolveKey key = "calm".
Proof.
  intros H. unfold resolveMood, resolveKey, or_else. rewrite H.
  unfold has in H. unfold get at 1.
  destruct (assoc key moodPalettes); [discriminate|]. rewrite H. split; reflexivity.
Qed.

Lemma resolve_known_witness :
  resolveMood "noir" =
    Preset {| label := "Night Grid";
              emoji := bytes [195; 162; 226; 128; 148; 194; 188; 195; 175; 194; 184; 194; 143]%nat;
              primary := "#0b1116"; secondary := "#f5eddc" |} /\
  resolveKey "noir" = "noir".
Proof. apply resolve_known. right. left. reflexivity. Defined.

Lemma resolve_unknown_witness :
  resolveMood "not-a-real-key" = Preset calm /\ resolveKey "not-a-real-key" = "calm".
Proof. apply resolve_unknown. reflexivity. Defined.

(** C8, at the key [toString]: the key is none of the five presets, yet
    [moodPalettes[key]] is the function inherited from [Object.prototype] and
    [key in moodPalettes] holds, so neither the preset nor the key falls back
    to calm: [applyMood] leaves [toString] as the current mood, writes
    [undefined] into both colour fields and shows the waiting message. *)
Theorem applyMood_inherited_key :
  assoc "toString" moodPalettes = None /\
  resolveMood "toString" = Inherited "toString" /\
  resolveKey "toString" = "toString" /\
  field primary (resolveMood "toString") = None /\
  forall Math_pow announce st,
    option_map currentMood (applyMood Math_pow "toString" announce st) = Some "toString" /\
    option_map primaryHexInput (applyMood Math_pow "toString" announce st)
      = Some "undefined" /\
    option_map secondaryHexInput (applyMood Math_pow "toString" announce st)
      = Some "undefined" /\
    option_map contrastResult (applyMood Math_pow "toString" announce st) = Some Waiting.
Proof.
  repeat (split; [reflexivity|]).
  intros Math_pow announce st. destruct announce; repeat split.
Qed.

(** ** updateUI *)

Lemma test_hex_unfold c0 c1 c2 c3 c4 c5 c6 :
  test_hex (String c0 (String c1 (String c2 (String c3 (String c4 (String c5
      (String c6 EmptyString))))))) =
  Ascii.eqb c0 "#" && forallb is_lower_hex [c1; c2; c3; c4; c5; c6].
Proof.
  destruct c0 as [[] [] [] [] [] [] [] []]; reflexivity.
Qed.

Lemma lower_char_hash c : Ascii.eqb (JS.lower_char c) "#" = Ascii.eqb c "#".
Proof. destruct c as [[] [] [] [] [] [] [] []]; reflexivity. Qed.

Lemma lower_char_hex c : is_lower_hex (JS.lower_char c) = is_hex_digit c.
Proof. destruct c as [[] [] [] [] [] [] [] []]; reflexivity. Qed.

Lemma test_hex_toLowerCase s : test_hex (JS.toLowerCase s) = hex_shape s.
Proof.
  destruct s as [|c0 [|c1 [|c2 [|c3 [|c4 [|c5 [|c6 [|c7 t]]]]]]]];
    cbn [JS.toLowerCase];
    try (destruct (JS.lower_char c0) as [[] [] [] [] [] [] [] []]; reflexivity);
    try reflexivity.
  rewrite test_hex_unfold. cbn [hex_shape forallb].
  rewrite lower_char_hash, !lower_char_hex. reflexivity.
Qed.

(** C3 as stated fails: the primary text [#ABCDEF] is not a lowercase
    [#rrggbb] string, yet [updateUI] lowercases it and recomputes the palette,
    whatever [Math.pow] is. *)
Theorem updateUI_uppercase_proceeds :
  test_hex "#ABCDEF" = false /\
  forall Math_pow,
    option_map paletteDisplay (updateUI Math_pow (page_of "#ABCDEF" "#000000")) =
    Some (map cell (generatePalette "#abcdef" "#000000")).
Proof. split; [reflexivity|]. intros Math_pow. reflexivity. Qed.

(** C3, amended: [updateUI] tests the two texts after [toLowerCase], so the
    shape it demands of a text is [#] and six hexadecimal digits in either
    case. When either text fails it, nothing is computed: the contrast line is
    the waiting message, the palette display is emptied and the rest of the
    page is left as it was. When both pass, the palette of the two lowercased
    texts is rendered. *)
Theorem updateUI_gate (Math_pow : float -> float -> float) (st : page) :
  let P := JS.toLowerCase st.(primaryHexInput) in
  let S := JS.toLowerCase st.(secondaryHexInput) in
  updateUI Math_pow st =
    if hex_shape st.(primaryHexInput) && hex_shape st.(secondaryHexInput) then
      let ratio := getContrastRatio Math_pow P (neutral_of P S) in
      Some (render (RatioLine ratio (PrimFloat.leb 4.5 ratio))
              (map cell (generatePalette P S)) (Some (css_of (generatePalette P S))) st)
    else Some (render Waiting [] None st).
Proof.
  intros P S. unfold updateUI. fold P S.
  rewrite <- !test_hex_toLowerCase. fold P S.
  destruct (test_hex P); destruct (test_hex S); reflexivity.
Qed.

(** [updateUI] never fails: the palette it builds has the two entries it
    looks up. *)
Theorem updateUI_total (Math_pow : float -> float -> float) (st : page) :
  exists st', updateUI Math_pow st = Some st'.
Proof.
  unfold updateUI.
  destruct (test_hex (JS.toLowerCase st.(primaryHexInput)));
    destruct (test_hex (JS.toLowerCase st.(secondaryHexInput))); eexists; reflexivity.
Qed.

(** ** Events on the page *)

Lemma updateUI_eq (Math_pow : float -> float -> float) (st : page) :
  let P := JS.toLowerCase st.(primaryHexInput) in
  let S := JS.toLowerCase st.(secondaryHexInput) in
  updateUI Math_pow st =
    if hex_shape st.(primaryHexInput) && hex_shape st.(secondaryHexInput) then
      let ratio := getContrastRatio Math_pow P (neutral_of P S) in
      Some (render (RatioLine ratio (PrimFloat.leb 4.5 ratio))
              (map cell (generatePalette P S)) (Some (css_of (generatePalette P S))) st)
    else Some (render Waiting [] None st).
Proof.
  intros P S. unfold updateUI. fold P S.
  rewrite <- !test_hex_toLowerCase. fold P S.
  destruct (test_hex P); destruct (test_hex S); reflexivity.
Qed.


Lemma generateVariantFromHex_test H u1 u2 u3 u4 :
  draw u2 -> draw u4 -> test_hex (generateVariantFromHex H u1 u2 u3 u4) = true.
Proof.
  intros D2 D4.
  destruct (hexToHsl_integers H) as (hn & S & L & Hh & HS & HL & Ih & Is & Il).
  destruct (lightShift_integer u1 u2 D2) as (k & Hk & Ik).
  destruct (saturationShift_integer (lightShift u1 u2) u3 u4 D4) as (j & Hj & Ij).
  unfold generateVariantFromHex. cbv zeta.
  apply hslToHex_test; [apply Ih| |].
  - fold (newSaturation (hexToHsl H) u1 u2 u3 u4). unfold newSaturation.
    rewrite (clamp_integer _ (S + j)%Z 10 95); try lia.
    + apply (within_of_Z 0 100); lia.
    + apply integer_add; [exact Is|exact Ij|lia].
  - fold (newLightness (hexToHsl H) u1 u2). unfold newLightness.
    rewrite (clamp_integer _ (L + k)%Z 5 95); try lia.
    + apply (within_of_Z 0 100); lia.
    + apply integer_add; [exact Il|exact Ik|lia].
Qed.

Lemma linked_render line cells c st :
  linked (render line cells c st) = linked st.
Proof. reflexivity. Qed.







Lemma shown_ext Math_pow st st' :
  st'.(css) = st.(css) -> st'.(paletteDisplay) = st.(paletteDisplay) ->
  st'.(contrastResult) = st.(contrastResult) ->
  shown Math_pow st -> shown Math_pow st'.
Proof.
  intros E1 E2 E3 (P & S & HP & HS & C & D). exists P, S.
  unfold rendered in *. rewrite E1, E2, E3. auto.
Qed.

Lemma shown_updateUI_valid Math_pow st :
  hex_shape st.(primaryHexInput) = true -> hex_shape st.(secondaryHexInput) = true ->
  exists st', updateUI Math_pow st = Some st' /\ shown Math_pow st'.
Proof.
  intros V1 V2. rewrite updateUI_eq, V1, V2. cbv zeta. cbn [andb].
  eexists. split; [reflexivity|].
  exists (JS.toLowerCase st.(primaryHexInput)), (JS.toLowerCase st.(secondaryHexInput)).
  rewrite !test_hex_toLowerCase.
  split; [exact V1|]. split; [exact V2|]. split; [reflexivity|].
  right. split; reflexivity.
Qed.

Lemma shown_updateUI Math_pow st :
  shown Math_pow st ->
  exists st', updateUI Math_pow st = Some st' /\ shown Math_pow st'.
Proof.
  intros H.
  destruct (hex_shape st.(primaryHexInput)) eqn:V1;
    [destruct (hex_shape st.(secondaryHexInput)) eqn:V2|].
  - apply shown_updateUI_valid; assumption.
  - rewrite updateUI_eq, V1, V2. cbn [andb]. eexists. split; [reflexivity|].
    destruct H as (P & S & HP & HS & C & _). exists P, S.
    split; [exact HP|]. split; [exact HS|]. split; [exact C|]. left. split; reflexivity.
  - rewrite updateUI_eq, V1. cbn [andb]. eexists. split; [reflexivity|].
    destruct H as (P & S & HP & HS & C & _). exists P, S.
    split; [exact HP|]. split; [exact HS|]. split; [exact C|]. left. split; reflexivity.
Qed.

Lemma shown_applyMood Math_pow key announce st :
  shown Math_pow st ->
  exists st', applyMood Math_pow key announce st = Some st' /\ shown Math_pow st'.
Proof.
  intros H. unfold applyMood.
  set (st2 := syncColorInputs "secondary" _ (syncColorInputs "primary" _ _)).
  destruct (shown_updateUI Math_pow st2) as (st3 & E & H3).
  { revert H. apply shown_ext; reflexivity. }
  rewrite E. eexists. split; [reflexivity|].
  revert H3. apply shown_ext; destruct announce; reflexivity.
Qed.

Lemma shown_init Math_pow st :
  exists st', init Math_pow st = Some st' /\ shown Math_pow st'.
Proof.
  unfold init, applyMood.
  set (st2 := syncColorInputs "secondary" _ (syncColorInputs "primary" _ _)).
  destruct (shown_updateUI_valid Math_pow st2) as (st3 & E & H3); [reflexivity|reflexivity|].
  rewrite E. eexists. split; [reflexivity|].
  revert H3. apply shown_ext; reflexivity.
Qed.

Lemma onCopy_toast nav st : exists msg, fst (onCopy nav st) = showToast msg st.
Proof.
  unfold onCopy. destruct (css st) as [c|]; destruct nav as [| |f];
    try (eexists; reflexivity).
  destruct (c =? ""); [eexists; reflexivity|]. destruct (f c); eexists; reflexivity.
Qed.

Lemma shown_handle Math_pow ev st :
  shown Math_pow st ->
  exists st', handle Math_pow ev st = Some st' /\ shown Math_pow st'.
Proof.
  intros H. destruct ev as [target v|target u1 u2 u3 u4|data_mood|nav].
  - cbn [handle]. destruct (is_color target).
    + unfold onColorInput. apply shown_updateUI. revert H. apply shown_ext; reflexivity.
    + unfold onHexInput.
      destruct (test_hex (JS.toLowerCase (value_of target (set_value target v st)))).
      * apply shown_updateUI. revert H. apply shown_ext; reflexivity.
      * eexists. split; [reflexivity|]. revert H. apply shown_ext; reflexivity.
  - cbn [handle]. unfold onRandomize. cbv zeta.
    match goal with |- context [updateUI _ ?s] =>
      destruct (shown_updateUI Math_pow s) as (st' & E & H') end.
    { revert H. apply shown_ext; unfold syncColorInputs;
        destruct (target =? "primary"); reflexivity. }
    rewrite E. eexists. split; [reflexivity|].
    revert H'. apply shown_ext; reflexivity.
  - cbn [handle]. unfold onMood. apply shown_applyMood, H.
  - cbn [handle]. eexists. split; [reflexivity|].
    destruct (onCopy_toast nav st) as (msg & E). rewrite E.
    revert H. apply shown_ext; reflexivity.
Qed.

Lemma shown_session Math_pow evs st0 :
  exists st, session Math_pow evs st0 = Some st /\ shown Math_pow st.
Proof.
  unfold session. destruct (shown_init Math_pow st0) as (st1 & E & H1). rewrite E.
  clear E st0. revert st1 H1.
  induction evs as [|ev evs IH]; intros st H.
  - exists st. split; [reflexivity|exact H].
  - destruct (shown_handle Math_pow ev st H) as (st1 & E & H1).
    cbn [run]. rewrite E. apply IH, H1.
Qed.

(** X6. After the script ran and any sequence of events happened, the CSS
    stored for the copy button is that of the palette of two colours of the
    accepted shape, and the page shows either no swatch and the waiting
    message, or the six swatches of that same palette and its contrast
    line. *)
Theorem session_shown (Math_pow : float -> float -> float) (evs : list event) (st0 : page) :
  exists st P S,
    session Math_pow evs st0 = Some st /\
    test_hex P = true /\ test_hex S = true /\
    st.(css) = Some (css_of (generatePalette P S)) /\
    ((st.(paletteDisplay) = [] /\ st.(contrastResult) = Waiting) \/
     (st.(paletteDisplay) = map cell (generatePalette P S) /\
      st.(contrastResult) =
        RatioLine (getContrastRatio Math_pow P (neutral_of P S))
                  (PrimFloat.leb 4.5 (getContrastRatio Math_pow P (neutral_of P S))))).
Proof.
  destruct (shown_session Math_pow evs st0) as (st & E & P & S & HP & HS & C & D).
  exists st, P, S. repeat (split; [assumption|]). exact D.
Qed.

Lemma css_of_not_empty palette : (css_of palette =? "") = false.
Proof. reflexivity. Qed.

(** X7. After the script ran and any sequence of events happened, a click on
    the copy button never finds the CSS missing: with a clipboard it calls
    [writeText] with the CSS of a palette of two colours of the accepted
    shape, and reports success or failure as the promise settles; without
    one it writes nothing and reports that the clipboard is unavailable. *)
Theorem session_copy (Math_pow : float -> float -> float) (evs : list event) (st0 : page) :
  exists st P S,
    session Math_pow evs st0 = Some st /\
    test_hex P = true /\ test_hex S = true /\
    (forall fulfilled,
       onCopy (WriteText fulfilled) st =
         (showToast (if fulfilled (css_of (generatePalette P S))
                     then "CSS variables copied to clipboard!" else "Failed to copy.") st,
          Some (css_of (generatePalette P S)))) /\
    onCopy NoClipboard st = (showToast "Clipboard unavailable." st, None) /\
    onCopy NoWriteText st = (showToast "Clipboard unavailable." st, None).
Proof.
  destruct (shown_session Math_pow evs st0) as (st & E & P & S & HP & HS & C & _).
  exists st, P, S. repeat (split; [assumption|]).
  unfold onCopy. rewrite C, css_of_not_empty. split; [|split; reflexivity].
  intros f. destruct (f (css_of (generatePalette P S))); reflexivity.
Qed.

Lemma lower_hex_digit c : is_lower_hex c = true -> is_hex_digit c = true.
Proof. destruct c as [[] [] [] [] [] [] [] []]; intros H; try reflexivity; discriminate H. Qed.

Lemma test_hex_shape s : test_hex s = true -> hex_shape s = true.
Proof.
  destruct s as [|c0 [|c1 [|c2 [|c3 [|c4 [|c5 [|c6 [|c7 t]]]]]]]];
    try (intros H; exfalso; revert H;
         try (destruct c0 as [[] [] [] [] [] [] [] []]); discriminate).
  rewrite test_hex_unfold. cbn [hex_shape forallb]. intros H.
  rewrite !andb_true_iff in H. destruct H as (H0 & H1 & H2 & H3 & H4 & H5 & H6 & _).
  rewrite H0, !lower_hex_digit by assumption. reflexivity.
Qed.

(** X8. A click on a randomize button while the other hex field holds a
    colour ([#] and six hexadecimal digits, in either case) never throws: it
    writes a variant of that colour, itself of the accepted shape, into the
    hex field and the picker of the target, leaves the reference where it
    was, renders the palette of six swatches with its contrast line, and
    shows the toast [Linked <target> hue]. *)
Theorem onRandomize_valid_reference (Math_pow : float -> float -> float)
    (target : string) (u1 u2 u3 u4 : float) (st : page) :
  let reference :=
    if target =? "primary" then st.(secondaryHexInput) else st.(primaryHexInput) in
  let variant := generateVariantFromHex (JS.toLowerCase reference) u1 u2 u3 u4 in
  draw u2 -> draw u4 -> hex_shape reference = true ->
  exists st',
    onRandomize Math_pow target u1 u2 u3 u4 st = Some st' /\
    test_hex variant = true /\
    (if target =? "primary"
     then st'.(primaryHexInput) = variant /\ st'.(primaryColorInput) = variant /\
          st'.(secondaryHexInput) = reference
     else st'.(secondaryHexInput) = variant /\ st'.(secondaryColorInput) = variant /\
          st'.(primaryHexInput) = reference) /\
    st'.(contrastResult) <> Waiting /\
    List.length st'.(paletteDisplay) = 6%nat /\
    st'.(toast) = Some ("Linked " ++ target ++ " hue").
Proof.
  intros reference variant D2 D4 V.
  assert (TV : test_hex variant = true) by (apply generateVariantFromHex_test; assumption).
  assert (SV := test_hex_shape _ TV).
  unfold onRandomize. cbv zeta. fold reference.
  rewrite test_hex_toLowerCase, V. fold variant.
  rewrite updateUI_eq. cbv zeta. unfold syncColorInputs, reference in *.
  destruct (target =? "primary");
    cbn [primaryHexInput secondaryHexInput]; rewrite SV, V; cbn [andb];
    (eexists; split; [reflexivity|]); (split; [exact TV|]);
    (split; [repeat split|]); (split; [discriminate|]); split; reflexivity.
Qed.

Lemma onRandomize_valid_reference_witness :
  exists st',
    onRandomize (fun x _ => x) "primary" 0.75 0.5 0.75 0.25 (page_of "#5468ff" "#bfe0ff")
      = Some st' /\
    test_hex (generateVariantFromHex (JS.toLowerCase "#bfe0ff") 0.75 0.5 0.75 0.25) = true /\
    (st'.(primaryHexInput) = generateVariantFromHex (JS.toLowerCase "#bfe0ff") 0.75 0.5 0.75 0.25 /\
     st'.(primaryColorInput) = generateVariantFromHex (JS.toLowerCase "#bfe0ff") 0.75 0.5 0.75 0.25 /\
     st'.(secondaryHexInput) = "#bfe0ff") /\
    st'.(contrastResult) <> Waiting /\
    List.length st'.(paletteDisplay) = 6%nat /\
    st'.(toast) = Some "Linked primary hue".
Proof.
  exact (onRandomize_valid_reference (fun x _ => x) "primary" 0.75 0.5 0.75 0.25
           (page_of "#5468ff" "#bfe0ff") ltac:(split; reflexivity) ltac:(split; reflexivity)
           eq_refl).
Defined.
